(** * BoneKey: the bone-cache subsystem of AnimeEffects

    A shallow embedding of [src/core/BoneKey.cpp].  The BoneKey object, the
    Cache objects it owns through raw pointers and the effects it has on the
    project (write lock, asynchronous write requests, worker wake-up) are
    modelled as one explicit state; C++ pointers to Cache objects are heap
    addresses, pointers to scene nodes are node identities. *)

From stdpp Require Import gmap strings list fin_maps.
From Stdlib Require Import ZArith Lia.

Set Warnings "-register-all".

(** ** Scene graph *)

(** An [ObjectNode*] is identified by the address of the node. *)
Definition NodeId := nat.

(** A scene node together with the subtree below it. *)
Inductive ObjectNode : Type :=
| ONode (nodeId : NodeId) (children : list ObjectNode).

Definition nodeId (n : ObjectNode) : NodeId :=
  match n with ONode i _ => i end.

Definition children (n : ObjectNode) : list ObjectNode :=
  match n with ONode _ cs => cs end.

(** Modelled from the spec: [ObjectNode::Iterator] (util/TreeIterator.h is
    not among the sources) walks the subtree of its root in document order,
    the root first. [iterate] lists the nodes in the order [next()] returns
    them. *)
Fixpoint iterate (n : ObjectNode) : list NodeId :=
  match n with
  | ONode i cs => i :: concat (map iterate cs)
  end.

(** Modelled from the spec: [util::TreeUtil::leftContainsRight(l, r)]
    (util/TreeUtil.h is not among the sources) holds when [r] is [l] or a
    descendant of [l]. *)
Definition leftContainsRight (l r : ObjectNode) : bool :=
  bool_decide (nodeId r ∈ iterate l).

(** ** Values carried by a cache *)

(** [core::Frame], an opaque frame marker. *)
Definition Frame := Z.

(** [QMatrix4x4] and [QVector3D] hold single-precision floats; the model
    moves them around as raw words and never computes on them. *)
Definition QMatrix4x4 := list Z.
Definition QVector3D := list Z.

Record TimeInfo : Type := mkTimeInfo {
  frameMax : Z;
  fps : Z;
  tiFrame : Frame;
}.

(** [time.frame.set(f)] *)
Definition setFrame (t : TimeInfo) (f : Frame) : TimeInfo :=
  {| frameMax := frameMax t; fps := fps t; tiFrame := f |}.

(** What BoneKey reads of a [LayerMesh]. *)
Record LayerMesh : Type := mkLayerMesh {
  frameSign : Frame;
  vertexCount : Z;
}.

(** [BoneInfluenceMap]: one weight slot per vertex, at most [maxBoneCount]
    bones in each. *)
Record BoneInfluenceMap : Type := mkInfluence {
  maxBoneCount : Z;
  mapVertexCount : Z;
  weights : list (list Z);
}.

Definition setMaxBoneCount (m : BoneInfluenceMap) (n : Z) : BoneInfluenceMap :=
  {| maxBoneCount := n; mapVertexCount := mapVertexCount m; weights := weights m |}.

(** Modelled from the spec: [BoneInfluenceMap::allocate(vertexCount,
    forceClear)] (BoneInfluenceMap.cpp is not among the sources) keeps the
    storage when the vertex count is unchanged and no clear is forced, and
    otherwise holds exactly [n] empty slots. *)
Definition allocate (m : BoneInfluenceMap) (n : Z) (forceClear : bool)
  : BoneInfluenceMap :=
  if negb forceClear && (mapVertexCount m =? n)%Z then m
  else {| maxBoneCount := maxBoneCount m;
          mapVertexCount := n;
          weights := replicate (Z.to_nat n) [] |}.

(** ** Bones *)

(** The fields a bone writes for itself, as raw words. *)
Definition BoneFields := list Z.

(** [Bone2] as BoneKey sees it: its own fields and its owned children. *)
Inductive Bone2 : Type :=
| Bone (fields : BoneFields) (boneChildren : list Bone2).

Definition boneFields (b : Bone2) : BoneFields :=
  match b with Bone f _ => f end.

Definition boneChildren (b : Bone2) : list Bone2 :=
  match b with Bone _ cs => cs end.

(** ** BoneKey::Cache *)

Record Cache : Type := mkCache {
  mInfluence : BoneInfluenceMap;
  mNode : option NodeId;
  mInnerMtx : QMatrix4x4;
  mFrameSign : Frame;
}.

Definition kMaxBoneCount : Z := 32.

(** The identity matrix a default [QMatrix4x4] holds (IEEE-754 words). *)
Definition identityMtx : QMatrix4x4 :=
  let one := 1065353216%Z in
  [one; 0; 0; 0;  0; one; 0; 0;  0; 0; one; 0;  0; 0; 0; one]%Z.

(** [Cache::Cache()] *)
Definition newCache : Cache :=
  {| mInfluence := setMaxBoneCount (mkInfluence 0 0 []) kMaxBoneCount;
     mNode := None;
     mInnerMtx := identityMtx;
     mFrameSign := 0%Z |}.

(** [Cache::setNode] *)
Definition setNode (c : Cache) (n : NodeId) : Cache :=
  {| mInfluence := mInfluence c; mNode := Some n;
     mInnerMtx := mInnerMtx c; mFrameSign := mFrameSign c |}.

Definition setFrameSign (c : Cache) (f : Frame) : Cache :=
  {| mInfluence := mInfluence c; mNode := mNode c;
     mInnerMtx := mInnerMtx c; mFrameSign := f |}.

Definition setInnerMatrix (c : Cache) (m : QMatrix4x4) : Cache :=
  {| mInfluence := mInfluence c; mNode := mNode c;
     mInnerMtx := m; mFrameSign := mFrameSign c |}.

(** Assignment through the reference [cache->influence()] returns. *)
Definition setInfluence (c : Cache) (i : BoneInfluenceMap) : Cache :=
  {| mInfluence := i; mNode := mNode c;
     mInnerMtx := mInnerMtx c; mFrameSign := mFrameSign c |}.

(** ** The project, as BoneKey uses it *)

(** The collaborators [updateCaches] and [resetCaches] query.  The matrix
    and vector operations are floating point and stay uninterpreted. *)
Record Project : Type := mkProject {
  currentTimeInfo : TimeInfo;
  (** [TimeKeyBlender::getAreaMesh(node, time)], a null pointer is [None] *)
  getAreaMesh : NodeId → TimeInfo → option LayerMesh;
  (** [TimeKeyBlender::getRelativeMatrix(node, time, owner)] *)
  getRelativeMatrix : NodeId → TimeInfo → NodeId → QMatrix4x4;
  (** [ObjectNodeUtil::getCenterOffset3D(node)] *)
  getCenterOffset3D : NodeId → QVector3D;
  (** unary minus of [QVector3D] *)
  negate : QVector3D → QVector3D;
  (** [QMatrix4x4::translate] *)
  translate : QMatrix4x4 → QVector3D → QMatrix4x4;
}.

(** ** State *)

(** A [Cache*]: the address of the object. *)
Abbreviation addr := nat.

(** What the project observes of a call. *)
Inductive Event : Type :=
| EvLockForWrite
| EvWriteAsync (target : addr) (topBones : list Bone2)
               (innerMtx : QMatrix4x4) (mesh : LayerMesh)
| EvWakeAll
| EvUnlock.

(** The BoneKey object ([frame] comes from its base class TimeKey), the
    Cache objects on the heap and the effects so far.  [nextAddr] is the
    address the next [new Cache()] returns; addresses are never handed out
    twice, so equal addresses mean the same object. *)
Record State : Type := mkState {
  frame : Frame;
  mData : list Bone2;
  mCaches : list addr;
  mCacheOwner : option NodeId;
  heap : gmap addr Cache;
  nextAddr : addr;
  trace : list Event;
}.

Definition withCaches (s : State) (cs : list addr) : State :=
  {| frame := frame s; mData := mData s; mCaches := cs;
     mCacheOwner := mCacheOwner s; heap := heap s;
     nextAddr := nextAddr s; trace := trace s |}.

Definition withOwner (s : State) (o : option NodeId) : State :=
  {| frame := frame s; mData := mData s; mCaches := mCaches s;
     mCacheOwner := o; heap := heap s;
     nextAddr := nextAddr s; trace := trace s |}.

Definition withData (s : State) (d : list Bone2) : State :=
  {| frame := frame s; mData := d; mCaches := mCaches s;
     mCacheOwner := mCacheOwner s; heap := heap s;
     nextAddr := nextAddr s; trace := trace s |}.

Definition withHeap (s : State) (h : gmap addr Cache) : State :=
  {| frame := frame s; mData := mData s; mCaches := mCaches s;
     mCacheOwner := mCacheOwner s; heap := h;
     nextAddr := nextAddr s; trace := trace s |}.

(** Write [c] through the pointer [a]. *)
Definition store (s : State) (a : addr) (c : Cache) : State :=
  withHeap s (<[a := c]> (heap s)).

Definition emit (e : Event) (s : State) : State :=
  {| frame := frame s; mData := mData s; mCaches := mCaches s;
     mCacheOwner := mCacheOwner s; heap := heap s;
     nextAddr := nextAddr s; trace := trace s ++ [e] |}.

(** [new Cache()] *)
Definition alloc (s : State) (c : Cache) : addr * State :=
  (nextAddr s,
   {| frame := frame s; mData := mData s; mCaches := mCaches s;
      mCacheOwner := mCacheOwner s; heap := <[nextAddr s := c]> (heap s);
      nextAddr := S (nextAddr s); trace := trace s |}).

(** ** Faults *)

(** A call either returns or stops at a failed assertion or at a
    dereferenced null pointer. *)
Inductive Fault : Type :=
| AssertFailed (what : string)
| NullDeref (what : string).

Inductive result (A : Type) : Type :=
| Ok (a : A)
| Abort (f : Fault).
Arguments Ok {A} a.
Arguments Abort {A} f.

#[global] Instance result_bind : MBind result :=
  fun A B (k : A → result B) (r : result A) =>
    match r with
    | Ok a => k a
    | Abort f => Abort f
    end.

(** ** updateCaches(Project&, const QList<Cache*>&) *)

(** The body of the loop over the targets. *)
Definition refreshTarget (P : Project) (owner : NodeId) (s : State) (a : addr)
  : result State :=
  match heap s !! a with
  | None => Abort (NullDeref "cache")
  | Some cache =>
    match mNode cache with
    | None => Abort (AssertFailed "cache->node()")
    | Some node =>
      let time := setFrame (currentTimeInfo P) (frame s) in
      match getAreaMesh P node time with
      | None =>
        (* line 117 reads mesh->frameSign() before line 119 tests !mesh *)
        Abort (NullDeref "mesh->frameSign()")
      | Some mesh =>
        let cache1 := setFrameSign cache (frameSign mesh) in
        if (vertexCount mesh <=? 0)%Z then Ok (store s a cache1)
        else
          let innerMtx :=
            translate P (getRelativeMatrix P node time owner)
                        (negate P (getCenterOffset3D P node)) in
          let cache2 := setInnerMatrix cache1 innerMtx in
          let cache3 :=
            setInfluence cache2
              (allocate (mInfluence cache2) (vertexCount mesh) false) in
          Ok (emit (EvWriteAsync a (mData s) (mInnerMtx cache3) mesh)
                   (store s a cache3))
      end
    end
  end.

Fixpoint refreshTargets (P : Project) (owner : NodeId) (s : State)
  (targets : list addr) : result State :=
  match targets with
  | [] => Ok s
  | a :: rest =>
    s' ← refreshTarget P owner s a;
    refreshTargets P owner s' rest
  end.

Definition updateCaches (P : Project) (s : State) (targets : list addr)
  : result State :=
  match targets with
  | [] => Ok s
  | _ :: _ =>
    match mCacheOwner s with
    | None => Abort (AssertFailed "owner")
    | Some owner =>
      s1 ← refreshTargets P owner (emit EvLockForWrite s) targets;
      Ok (emit EvUnlock (emit EvWakeAll s1))
    end
  end.

(** ** findCache, popCache, destroyCaches *)

(** [cache->node() && cache->node() == &aNode] *)
Definition boundTo (h : gmap addr Cache) (n : NodeId) (a : addr) : bool :=
  match h !! a with
  | Some c => bool_decide (mNode c = Some n)
  | None => false
  end.

Fixpoint findIn (h : gmap addr Cache) (n : NodeId) (l : list addr)
  : option addr :=
  match l with
  | [] => None
  | a :: rest => if boundTo h n a then Some a else findIn h n rest
  end.

Definition findCache (s : State) (n : NodeId) : option addr :=
  findIn (heap s) n (mCaches s).

(** The first match and the list without it. *)
Fixpoint popFrom (h : gmap addr Cache) (n : NodeId) (l : list addr)
  : option (addr * list addr) :=
  match l with
  | [] => None
  | a :: rest =>
    if boundTo h n a then Some (a, rest)
    else match popFrom h n rest with
         | Some (c, rest') => Some (c, a :: rest')
         | None => None
         end
  end.

Definition popCache (s : State) (n : NodeId) : option addr * State :=
  match popFrom (heap s) n (mCaches s) with
  | Some (a, l) => (Some a, withCaches s l)
  | None => (None, s)
  end.

(** [qDeleteAll(mCaches); mCaches.clear(); mCacheOwner.reset();] *)
Definition destroyCaches (s : State) : State :=
  withOwner
    (withCaches (withHeap s (foldr delete (heap s) (mCaches s))) [])
    None.

(** ** resetCaches *)

(** The negation of [!mesh || mesh->vertexCount() <= 0] at the current
    time with the frame of this key. *)
Definition hasVertices (P : Project) (s : State) (n : NodeId) : bool :=
  match getAreaMesh P n (setFrame (currentTimeInfo P) (frame s)) with
  | Some mesh => negb (vertexCount mesh <=? 0)%Z
  | None => false
  end.

(** The loop "find valid caches" over the nodes the iterator returns. *)
Fixpoint collectValid (P : Project) (s : State) (nodes : list NodeId)
  (newCaches : list addr) : State * list addr :=
  match nodes with
  | [] => (s, newCaches)
  | n :: rest =>
    if negb (hasVertices P s n) then collectValid P s rest newCaches
    else
      match popCache s n with
      | (Some a, s1) => collectValid P s1 rest (newCaches ++ [a])
      | (None, s1) =>
        let '(a, s2) := alloc s1 (setNode newCache n) in
        collectValid P s2 rest (newCaches ++ [a])
      end
  end.

Definition resetCaches (P : Project) (s : State) (aOwner : ObjectNode)
  : result State :=
  let '(s1, newCaches) := collectValid P s (iterate aOwner) [] in
  let s2 := destroyCaches s1 in
  let s3 := withCaches s2 (mCaches s2 ++ newCaches) in
  let s4 := withOwner s3 (Some (nodeId aOwner)) in
  updateCaches P s4 (mCaches s4).

(** ** updateCaches(Project&, ObjectNode&, const QVector<ObjectNode*>&) *)

(** The inner loop over the nodes below one root. *)
Fixpoint collectExisting (s : State) (nodes : list NodeId)
  (caches : list addr) : list addr :=
  match nodes with
  | [] => caches
  | n :: rest =>
    match findCache s n with
    | Some a =>
      if bool_decide (a ∈ caches) then collectExisting s rest caches
      else collectExisting s rest (caches ++ [a])
    | None => collectExisting s rest caches
    end
  end.

(** The outer loop over the roots; a root is a non-null pointer. *)
Fixpoint collectRoots (s : State) (aOwner : ObjectNode)
  (roots : list ObjectNode) (caches : list addr) : list addr :=
  match roots with
  | [] => caches
  | root :: rest =>
    if negb (leftContainsRight aOwner root)
    then collectRoots s aOwner rest caches
    else collectRoots s aOwner rest (collectExisting s (iterate root) caches)
  end.

Definition updateCachesUnder (P : Project) (s : State) (aOwner : ObjectNode)
  (aUniqueRoots : list ObjectNode) : result State :=
  let caches := collectRoots s aOwner aUniqueRoots [] in
  let ownerOk :=
    match mCacheOwner s with
    | None => true
    | Some o => bool_decide (o = nodeId aOwner)
    end in
  if ownerOk
  then updateCaches P (withOwner s (Some (nodeId aOwner))) caches
  else Abort (AssertFailed "!mCacheOwner || mCacheOwner.get() == &aOwner").

(** ** Streams *)

(** One record of the stream, as the typed [write]/[read] calls of
    Serializer and Deserializer put and take them. *)
Inductive Item : Type :=
| IInt (z : Z)
| IID (id : Z)
| IMatrix (m : QMatrix4x4)
| IFrame (f : Frame)
| IBone (f : BoneFields)
| IInfluence (vertices : Z) (w : list (list Z)).

(** The conversion [(int)] of a size: wrap-around to 32 bits, signed. *)
Definition toInt (z : Z) : Z :=
  ((z + 2 ^ 31) mod 2 ^ 32 - 2 ^ 31)%Z.

(** Modelled from the spec: Serializer (Serializer.h is not among the
    sources) appends typed records to a checked stream; [writeID] writes
    the reference id the table [idOf] gives a node pointer (null is
    [None]). *)
Record Serializer : Type := mkSerializer {
  sOut : list Item;
  sFailed : bool;
  idOf : option NodeId → Z;
}.

Definition write (o : Serializer) (i : Item) : Serializer :=
  {| sOut := sOut o ++ [i]; sFailed := sFailed o; idOf := idOf o |}.

Definition writeID (o : Serializer) (p : option NodeId) : Serializer :=
  write o (IID (idOf o p)).

Definition checkStreamOut (o : Serializer) : bool := negb (sFailed o).

(** Modelled from the spec: [Bone2::serialize] (Bone2.cpp is not among the
    sources) writes the bone's own fields. *)
Definition boneSerialize (o : Serializer) (b : Bone2) : bool * Serializer :=
  let o1 := write o (IBone (boneFields b)) in
  (checkStreamOut o1, o1).

(** Modelled from the spec: [BoneInfluenceMap::serialize] writes the raw
    weight data keyed by vertex index. *)
Definition influenceSerialize (o : Serializer) (m : BoneInfluenceMap)
  : bool * Serializer :=
  let o1 := write o (IInfluence (mapVertexCount m) (weights m)) in
  (checkStreamOut o1, o1).

(** ** serialize *)

Section SerializeLoop.
Variable serializeOne : Serializer → Bone2 → bool * Serializer.

(** [for (auto b : bones) if (!serializeOne(aOut, b)) return false;] *)
Fixpoint serializeEach (o : Serializer) (bones : list Bone2)
  : bool * Serializer :=
  match bones with
  | [] => (true, o)
  | b :: rest =>
    let '(ok, o1) := serializeOne o b in
    if negb ok then (false, o1) else serializeEach o1 rest
  end.
End SerializeLoop.

Fixpoint serializeBone (o : Serializer) (aBone : Bone2) : bool * Serializer :=
  match aBone with
  | Bone _ cs =>
    let o1 := write o (IInt (toInt (Z.of_nat (length cs)))) in
    let '(ok, o2) := boneSerialize o1 aBone in
    if negb ok then (false, o2)
    else
      let '(ok', o3) := serializeEach serializeBone o2 cs in
      if negb ok' then (false, o3) else (checkStreamOut o3, o3)
  end.

(** The loop "each caches". *)
Fixpoint serializeCaches (h : gmap addr Cache) (o : Serializer)
  (caches : list addr) : result (bool * Serializer) :=
  match caches with
  | [] => Ok (true, o)
  | a :: rest =>
    match h !! a with
    | None => Abort (NullDeref "cache")
    | Some cache =>
      let o1 := writeID o (mNode cache) in
      let o2 := write o1 (IMatrix (mInnerMtx cache)) in
      let o3 := write o2 (IFrame (mFrameSign cache)) in
      let '(ok, o4) := influenceSerialize o3 (mInfluence cache) in
      if negb ok then Ok (false, o4) else serializeCaches h o4 rest
    end
  end.

Definition serialize (s : State) (o : Serializer) : result (bool * Serializer) :=
  let o1 := write o (IInt (Z.of_nat (length (mData s)))) in
  let '(ok, o2) := serializeEach serializeBone o1 (mData s) in
  if negb ok then Ok (false, o2)
  else
    let o3 := writeID o2 (mCacheOwner s) in
    let o4 := write o3 (IInt (Z.of_nat (length (mCaches s)))) in
    '(ok', o5) ← serializeCaches (heap s) o4 (mCaches s);
    if negb ok' then Ok (false, o5) else Ok (checkStreamOut o5, o5).

(** ** Deserializer *)

(** The two closures [deserialize] hands to [orderIDData]:
    [if (node) this->mCacheOwner = node->pointee()] and
    [if (node) cache->setNode( *node)]. *)
Inductive Solver : Type :=
| SolveOwner
| SolveCacheNode (cache : addr).

(** Modelled from the spec: Deserializer (Deserializer.h is not among the
    sources) reads typed records from a checked stream, keeps a stack of
    log scopes and a log of the errors reported under them, and records
    the deferred reference requests [(id, solver)] in the order they were
    made.  A read from a failed or mismatching stream fails the stream and
    leaves the variable read into as it was. *)
Record Deserializer : Type := mkDeserializer {
  dIn : list Item;
  dFailed : bool;
  dScopes : list string;
  dLog : list (list string * string);
  dOrders : list (Z * Solver);
}.

Definition withIn (d : Deserializer) (l : list Item) : Deserializer :=
  {| dIn := l; dFailed := dFailed d; dScopes := dScopes d;
     dLog := dLog d; dOrders := dOrders d |}.

Definition failStream (d : Deserializer) : Deserializer :=
  {| dIn := dIn d; dFailed := true; dScopes := dScopes d;
     dLog := dLog d; dOrders := dOrders d |}.

Definition pushLogScope (d : Deserializer) (scope : string) : Deserializer :=
  {| dIn := dIn d; dFailed := dFailed d; dScopes := dScopes d ++ [scope];
     dLog := dLog d; dOrders := dOrders d |}.

Definition popLogScope (d : Deserializer) : Deserializer :=
  {| dIn := dIn d; dFailed := dFailed d; dScopes := removelast (dScopes d);
     dLog := dLog d; dOrders := dOrders d |}.

(** [aIn.errored(msg)]: the message is logged under the open scopes; the
    call itself returns false, which the caller passes on.  The state of
    the stream is not touched. *)
Definition errored (d : Deserializer) (msg : string) : Deserializer :=
  {| dIn := dIn d; dFailed := dFailed d; dScopes := dScopes d;
     dLog := dLog d ++ [(dScopes d, msg)]; dOrders := dOrders d |}.

Definition checkStream (d : Deserializer) : bool := negb (dFailed d).

(** The next record of a stream that has not failed. *)
Definition nextItem (d : Deserializer) : option (Item * Deserializer) :=
  if dFailed d then None
  else match dIn d with
       | [] => None
       | i :: rest => Some (i, withIn d rest)
       end.

(** [aIn.read(int&)]; [dflt] is the value the variable held. *)
Definition readInt (d : Deserializer) (dflt : Z) : Z * Deserializer :=
  match nextItem d with
  | Some (IInt z, d1) => (z, d1)
  | _ => (dflt, failStream d)
  end.

Definition readMatrix (d : Deserializer) (dflt : QMatrix4x4)
  : QMatrix4x4 * Deserializer :=
  match nextItem d with
  | Some (IMatrix m, d1) => (m, d1)
  | _ => (dflt, failStream d)
  end.

Definition readFrame (d : Deserializer) (dflt : Frame) : Frame * Deserializer :=
  match nextItem d with
  | Some (IFrame f, d1) => (f, d1)
  | _ => (dflt, failStream d)
  end.

(** [aIn.orderIDData(solver)]: reads a reference id and queues the solver
    for the pass that runs once the whole project is loaded. *)
Definition orderIDData (d : Deserializer) (solver : Solver)
  : bool * Deserializer :=
  match nextItem d with
  | Some (IID id, d1) =>
    (true,
     {| dIn := dIn d1; dFailed := dFailed d1; dScopes := dScopes d1;
        dLog := dLog d1; dOrders := dOrders d1 ++ [(id, solver)] |})
  | _ => (false, failStream d)
  end.

(** Modelled from the spec: [Bone2::deserialize] reads the bone's own
    fields back; a bone that cannot be read keeps the fields it had. *)
Definition boneDeserialize (d : Deserializer) (dflt : BoneFields)
  : bool * BoneFields * Deserializer :=
  match nextItem d with
  | Some (IBone f, d1) => (true, f, d1)
  | _ => (false, dflt, failStream d)
  end.

(** Modelled from the spec: [BoneInfluenceMap::deserialize] reads the raw
    weight data back into the map. *)
Definition influenceDeserialize (d : Deserializer) (m : BoneInfluenceMap)
  : bool * BoneInfluenceMap * Deserializer :=
  match nextItem d with
  | Some (IInfluence n w, d1) =>
    (true, {| maxBoneCount := maxBoneCount m; mapVertexCount := n; weights := w |}, d1)
  | _ => (false, m, failStream d)
  end.

(** ** deserialize *)

(** [Bone2::Bone2()] *)
Definition newBone : Bone2 := Bone [] [].

Section DeserializeLoop.
(** [deserializeOne d] decodes into a fresh [Bone2]. *)
Variable deserializeOne : Deserializer → option (bool * Bone2 * Deserializer).

(** [for (int i = 0; i < count; ++i) { b = new Bone2(); push(b);
     if (!deserializeOne(aIn, b)) return false; }]
    The bone is pushed before it is decoded, so it stays in the list
    when decoding it fails. *)
Fixpoint deserializeEach (count : nat) (bones : list Bone2) (d : Deserializer)
  : option (bool * list Bone2 * Deserializer) :=
  match count with
  | O => Some (true, bones, d)
  | S count' =>
    match deserializeOne d with
    | None => None
    | Some (ok, b, d1) =>
      if negb ok then Some (false, bones ++ [b], d1)
      else deserializeEach count' (bones ++ [b]) d1
    end
  end.
End DeserializeLoop.

(** [deserializeBone] into a fresh bone; [depth] bounds the nesting of the
    recursion, [None] means the bound was reached. *)
Fixpoint deserializeBoneAt (depth : nat) (d : Deserializer)
  : option (bool * Bone2 * Deserializer) :=
  match depth with
  | O => None
  | S depth' =>
    let '(childCount, d1) := readInt d 0%Z in
    if (childCount <? 0)%Z
    then Some (false, newBone, errored d1 "invalid child count")
    else
      let '(ok, fields, d2) := boneDeserialize d1 (boneFields newBone) in
      if negb ok then Some (false, Bone fields [], d2)
      else
        match deserializeEach (deserializeBoneAt depth')
                (Z.to_nat childCount) [] d2 with
        | None => None
        | Some (ok', cs, d3) =>
          if negb ok' then Some (false, Bone fields cs, d3)
          else Some (checkStream d3, Bone fields cs, d3)
        end
  end.

(** A bone nests at most as deep as there are records left to read. *)
Definition deserializeBone (d : Deserializer)
  : option (bool * Bone2 * Deserializer) :=
  deserializeBoneAt (S (length (dIn d))) d.

(** The loop "each caches". *)
Fixpoint deserializeCaches (count : nat) (s : State) (d : Deserializer)
  : bool * State * Deserializer :=
  match count with
  | O => (true, s, d)
  | S count' =>
    let '(a, s1) := alloc s newCache in
    let s2 := withCaches s1 (mCaches s1 ++ [a]) in
    let '(ok, d1) := orderIDData d (SolveCacheNode a) in
    if negb ok then (false, s2, errored d1 "invalid cache reference id")
    else
      let '(innerMtx, d2) := readMatrix d1 identityMtx in
      let '(frameSign, d3) := readFrame d2 0%Z in
      let '(ok', map, d4) := influenceDeserialize d3 (mInfluence newCache) in
      let cache :=
        setInfluence (setFrameSign (setInnerMatrix newCache innerMtx) frameSign)
                     map in
      let s3 := store s2 a cache in
      if negb ok' then (false, s3, d4)
      else deserializeCaches count' s3 d4
  end.

(** [mData.deleteAll()] *)
Definition deleteAll (s : State) : State := withData s [].

Definition deserialize (s : State) (d : Deserializer)
  : option (bool * State * Deserializer) :=
  let s0 := destroyCaches (deleteAll s) in
  let d0 := pushLogScope d "BoneKey" in
  let '(topBoneCount, d1) := readInt d0 0%Z in
  if (topBoneCount <? 0)%Z
  then Some (false, s0, errored d1 "invalid top bone count")
  else
    match deserializeEach deserializeBone (Z.to_nat topBoneCount) [] d1 with
    | None => None
    | Some (ok, bones, d2) =>
      let s1 := withData s0 (mData s0 ++ bones) in
      if negb ok then Some (false, s1, d2)
      else
        let '(ok1, d3) := orderIDData d2 SolveOwner in
        if negb ok1
        then Some (false, s1, errored d3 "invalid cache owner reference id")
        else
          let '(cacheCount, d4) := readInt d3 0%Z in
          if (cacheCount <? 0)%Z
          then Some (false, s1, errored d4 "invalid cache count")
          else
            let '(ok2, s2, d5) :=
              deserializeCaches (Z.to_nat cacheCount) s1 d4 in
            if negb ok2 then Some (false, s2, d5)
            else
              let d6 := popLogScope d5 in
              Some (checkStream d6, s2, d6)
    end.

(** Modelled from the spec: the pass that runs after the whole project is
    loaded resolves every recorded id through the table of loaded objects
    and calls its solver with the node found, or with a null pointer for
    the null reference; an id the table does not know fails the load. *)
Definition runSolver (s : State) (solver : Solver) (node : option NodeId)
  : State :=
  match node with
  | None => s
  | Some n =>
    match solver with
    | SolveOwner => withOwner s (Some n)
    | SolveCacheNode a =>
      match heap s !! a with
      | Some c => store s a (setNode c n)
      | None => s
      end
    end
  end.

Fixpoint resolveOrders (nodeOf : Z → option (option NodeId))
  (orders : list (Z * Solver)) (s : State) : option State :=
  match orders with
  | [] => Some s
  | (id, solver) :: rest =>
    match nodeOf id with
    | None => None
    | Some node => resolveOrders nodeOf rest (runSolver s solver node)
    end
  end.


(** The node a cache is bound to, read through its pointer. *)
Definition nodeAt (h : gmap addr Cache) (a : addr) : option (option NodeId) :=
  mNode <$> h !! a.

(** ** Ownership of the caches *)

(** What C++ ownership gives: every [Cache*] of the collection is held
    once, points to a live object, and [new] returns an address no live
    object has. *)
Record wfState (s : State) : Prop := mkWf {
  wf_nodup : NoDup (mCaches s);
  wf_live : ∀ a, a ∈ mCaches s → is_Some (heap s !! a);
  wf_fresh : ∀ a, is_Some (heap s !! a) → a < nextAddr s;
}.

(** The nodes the caches of the collection are bound to, in order; a
    cache whose node is gone contributes nothing. *)
Definition boundNodes (s : State) : list NodeId :=
  omap (fun a => heap s !! a ≫= mNode) (mCaches s).

(** ** A small scene to run the operations on *)

(** An owner with a layer [1], a folder [2] and a layer [3] inside it. *)
Definition demoScene : ObjectNode :=
  ONode 0 [ONode 1 []; ONode 2 [ONode 3 []]].

(** Layers [1] and [3] have a mesh with vertices, the folder [2] has an
    empty mesh, everything else has none. *)
Definition demoMesh (n : NodeId) (t : TimeInfo) : option LayerMesh :=
  match n with
  | 1 => Some (mkLayerMesh (tiFrame t) 4%Z)
  | 2 => Some (mkLayerMesh (tiFrame t) 0%Z)
  | 3 => Some (mkLayerMesh (tiFrame t) 6%Z)
  | _ => None
  end.

Definition demoProject : Project :=
  {| currentTimeInfo := mkTimeInfo 100 60 0%Z;
     getAreaMesh := demoMesh;
     getRelativeMatrix := fun _ _ _ => identityMtx;
     getCenterOffset3D := fun _ => [0; 0; 0]%Z;
     negate := fun v => v;
     translate := fun m _ => m |}.

(** The same project after the mesh of every layer has been removed. *)
Definition strippedProject : Project :=
  {| currentTimeInfo := mkTimeInfo 100 60 0%Z;
     getAreaMesh := fun _ _ => None;
     getRelativeMatrix := fun _ _ _ => identityMtx;
     getCenterOffset3D := fun _ => [0; 0; 0]%Z;
     negate := fun v => v;
     translate := fun m _ => m |}.

(** [BoneKey::BoneKey()] at frame 5, nothing allocated yet. *)
Definition freshKey : State :=
  {| frame := 5%Z; mData := []; mCaches := []; mCacheOwner := None;
     heap := ∅; nextAddr := 0; trace := [] |}.

(** The targets of the asynchronous write requests in a trace. *)
Definition writeRequests (tr : list Event) : list addr :=
  omap (fun e => match e with
                 | EvWriteAsync a _ _ _ => Some a
                 | _ => None
                 end) tr.

(** The key of the small scene after its caches were built. *)
Definition demoKey : State :=
  match resetCaches demoProject freshKey demoScene with
  | Ok s => s
  | Abort _ => freshKey
  end.

(** Roots of interest: the folder [2], which is below the owner, and a
    node [9] that is not. *)
Definition demoRoots : list ObjectNode :=
  [ONode 2 [ONode 3 []]; ONode 9 []].

(** ** The stream layout, for stating what the codec does *)

Definition appendOut (o : Serializer) (l : list Item) : Serializer :=
  {| sOut := sOut o ++ l; sFailed := sFailed o; idOf := idOf o |}.

(** A bone record: child count, own fields, then the child records. *)
Fixpoint encodeBone (b : Bone2) : list Item :=
  match b with
  | Bone f cs =>
    IInt (toInt (Z.of_nat (length cs))) :: IBone f :: concat (map encodeBone cs)
  end.

Definition encodeBones (bs : list Bone2) : list Item :=
  concat (map encodeBone bs).

(** A cache record: node reference, inner matrix, frame sign, influence. *)
Definition encodeCache (ids : option NodeId → Z) (c : Cache) : list Item :=
  [IID (ids (mNode c)); IMatrix (mInnerMtx c); IFrame (mFrameSign c);
   IInfluence (mapVertexCount (mInfluence c)) (weights (mInfluence c))].

Definition encodeCaches (ids : option NodeId → Z) (cs : list Cache)
  : list Item :=
  concat (map (encodeCache ids) cs).

(** The caches of the collection, read through their pointers. *)
Definition cacheValues (s : State) : list Cache :=
  omap (fun a => heap s !! a) (mCaches s).

(** Nesting depth of a bone tree. *)
Fixpoint boneDepth (b : Bone2) : nat :=
  match b with
  | Bone _ cs => S (foldr Nat.max 0 (map boneDepth cs))
  end.

(** Every child count fits the 32-bit int it is written as. *)
Fixpoint fitsInt (b : Bone2) : Prop :=
  match b with
  | Bone _ cs =>
    (Z.of_nat (length cs) < 2 ^ 31)%Z ∧ foldr and True (map fitsInt cs)
  end.

(** What a decoded cache holds before its node reference is resolved. *)
Definition decodedCache (c : Cache) : Cache :=
  setInfluence
    (setFrameSign (setInnerMatrix newCache (mInnerMtx c)) (mFrameSign c))
    {| maxBoneCount := maxBoneCount (mInfluence newCache);
       mapVertexCount := mapVertexCount (mInfluence c);
       weights := weights (mInfluence c) |}.

(** The fields of a cache the stream carries. *)
Definition cacheRecord (c : Cache)
  : option NodeId * QMatrix4x4 * Frame * Z * list (list Z) :=
  (mNode c, mInnerMtx c, mFrameSign c,
   mapVertexCount (mInfluence c), weights (mInfluence c)).

(** The deferred requests the cache loop queues, first cache at [base]. *)
Fixpoint cacheOrders (ids : option NodeId → Z) (base : addr)
  (cs : list Cache) : list (Z * Solver) :=
  match cs with
  | [] => []
  | c :: rest =>
    (ids (mNode c), SolveCacheNode base) :: cacheOrders ids (S base) rest
  end.

Definition withOrders (d : Deserializer) (os : list (Z * Solver))
  : Deserializer :=
  {| dIn := dIn d; dFailed := dFailed d; dScopes := dScopes d;
     dLog := dLog d; dOrders := os |}.

(** The whole record of a BoneKey, as section 6 of the format lays it out. *)
Definition encodeState (ids : option NodeId → Z) (s : State) : list Item :=
  IInt (Z.of_nat (length (mData s))) :: encodeBones (mData s) ++
  IID (ids (mCacheOwner s)) :: IInt (Z.of_nat (length (mCaches s))) ::
  encodeCaches ids (cacheValues s).

(** A cache after the post-load pass has run its solver. *)
Definition resolvedCache (c : Cache) : Cache :=
  match mNode c with
  | Some n => setNode (decodedCache c) n
  | None => decodedCache c
  end.

(** A deserializer at the start of a stream. *)
Definition openStream (l : list Item) : Deserializer :=
  {| dIn := l; dFailed := false; dScopes := []; dLog := []; dOrders := [] |}.

(** A serializer at the start of a stream. *)
Definition newStream (ids : option NodeId → Z) : Serializer :=
  {| sOut := []; sFailed := false; idOf := ids |}.

(** A reference id table for the examples: [0] is the null reference, a
    node [n] has the id [n + 1]. *)
Definition demoIdOf (p : option NodeId) : Z :=
  match p with
  | None => 0%Z
  | Some n => (Z.of_nat n + 1)%Z
  end.

Definition demoNodeOf (id : Z) : option (option NodeId) :=
  if (id =? 0)%Z then Some None
  else if (0 <? id)%Z then Some (Some (Z.to_nat (id - 1)))
  else None.

(** The key of the small scene with a forest of two top bones. *)
Definition demoBoneKey : State :=
  withData demoKey
    [Bone [1; 2]%Z [Bone [3]%Z []; Bone [] [Bone [4]%Z []]]; Bone [7]%Z []].

(** A stream that breaks off inside its first top bone: one top bone with
    two children, the first child complete, the second with a negative
    child count. *)
Definition brokenStream : list Item :=
  [IInt 1; IInt 2; IBone [5]; IInt 0; IBone [6]; IInt (-3)]%Z.

(** The way from a top bone down to the bone whose child count is about
    to be read: at each level the fields of the parent, the child count it
    declared and the children decoded so far. *)
Inductive BonePath : Type :=
| PathEnd
| PathInto (f : BoneFields) (count : Z) (before : list Bone2) (p : BonePath).

(** The records read on the way. *)
Fixpoint pathPrefix (p : BonePath) : list Item :=
  match p with
  | PathEnd => []
  | PathInto f count before p' =>
    IInt count :: IBone f :: encodeBones before ++ pathPrefix p'
  end.

(** At every level there is still a child to read. *)
Fixpoint pathOk (p : BonePath) : Prop :=
  match p with
  | PathEnd => True
  | PathInto _ count before p' =>
    (Z.of_nat (length before) < count)%Z ∧ Forall fitsInt before ∧ pathOk p'
  end.

(** The bone under construction when the walk stops at the end of the
    path. *)
Fixpoint pathBone (p : BonePath) : Bone2 :=
  match p with
  | PathEnd => newBone
  | PathInto f _ before p' => Bone f (before ++ [pathBone p'])
  end.

(** [deserialize] gives up on the stream with [msg] logged under the
    scope "BoneKey". *)
Definition rejects (s : State) (d : Deserializer) (stream : list Item)
  (msg : string) : Prop :=
  ∃ s' d',
    deserialize s (withIn d stream) = Some (false, s', d') ∧
    dLog d' = dLog d ++ [(dScopes d ++ ["BoneKey"], msg)].

(** A well-formed stream with no bones and two cache records that carry
    the same node reference. *)
Definition twinStream : list Item :=
  [IInt 0; IID 0; IInt 2;
   IID 2; IMatrix identityMtx; IFrame 0; IInfluence 0 [];
   IID 2; IMatrix identityMtx; IFrame 0; IInfluence 0 []]%Z.

(** ** BoneKey::Data *)

(** Copying a Data value is about which bone objects the copy holds, so
    here a bone carries the address of its object. *)
Inductive BoneObj : Type :=
| BObj (self : addr) (fields : BoneFields) (kids : list BoneObj).

(** The bone tree an object stands for. *)
Fixpoint shape (b : BoneObj) : Bone2 :=
  match b with
  | BObj _ f ks => Bone f (map shape ks)
  end.

(** The addresses of the bone objects of a tree. *)
Fixpoint cells (b : BoneObj) : list addr :=
  match b with
  | BObj a _ ks => a :: concat (map cells ks)
  end.

Section CloneLoop.
Variable cloneOne : addr → BoneObj → BoneObj * addr.

Fixpoint cloneEach (brk : addr) (ks : list BoneObj) : list BoneObj * addr :=
  match ks with
  | [] => ([], brk)
  | k :: rest =>
    let '(k', brk1) := cloneOne brk k in
    let '(rest', brk2) := cloneEach brk1 rest in
    (k' :: rest', brk2)
  end.
End CloneLoop.

(** Modelled from the spec: [util::TreeUtil::createClone] (util/TreeUtil.h
    is not among the sources) produces a fully independent deep copy:
    every bone of the copy is a new object with the fields of the
    original.  [brk] is the address the next [new] returns. *)
Fixpoint createClone (brk : addr) (b : BoneObj) : BoneObj * addr :=
  match b with
  | BObj _ f ks =>
    let '(ks', brk') := cloneEach createClone (S brk) ks in
    (BObj brk f ks', brk')
  end.

(** The Data objects, each with its [mTopBones], and the next free bone
    address. *)
Record DataHeap : Type := mkDataHeap {
  datas : gmap addr (list BoneObj);
  boneBrk : addr;
}.

(** [d.topBones()] *)
Definition topBones (m : DataHeap) (d : addr) : list BoneObj :=
  default [] (datas m !! d).

(** [Data::deleteAll]: [qDeleteAll(mTopBones); mTopBones.clear();] *)
Definition dataDeleteAll (m : DataHeap) (this : addr) : DataHeap :=
  {| datas := <[this := []]> (datas m); boneBrk := boneBrk m |}.

(** [for (bone : bones) mTopBones.push_back(createClone(bone));] *)
Fixpoint pushClones (m : DataHeap) (this : addr) (bones : list BoneObj)
  : DataHeap :=
  match bones with
  | [] => m
  | b :: rest =>
    let '(b', brk') := createClone (boneBrk m) b in
    pushClones {| datas := <[this := topBones m this ++ [b']]> (datas m);
                  boneBrk := brk' |} this rest
  end.

(** [Data::operator=(const Data& aRhs)] on the object at [this], with
    [aRhs] the object at [rhs].  The loop reads [aRhs.topBones()] after
    [deleteAll()] has run. *)
Definition dataAssign (m : DataHeap) (this rhs : addr) : DataHeap :=
  let m1 := dataDeleteAll m this in
  pushClones m1 this (topBones m1 rhs).

(** [Data::Data(const Data& aRhs)] for a new object at [this]. *)
Definition dataCopy (m : DataHeap) (this rhs : addr) : DataHeap :=
  pushClones {| datas := <[this := []]> (datas m); boneBrk := boneBrk m |}
             this (topBones m rhs).

(** One Data object holding a bone with one child. *)
Definition demoData : DataHeap :=
  {| datas := {[ 0 := [BObj 0 [1]%Z [BObj 1 [2]%Z []]] ]}; boneBrk := 2 |}.

(** ** What one refresh leaves in a cache *)

(** The mesh of a node at the current time with the frame [fr] of the
    key. *)
Definition meshAt (P : Project) (fr : Frame) (n : NodeId) : option LayerMesh :=
  getAreaMesh P n (setFrame (currentTimeInfo P) fr).

(** The cache of node [n] after the loop body has run on it with mesh
    [mesh]. *)
Definition refreshOf (P : Project) (owner : NodeId) (fr : Frame)
  (n : NodeId) (mesh : LayerMesh) (c : Cache) : Cache :=
  if (vertexCount mesh <=? 0)%Z then setFrameSign c (frameSign mesh)
  else
    setInfluence
      (setInnerMatrix (setFrameSign c (frameSign mesh))
         (translate P
            (getRelativeMatrix P n (setFrame (currentTimeInfo P) fr) owner)
            (negate P (getCenterOffset3D P n))))
      (allocate (mInfluence c) (vertexCount mesh) false).

(** The same for any cache: nothing when it is unbound or has no mesh. *)
Definition refreshCache (P : Project) (owner : NodeId) (fr : Frame)
  (c : Cache) : option Cache :=
  match mNode c with
  | None => None
  | Some n =>
    match meshAt P fr n with
    | None => None
    | Some mesh => Some (refreshOf P owner fr n mesh c)
    end
  end.

(** The target is bound to a node whose mesh has vertices. *)
Definition targetHasVertices (P : Project) (s : State) (a : addr) : bool :=
  match heap s !! a ≫= mNode with
  | Some n => hasVertices P s n
  | None => false
  end.

Definition isWriteAsync (e : Event) : Prop :=
  match e with
  | EvWriteAsync _ _ _ _ => True
  | _ => False
  end.

(** ** Streams as a reader meets them *)

(** Every int record holds a value of a 32-bit int. *)
Definition int32Items (l : list Item) : Prop :=
  ∀ z, IInt z ∈ l → (- 2 ^ 31 ≤ z < 2 ^ 31)%Z.

(** The record of a cache whose node reference was written as [id]. *)
Definition cacheItems (id : Z) (c : Cache) : list Item :=
  [IID id; IMatrix (mInnerMtx c); IFrame (mFrameSign c);
   IInfluence (mapVertexCount (mInfluence c)) (weights (mInfluence c))].

(** How a step of the decoding may leave the log: the scopes are as
    before, at most one error was added, under the open scopes, and only
    when the step gave up. *)
Definition logStep (ok : bool) (d d' : Deserializer) : Prop :=
  dScopes d' = dScopes d ∧
  ∃ new, dLog d' = dLog d ++ new ∧ length new ≤ 1 ∧
         (ok = true → new = []) ∧
         ∀ e, e ∈ new → fst e = dScopes d.

(** The node a reference id stands for; nothing for the null reference
    and for an id the table does not know. *)
Definition resolvedNode (nodeOf : Z → option (option NodeId)) (id : Z)
  : option NodeId :=
  nodeOf id ≫= fun node => node.

(** Every bone object a Data object holds was allocated before the next
    free address. *)
Definition bonesAllocated (m : DataHeap) : Prop :=
  ∀ d a, a ∈ concat (map cells (topBones m d)) → a < boneBrk m.

(** * Properties *)

(** ** The core recompute keeps the shape of the state *)

Lemma refreshTarget_inv P o s a s' :
  refreshTarget P o s a = Ok s' →
  frame s' = frame s ∧ mData s' = mData s ∧ mCaches s' = mCaches s ∧
  mCacheOwner s' = mCacheOwner s ∧ nextAddr s' = nextAddr s ∧
  ∃ c c', heap s !! a = Some c ∧ heap s' = <[a := c']> (heap s) ∧
          mNode c' = mNode c.
Proof.
  unfold refreshTarget. intros H.
  destruct (heap s !! a) as [c|] eqn:Hc; [|done].
  destruct (mNode c) as [n|] eqn:Hn; [|done].
  destruct (getAreaMesh P n _) as [mesh|]; [|done].
  destruct (vertexCount mesh <=? 0)%Z; inversion H; subst; cbn;
    repeat split; eauto.
Qed.


Lemma refreshTarget_nodeAt P o s a s' b :
  refreshTarget P o s a = Ok s' → nodeAt (heap s') b = nodeAt (heap s) b.
Proof.
  intros H. apply refreshTarget_inv in H as (_ & _ & _ & _ & _ & c & c' & Hc & -> & Hn).
  unfold nodeAt. destruct (decide (a = b)) as [->|Hne].
  - rewrite lookup_insert_eq, Hc. cbn. by rewrite Hn.
  - by rewrite lookup_insert_ne.
Qed.

Lemma refreshTargets_inv P o targets : ∀ s s',
  refreshTargets P o s targets = Ok s' →
  frame s' = frame s ∧ mData s' = mData s ∧ mCaches s' = mCaches s ∧
  mCacheOwner s' = mCacheOwner s ∧ nextAddr s' = nextAddr s ∧
  dom (heap s') = dom (heap s) ∧
  (∀ b, nodeAt (heap s') b = nodeAt (heap s) b) ∧
  (∀ b, b ∉ targets → heap s' !! b = heap s !! b).
Proof.
  induction targets as [|a rest IH]; intros s s' H; cbn in H.
  { inversion H; subst. split_and!; done. }
  destruct (refreshTarget P o s a) as [s1|] eqn:H1; [|done]. cbn in H.
  pose proof (fun b => refreshTarget_nodeAt _ _ _ _ _ b H1) as Hnode.
  apply refreshTarget_inv in H1 as (E1 & E2 & E3 & E4 & E5 & c & c' & Hc & Hh & _).
  apply IH in H as (F1 & F2 & F3 & F4 & F5 & F6 & F7 & F8).
  split_and!; try congruence.
  - rewrite F6, Hh, dom_insert_L.
    apply subseteq_union_1_L, singleton_subseteq_l, elem_of_dom. eauto.
  - intros b Hb. apply not_elem_of_cons in Hb as [Hne Hb].
    rewrite (F8 b Hb), Hh. by rewrite lookup_insert_ne.
Qed.

(** A target whose node has no mesh stops the whole batch. *)
Lemma refreshTargets_absent_mesh P o targets : ∀ s a n,
  a ∈ targets →
  nodeAt (heap s) a = Some (Some n) →
  getAreaMesh P n (setFrame (currentTimeInfo P) (frame s)) = None →
  ∃ f, refreshTargets P o s targets = Abort f.
Proof.
  induction targets as [|b rest IH]; intros s a n Hin Hnode Hmesh.
  - by apply elem_of_nil in Hin.
  - cbn. destruct (refreshTarget P o s b) as [s1|f] eqn:H1; [|by eexists].
    cbn. destruct (decide (a = b)) as [->|Hne].
    + exfalso. unfold refreshTarget, nodeAt in *.
      destruct (heap s !! b) as [c|]; [|done]. cbn in Hnode.
      injection Hnode as Hn. rewrite Hn, Hmesh in H1. done.
    + apply elem_of_cons in Hin as [?|Hin]; [done|].
      apply (IH s1 a n Hin).
      * by rewrite (refreshTarget_nodeAt _ _ _ _ _ a H1).
      * apply refreshTarget_inv in H1 as (-> & _). done.
Qed.

Lemma updateCaches_absent_mesh P s targets a n :
  a ∈ targets →
  nodeAt (heap s) a = Some (Some n) →
  getAreaMesh P n (setFrame (currentTimeInfo P) (frame s)) = None →
  ∃ f, updateCaches P s targets = Abort f.
Proof.
  intros Hin Hnode Hmesh. unfold updateCaches.
  destruct targets as [|t ts]; [by apply elem_of_nil in Hin|].
  destruct (mCacheOwner s) as [o|]; [|by eexists].
  destruct (refreshTargets_absent_mesh P o (t :: ts) (emit EvLockForWrite s) a n)
    as [f Hf]; try done.
  rewrite Hf. by eexists.
Qed.


Lemma boundTo_nodeAt h n a :
  boundTo h n a = true ↔ nodeAt h a = Some (Some n).
Proof.
  unfold boundTo, nodeAt. destruct (h !! a) as [c|]; cbn; [|done].
  rewrite bool_decide_eq_true. split; congruence.
Qed.

Lemma popFrom_Some h n : ∀ l a l',
  popFrom h n l = Some (a, l') →
  boundTo h n a = true ∧
  ∃ l1 l2, l = l1 ++ a :: l2 ∧ l' = l1 ++ l2 ∧
           ∀ b, b ∈ l1 → boundTo h n b = false.
Proof.
  induction l as [|x l IH]; intros a l' H; cbn in H; [done|].
  destruct (boundTo h n x) eqn:Hx.
  - inversion H; subst. split; [done|]. exists [], l'. split_and!; try done.
    intros b Hb. by apply elem_of_nil in Hb.
  - destruct (popFrom h n l) as [[c r]|] eqn:Hp; [|done].
    inversion H; subst. destruct (IH _ _ eq_refl) as (Hb & l1 & l2 & -> & -> & Hl1).
    split; [done|]. exists (x :: l1), l2. split_and!; try done.
    intros b Hin. apply elem_of_cons in Hin as [->|Hin]; auto.
Qed.

Lemma popFrom_None h n : ∀ l,
  popFrom h n l = None → ∀ a, a ∈ l → boundTo h n a = false.
Proof.
  induction l as [|x l IH]; intros H a Hin; cbn in H.
  - by apply elem_of_nil in Hin.
  - destruct (boundTo h n x) eqn:Hx; [done|].
    destruct (popFrom h n l) as [[c r]|] eqn:Hp; [done|].
    apply elem_of_cons in Hin as [->|Hin]; auto.
Qed.

Lemma popFrom_perm h n l a l' :
  popFrom h n l = Some (a, l') → l ≡ₚ a :: l'.
Proof.
  intros H. apply popFrom_Some in H as (_ & l1 & l2 & -> & -> & _).
  by rewrite Permutation_middle.
Qed.

Lemma hasVertices_frame P s s' n :
  frame s' = frame s → hasVertices P s' n = hasVertices P s n.
Proof. unfold hasVertices. by intros ->. Qed.

(** The loop of [resetCaches]: the caches it hands over are bound, in
    order, to the visited nodes that have vertices; the old collection
    and the new list stay disjoint and live. *)
Lemma collectValid_spec P : ∀ nodes s acc s' acc',
  collectValid P s nodes acc = (s', acc') →
  NoDup (mCaches s ++ acc) →
  (∀ a, a ∈ mCaches s ++ acc → is_Some (heap s !! a)) →
  (∀ a, is_Some (heap s !! a) → a < nextAddr s) →
  NoDup (mCaches s' ++ acc') ∧
  (∀ a, a ∈ mCaches s' ++ acc' → is_Some (heap s' !! a)) ∧
  (∀ a, is_Some (heap s' !! a) → a < nextAddr s') ∧
  frame s' = frame s ∧ mData s' = mData s ∧ trace s' = trace s ∧
  (∀ a, is_Some (heap s !! a) → heap s' !! a = heap s !! a) ∧
  ∃ new, acc' = acc ++ new ∧
         map (nodeAt (heap s')) new =
         map (fun n => Some (Some n))
             (filter (fun n => hasVertices P s n = true) nodes).
Proof.
  induction nodes as [|n rest IH]; intros s acc s' acc' H Hnd Hlive Hfresh.
  { cbn in H. inversion H; subst. split_and!; try done.
    exists []. by rewrite app_nil_r. }
  cbn in H. rewrite filter_cons.
  destruct (hasVertices P s n) eqn:Hv; cbn in H.
  2:{ rewrite decide_False by done. by apply IH. }
  rewrite decide_True by done.
  unfold popCache in H.
  destruct (popFrom (heap s) n (mCaches s)) as [[a l]|] eqn:Hp.
  - (* an old cache is reused *)
    pose proof (popFrom_perm _ _ _ _ _ Hp) as Hperm.
    apply popFrom_Some in Hp as (Hb & _).
    apply IH in H as (R1 & R2 & R3 & R4 & R5 & R6 & R7 & new & -> & Hnew); cbn.
    + split_and!; try done.
      exists (a :: new). split; [by rewrite <- app_assoc|].
      cbn. f_equal.
      * apply boundTo_nodeAt in Hb. unfold nodeAt in *.
        rewrite R7; [done|]. cbn. destruct (heap s !! a); [eauto|done].
      * exact Hnew.
    + rewrite (assoc_L (++)), <- Permutation_cons_append, app_comm_cons.
      by rewrite <- Hperm.
    + intros b Hin. apply Hlive.
      rewrite (assoc_L (++)), <- Permutation_cons_append, app_comm_cons in Hin.
      by rewrite Hperm.
    + done.
  - (* a new cache is created *)
    cbn in H.
    assert (Hnew : heap s !! nextAddr s = None).
    { destruct (heap s !! nextAddr s) eqn:E; [|done].
      assert (nextAddr s < nextAddr s) by (apply Hfresh; eauto). lia. }
    apply IH in H as (R1 & R2 & R3 & R4 & R5 & R6 & R7 & new & -> & Hn); cbn in *.
    + split_and!; try done.
      * intros a Ha. rewrite R7.
        -- apply lookup_insert_ne. intros <-. rewrite Hnew in Ha. by destruct Ha.
        -- rewrite lookup_insert_ne; [done|]. intros <-. rewrite Hnew in Ha. by destruct Ha.
      * exists (nextAddr s :: new). split; [by rewrite <- app_assoc|].
        cbn. f_equal; [|done].
        unfold nodeAt. rewrite R7; rewrite lookup_insert_eq; [done|eauto].
    + rewrite (assoc_L (++)), <- Permutation_cons_append. constructor; [|done].
      intros Hin. apply Hlive in Hin. rewrite Hnew in Hin. by destruct Hin.
    + intros b Hin.
      rewrite (assoc_L (++)), <- Permutation_cons_append in Hin.
      apply elem_of_cons in Hin as [->|Hin].
      * rewrite lookup_insert_eq. eauto.
      * destruct (decide (nextAddr s = b)) as [->|Hne].
        -- rewrite lookup_insert_eq. eauto.
        -- rewrite lookup_insert_ne by done. by apply Hlive.
    + intros b Hb. destruct (decide (nextAddr s = b)) as [<-|Hne]; [lia|].
      rewrite lookup_insert_ne in Hb by done. apply Hfresh in Hb. lia.
Qed.

Lemma lookup_foldr_delete_notin (h : gmap addr Cache) (l : list addr) a :
  a ∉ l → foldr delete h l !! a = h !! a.
Proof.
  induction l as [|x l IH]; intros Hin; cbn; [done|].
  apply not_elem_of_cons in Hin as [Hne Hin].
  rewrite lookup_delete_ne by done. auto.
Qed.

Lemma lookup_foldr_delete_Some (h : gmap addr Cache) (l : list addr) a :
  is_Some (foldr delete h l !! a) → is_Some (h !! a).
Proof.
  induction l as [|x l IH]; cbn; [done|].
  destruct (decide (x = a)) as [->|Hne].
  - rewrite lookup_delete_eq. by intros [? ?].
  - by rewrite lookup_delete_ne.
Qed.

(** The batch runs to its end when every target is bound to a node that
    has a mesh. *)
Lemma refreshTargets_ok P o targets : ∀ s,
  (∀ a, a ∈ targets →
        ∃ n, nodeAt (heap s) a = Some (Some n) ∧
             is_Some (getAreaMesh P n (setFrame (currentTimeInfo P) (frame s)))) →
  ∃ s', refreshTargets P o s targets = Ok s'.
Proof.
  induction targets as [|a rest IH]; intros s H; cbn; [by eexists|].
  destruct (H a) as (n & Hn & [mesh Hm]); [by left|].
  assert (∃ s1, refreshTarget P o s a = Ok s1) as [s1 H1].
  { unfold refreshTarget, nodeAt in *.
    destruct (heap s !! a) as [c|]; [|done]. cbn in Hn.
    injection Hn as ->. rewrite Hm.
    destruct (vertexCount mesh <=? 0)%Z; by eexists. }
  rewrite H1. cbn. apply IH. intros b Hb.
  destruct (H b) as (m & Hbm & Hmesh); [by right|].
  exists m. rewrite (refreshTarget_nodeAt _ _ _ _ _ b H1).
  apply refreshTarget_inv in H1 as (-> & _). done.
Qed.

Lemma hasVertices_mesh P s n :
  hasVertices P s n = true ↔
  ∃ mesh, getAreaMesh P n (setFrame (currentTimeInfo P) (frame s)) = Some mesh ∧
          (0 < vertexCount mesh)%Z.
Proof.
  unfold hasVertices.
  destruct (getAreaMesh P n _) as [mesh|].
  - rewrite negb_true_iff, Z.leb_gt. split.
    + intros. by exists mesh.
    + intros (m & [= ->] & ?). done.
  - split; [done|]. by intros (m & ? & ?).
Qed.

Lemma elem_of_map_nodeAt h (l : list addr) (ns : list NodeId) a :
  map (nodeAt h) l = map (fun n => Some (Some n)) ns →
  a ∈ l → ∃ n, n ∈ ns ∧ nodeAt h a = Some (Some n).
Proof.
  revert ns. induction l as [|x l IH]; intros ns Hmap Hin.
  - by apply elem_of_nil in Hin.
  - destruct ns as [|n ns]; [done|]. cbn in Hmap. injection Hmap as Hx Hl.
    apply elem_of_cons in Hin as [->|Hin].
    + exists n. split; [by left|done].
    + destruct (IH ns Hl Hin) as (m & ? & ?). exists m. split; [by right|done].
Qed.

Lemma boundNodes_map s (ns : list NodeId) :
  map (nodeAt (heap s)) (mCaches s) = map (fun n => Some (Some n)) ns →
  boundNodes s = ns.
Proof.
  unfold boundNodes. generalize (mCaches s). intros l. revert ns.
  induction l as [|x l IH]; intros [|n ns] Hmap; try done.
  cbn in Hmap. injection Hmap as Hx Hl. cbn.
  unfold nodeAt in Hx. destruct (heap s !! x) as [c|]; [|done].
  cbn in *. injection Hx as ->. cbn. f_equal. by apply IH.
Qed.

(** What [resetCaches] leaves behind. *)
Lemma resetCaches_spec P s aOwner :
  wfState s →
  ∃ s', resetCaches P s aOwner = Ok s' ∧
        wfState s' ∧
        frame s' = frame s ∧ mData s' = mData s ∧
        mCacheOwner s' = Some (nodeId aOwner) ∧
        map (nodeAt (heap s')) (mCaches s') =
        map (fun n => Some (Some n))
            (filter (fun n => hasVertices P s n = true) (iterate aOwner)).
Proof.
  intros [Hnd Hlive Hfresh]. unfold resetCaches.
  destruct (collectValid P s (iterate aOwner) []) as [s1 new] eqn:Hc.
  apply collectValid_spec in Hc
    as (R1 & R2 & R3 & R4 & R5 & R6 & R7 & new' & E & Hmap);
    rewrite ?app_nil_r; try done.
  cbn in E. subst new'.
  apply NoDup_app in R1 as (N1 & Ndisj & N2).
  set (s4 := withOwner _ _).
  assert (Hheap4 : ∀ a, a ∈ new → heap s4 !! a = heap s1 !! a).
  { intros a Ha. cbn. apply lookup_foldr_delete_notin.
    intros Hin. by apply (Ndisj a). }
  assert (Hmap4 : map (nodeAt (heap s4)) new =
                  map (fun n => Some (Some n))
                      (filter (fun n => hasVertices P s n = true) (iterate aOwner))).
  { rewrite <- Hmap. apply map_ext_in. intros a Ha.
    unfold nodeAt. rewrite Hheap4; [done|]. by apply list_elem_of_In. }
  change (mCaches s4) with new.
  assert (∃ s5, updateCaches P s4 new = Ok s5) as [s5 H5].
  { unfold updateCaches. destruct new as [|a0 new0] eqn:En; [by eexists|].
    rewrite <- En in *. change (mCacheOwner s4) with (Some (nodeId aOwner)).
    destruct (refreshTargets_ok P (nodeId aOwner) new (emit EvLockForWrite s4))
      as [s5 H5].
    - intros a Ha. destruct (elem_of_map_nodeAt _ _ _ _ Hmap4 Ha) as (n & Hn & Hna).
      exists n. split; [done|].
      apply list_elem_of_filter in Hn as [Hv _].
      apply hasVertices_mesh in Hv as (mesh & Hm & _).
      change (frame (emit EvLockForWrite s4)) with (frame s1).
      rewrite R4, Hm. eauto.
    - rewrite H5. by eexists. }
  exists s5. split; [done|].
  assert (frame s5 = frame s4 ∧ mData s5 = mData s4 ∧ mCaches s5 = mCaches s4 ∧
          mCacheOwner s5 = mCacheOwner s4 ∧ nextAddr s5 = nextAddr s4 ∧
          dom (heap s5) = dom (heap s4) ∧
          (∀ b, nodeAt (heap s5) b = nodeAt (heap s4) b))
    as (F1 & F2 & F3 & F4 & F5 & F6 & F7).
  { unfold updateCaches in H5. destruct new as [|a0 new0]; [by inversion H5|].
    change (mCacheOwner s4) with (Some (nodeId aOwner)) in H5.
    cbv beta iota in H5.
    destruct (refreshTargets P (nodeId aOwner) (emit EvLockForWrite s4) (a0 :: new0))
      as [s6|] eqn:H6; [|done].
    cbn in H5. inversion H5; subst s5.
    apply refreshTargets_inv in H6 as (G1 & G2 & G3 & G4 & G5 & G6 & G7 & _).
    split_and!; done. }
  split_and!.
  - split.
    + by rewrite F3.
    + intros a Ha. rewrite F3 in Ha. change (mCaches s4) with new in Ha.
      apply elem_of_dom. rewrite F6. apply elem_of_dom.
      rewrite Hheap4 by done. apply R2. by apply elem_of_app; right.
    + intros a Ha. apply elem_of_dom in Ha. rewrite F6 in Ha.
      apply elem_of_dom in Ha. rewrite F5. cbn in Ha |- *.
      apply lookup_foldr_delete_Some in Ha. by apply R3.
  - by rewrite F1.
  - by rewrite F2.
  - by rewrite F4.
  - rewrite F3. change (mCaches s4) with new. rewrite <- Hmap4.
    apply map_ext. intros a. apply F7.
Qed.

Lemma updateCaches_inv P s targets s' :
  updateCaches P s targets = Ok s' →
  frame s' = frame s ∧ mData s' = mData s ∧ mCaches s' = mCaches s ∧
  mCacheOwner s' = mCacheOwner s ∧ nextAddr s' = nextAddr s ∧
  dom (heap s') = dom (heap s) ∧
  (∀ b, nodeAt (heap s') b = nodeAt (heap s) b) ∧
  (∀ b, b ∉ targets → heap s' !! b = heap s !! b).
Proof.
  unfold updateCaches. intros H.
  destruct targets as [|a rest]; [by inversion H|].
  destruct (mCacheOwner s) as [o|] eqn:Ho; [|done].
  destruct (refreshTargets P o (emit EvLockForWrite s) (a :: rest))
    as [s1|] eqn:H1; [|done].
  cbn in H. inversion H; subst s'.
  apply refreshTargets_inv in H1 as (G1 & G2 & G3 & G4 & G5 & G6 & G7 & G8).
  cbn in *. split_and!; try done. congruence.
Qed.

Lemma nodeAt_map_elem h (l : list addr) (ns : list NodeId) n :
  map (nodeAt h) l = map (fun n => Some (Some n)) ns →
  n ∈ ns → ∃ a, a ∈ l ∧ nodeAt h a = Some (Some n).
Proof.
  revert ns. induction l as [|x l IH]; intros [|m ns] Hmap Hin; try done.
  - by apply elem_of_nil in Hin.
  - cbn in Hmap. injection Hmap as Hx Hl.
    apply elem_of_cons in Hin as [->|Hin].
    + exists x. split; [by left|done].
    + destruct (IH ns Hl Hin) as (a & ? & ?). exists a. split; [by right|done].
Qed.

(** When the collection already holds, in order, one cache for each node
    with vertices, the loop of [resetCaches] pops every one of them and
    creates nothing. *)
Lemma collectValid_reuse P : ∀ nodes s acc,
  map (nodeAt (heap s)) (mCaches s) =
  map (fun n => Some (Some n))
      (filter (fun n => hasVertices P s n = true) nodes) →
  collectValid P s nodes acc = (withCaches s [], acc ++ mCaches s).
Proof.
  induction nodes as [|n rest IH]; intros s acc Hmap.
  { cbn in *. destruct s as [f d cs o h nx tr]; cbn in *.
    destruct cs; [|done]. by rewrite app_nil_r. }
  cbn. rewrite filter_cons in Hmap.
  destruct (hasVertices P s n) eqn:Hv; cbn.
  2:{ rewrite decide_False in Hmap by done. by apply IH. }
  rewrite decide_True in Hmap by done.
  destruct (mCaches s) as [|a l] eqn:Hl; [done|].
  cbn in Hmap. injection Hmap as Ha Hrest.
  unfold popCache. rewrite Hl. cbn.
  rewrite (proj2 (boundTo_nodeAt _ _ _) Ha).
  rewrite (IH (withCaches s l) (acc ++ [a])); [|exact Hrest].
  cbn. by rewrite <- app_assoc.
Qed.

Lemma freshKey_wf : wfState freshKey.
Proof.
  split; cbn.
  - constructor.
  - intros a Ha. by apply elem_of_nil in Ha.
  - intros a [c Hc]. by rewrite lookup_empty in Hc.
Qed.

(** ** The core recompute: empty batch, absent mesh *)

(** C10: the core recompute called with an empty target list returns at
    once and leaves the whole state as it was: no owner is asked for, no
    lock is taken, no cache and no owner reference is written, the workers
    are not woken. *)
Theorem updateCaches_empty_noop (P : Project) (s : State) :
  updateCaches P s [] = Ok s.
Proof. reflexivity. Qed.

(** C1 (the code fails here): a cache made by [resetCaches] while its
    layer had a mesh is handed to the core recompute after the mesh is
    gone; the call stops at the read of [mesh->frameSign()] through the
    null pointer instead of skipping the target. *)
Theorem updateCaches_absent_mesh_faults :
  ∃ s, resetCaches demoProject freshKey demoScene = Ok s ∧
       mCaches s = [0; 1] ∧
       nodeAt (heap s) 0 = Some (Some 1) ∧
       getAreaMesh strippedProject 1
         (setFrame (currentTimeInfo strippedProject) (frame s)) = None ∧
       updateCaches strippedProject s (mCaches s) =
         Abort (NullDeref "mesh->frameSign()").
Proof.
  eexists. split; [vm_compute; reflexivity|]. by vm_compute.
Qed.

(** ** resetCaches: pruning and reuse *)

(** C3: after [resetCaches] returns, a node of the subtree below the
    owner has a cache in the collection exactly when it has, at the current
    time with the frame of this key, a mesh with more than zero vertices. *)
Theorem resetCaches_prunes (P : Project) (s : State) (aOwner : ObjectNode) :
  wfState s →
  ∃ s', resetCaches P s aOwner = Ok s' ∧
        ∀ n, n ∈ iterate aOwner →
             (∃ a, a ∈ mCaches s' ∧ nodeAt (heap s') a = Some (Some n)) ↔
             (∃ mesh,
                 getAreaMesh P n (setFrame (currentTimeInfo P) (frame s'))
                 = Some mesh ∧ (0 < vertexCount mesh)%Z).
Proof.
  intros Hwf.
  destruct (resetCaches_spec P s aOwner Hwf)
    as (s' & Hrun & _ & Hframe & _ & _ & Hmap).
  exists s'. split; [done|]. intros n Hn.
  rewrite <- (hasVertices_mesh P s' n), (hasVertices_frame P s s' n Hframe).
  split.
  - intros (a & Ha & Hnode).
    destruct (elem_of_map_nodeAt _ _ _ _ Hmap Ha) as (m & Hm & Hnode').
    rewrite Hnode in Hnode'. injection Hnode' as <-.
    by apply list_elem_of_filter in Hm as [? _].
  - intros Hv. apply (nodeAt_map_elem _ _ _ _ Hmap).
    by apply list_elem_of_filter.
Qed.

Lemma resetCaches_prunes_witness :
  wfState freshKey ∧
  ∃ s', resetCaches demoProject freshKey demoScene = Ok s' ∧
        ∀ n, n ∈ iterate demoScene →
             (∃ a, a ∈ mCaches s' ∧ nodeAt (heap s') a = Some (Some n)) ↔
             (∃ mesh,
                 getAreaMesh demoProject n
                   (setFrame (currentTimeInfo demoProject) (frame s'))
                 = Some mesh ∧ (0 < vertexCount mesh)%Z).
Proof.
  split; [exact freshKey_wf|].
  exact (resetCaches_prunes demoProject freshKey demoScene freshKey_wf).
Defined.

(** C4: a second [resetCaches] with the same owner on an unchanged
    project keeps the very same cache objects: the collection holds the
    same pointers in the same order, nothing was allocated and nothing was
    deleted in between, so every cache a node holds afterwards is the
    object it held before. *)
Theorem resetCaches_twice_reuses (P : Project) (s : State) (aOwner : ObjectNode) :
  wfState s →
  ∃ s1 s2, resetCaches P s aOwner = Ok s1 ∧
           resetCaches P s1 aOwner = Ok s2 ∧
           mCaches s2 = mCaches s1 ∧
           nextAddr s2 = nextAddr s1 ∧
           dom (heap s2) = dom (heap s1) ∧
           ∀ a n, a ∈ mCaches s2 → nodeAt (heap s2) a = Some (Some n) →
                  a ∈ mCaches s1 ∧ nodeAt (heap s1) a = Some (Some n).
Proof.
  intros Hwf.
  destruct (resetCaches_spec P s aOwner Hwf)
    as (s1 & Hrun1 & Hwf1 & Hframe & _ & _ & Hmap).
  destruct (resetCaches_spec P s1 aOwner Hwf1) as (s2 & Hrun2 & _).
  exists s1, s2. split; [done|]. split; [done|].
  assert (Hre : collectValid P s1 (iterate aOwner) [] =
                (withCaches s1 [], [] ++ mCaches s1)).
  { apply collectValid_reuse. rewrite Hmap.
    apply (f_equal (map _)), list_filter_iff. intros n.
    by rewrite (hasVertices_frame P s s1 n Hframe). }
  unfold resetCaches in Hrun2. rewrite Hre in Hrun2. cbn in Hrun2.
  apply updateCaches_inv in Hrun2 as (_ & _ & E3 & _ & E5 & E6 & E7 & _).
  cbn in *. split_and!; try done.
  intros a n Ha Hn. rewrite E3 in Ha. by rewrite <- E7.
Qed.

Lemma resetCaches_twice_reuses_witness :
  wfState freshKey ∧
  ∃ s1 s2, resetCaches demoProject freshKey demoScene = Ok s1 ∧
           resetCaches demoProject s1 demoScene = Ok s2 ∧
           mCaches s2 = mCaches s1 ∧
           nextAddr s2 = nextAddr s1 ∧
           dom (heap s2) = dom (heap s1) ∧
           ∀ a n, a ∈ mCaches s2 → nodeAt (heap s2) a = Some (Some n) →
                  a ∈ mCaches s1 ∧ nodeAt (heap s1) a = Some (Some n).
Proof.
  split; [exact freshKey_wf|].
  exact (resetCaches_twice_reuses demoProject freshKey demoScene freshKey_wf).
Defined.

(** ** The targeted update stays inside its roots *)

Lemma findIn_Some h n : ∀ l a,
  findIn h n l = Some a → a ∈ l ∧ nodeAt h a = Some (Some n).
Proof.
  induction l as [|x l IH]; intros a H; cbn in H; [done|].
  destruct (boundTo h n x) eqn:Hx.
  - inversion H; subst. split; [by left|]. by apply boundTo_nodeAt.
  - destruct (IH a H). split; [by right|done].
Qed.

Lemma collectExisting_spec s : ∀ nodes caches,
  NoDup caches →
  NoDup (collectExisting s nodes caches) ∧
  ∀ a, a ∈ collectExisting s nodes caches →
       a ∈ caches ∨
       (a ∈ mCaches s ∧ ∃ n, n ∈ nodes ∧ nodeAt (heap s) a = Some (Some n)).
Proof.
  induction nodes as [|n rest IH]; intros caches Hnd; cbn.
  { split; [done|]. by left. }
  assert (Hrest : ∀ (cs : list addr) a,
            (a ∈ cs ∨ a ∈ mCaches s ∧
               ∃ m, m ∈ rest ∧ nodeAt (heap s) a = Some (Some m)) →
            a ∈ cs ∨ a ∈ mCaches s ∧
               ∃ m, m ∈ n :: rest ∧ nodeAt (heap s) a = Some (Some m)).
  { intros cs a [?|(? & m & ? & ?)]; [by left|].
    right. split; [done|]. exists m. split; [by right|done]. }
  destruct (findCache s n) as [c|] eqn:Hf.
  - apply findIn_Some in Hf as [Hin Hnode].
    case_bool_decide as Hc.
    + destruct (IH caches Hnd) as [N H]. split; [done|]. intros a Ha. eauto.
    + destruct (IH (caches ++ [c])) as [N H].
      { rewrite <- Permutation_cons_append. by constructor. }
      split; [done|]. intros a Ha.
      destruct (H a Ha) as [Hin'|Hr]; [|by apply Hrest; right].
      apply elem_of_app in Hin' as [?|Hc']; [by left|].
      apply list_elem_of_singleton in Hc' as ->.
      right. split; [done|]. exists n. split; [by left|done].
  - destruct (IH caches Hnd) as [N H]. split; [done|]. intros a Ha. eauto.
Qed.

Lemma collectRoots_spec s aOwner : ∀ roots caches,
  NoDup caches →
  NoDup (collectRoots s aOwner roots caches) ∧
  ∀ a, a ∈ collectRoots s aOwner roots caches →
       a ∈ caches ∨
       (a ∈ mCaches s ∧
        ∃ root n, root ∈ roots ∧ leftContainsRight aOwner root = true ∧
                  n ∈ iterate root ∧ nodeAt (heap s) a = Some (Some n)).
Proof.
  induction roots as [|root rest IH]; intros caches Hnd; cbn.
  { split; [done|]. by left. }
  assert (Hrest : ∀ a,
            (a ∈ mCaches s ∧
             ∃ r n, r ∈ rest ∧ leftContainsRight aOwner r = true ∧
                    n ∈ iterate r ∧ nodeAt (heap s) a = Some (Some n)) →
            a ∈ mCaches s ∧
             ∃ r n, r ∈ root :: rest ∧ leftContainsRight aOwner r = true ∧
                    n ∈ iterate r ∧ nodeAt (heap s) a = Some (Some n)).
  { intros a (? & r & n & ? & ? & ? & ?). split; [done|].
    exists r, n. split_and!; try done. by right. }
  destruct (leftContainsRight aOwner root) eqn:Hl; cbn.
  - destruct (collectExisting_spec s (iterate root) caches Hnd) as [N1 H1].
    destruct (IH _ N1) as [N H]. split; [done|]. intros a Ha.
    destruct (H a Ha) as [Hin|Hr]; [|by right; apply Hrest].
    destruct (H1 a Hin) as [?|(? & n & ? & ?)]; [by left|].
    right. split; [done|]. exists root, n. split_and!; try done. by left.
  - destruct (IH caches Hnd) as [N H]. split; [done|]. intros a Ha.
    destruct (H a Ha) as [?|Hr]; [by left|by right; apply Hrest].
Qed.

Lemma refreshTargets_trace P o targets : ∀ s s',
  refreshTargets P o s targets = Ok s' →
  ∃ evs, trace s' = trace s ++ evs ∧
         ∀ a, a ∈ writeRequests evs → a ∈ targets.
Proof.
  induction targets as [|t rest IH]; intros s s' H; cbn in H.
  { inversion H; subst. exists []. split; [by rewrite app_nil_r|].
    intros a Ha. by apply elem_of_nil in Ha. }
  destruct (refreshTarget P o s t) as [s1|] eqn:H1; [|done]. cbn in H.
  apply IH in H as (evs & Htr & Hev).
  assert (∃ e1, trace s1 = trace s ++ e1 ∧ ∀ a, a ∈ writeRequests e1 → a = t)
    as (e1 & Ht1 & He1).
  { unfold refreshTarget in H1.
    destruct (heap s !! t) as [c|]; [|done].
    destruct (mNode c) as [n|]; [|done].
    destruct (getAreaMesh P n _) as [mesh|]; [|done].
    destruct (vertexCount mesh <=? 0)%Z; inversion H1; subst; cbn.
    - exists []. split; [by rewrite app_nil_r|].
      intros a Ha. by apply elem_of_nil in Ha.
    - eexists [_]. split; [done|]. cbn. intros a Ha.
      by apply list_elem_of_singleton in Ha. }
  exists (e1 ++ evs). split; [by rewrite Htr, Ht1, app_assoc|].
  intros a Ha. unfold writeRequests in Ha. rewrite omap_app in Ha.
  apply elem_of_app in Ha as [Ha|Ha].
  - apply elem_of_cons. left. by apply He1.
  - apply elem_of_cons. right. by apply Hev.
Qed.

Lemma updateCaches_trace P s targets s' :
  updateCaches P s targets = Ok s' →
  ∃ evs, trace s' = trace s ++ evs ∧
         ∀ a, a ∈ writeRequests evs → a ∈ targets.
Proof.
  unfold updateCaches. intros H.
  destruct targets as [|t rest].
  { inversion H; subst. exists []. split; [by rewrite app_nil_r|].
    intros a Ha. by apply elem_of_nil in Ha. }
  destruct (mCacheOwner s) as [o|]; [|done].
  destruct (refreshTargets P o (emit EvLockForWrite s) (t :: rest))
    as [s1|] eqn:H1; [|done].
  cbn in H. inversion H; subst s'.
  apply refreshTargets_trace in H1 as (evs & Htr & Hev). cbn in *.
  exists ([EvLockForWrite] ++ evs ++ [EvWakeAll] ++ [EvUnlock]).
  split; [rewrite Htr; by rewrite <- !app_assoc|].
  intros a Ha. unfold writeRequests in Ha.
  rewrite !omap_app in Ha. cbn in Ha. rewrite app_nil_r in Ha. by apply Hev.
Qed.

(** C5: the targeted update collects, without duplicates, only caches
    that are already in the collection and are bound to a node below a
    root that is the owner or lies below it; it creates no cache; a cache
    that was not collected, and so the cache of every node outside all
    such roots, keeps its contents and gets no write request. *)
Theorem updateCachesUnder_scoped (P : Project) (s : State)
  (aOwner : ObjectNode) (roots : list ObjectNode) (s' : State) :
  updateCachesUnder P s aOwner roots = Ok s' →
  let targets := collectRoots s aOwner roots [] in
  NoDup targets ∧
  (∀ a, a ∈ targets →
        a ∈ mCaches s ∧
        ∃ root n, root ∈ roots ∧ leftContainsRight aOwner root = true ∧
                  n ∈ iterate root ∧ nodeAt (heap s) a = Some (Some n)) ∧
  mCaches s' = mCaches s ∧ nextAddr s' = nextAddr s ∧
  dom (heap s') = dom (heap s) ∧
  ∃ evs, trace s' = trace s ++ evs ∧
         (∀ a, a ∉ targets →
               heap s' !! a = heap s !! a ∧ a ∉ writeRequests evs) ∧
         (∀ a n, nodeAt (heap s) a = Some (Some n) →
                 (∀ root, root ∈ roots →
                          leftContainsRight aOwner root = true →
                          n ∉ iterate root) →
                 heap s' !! a = heap s !! a ∧ a ∉ writeRequests evs).
Proof.
  intros Hrun targets.
  destruct (collectRoots_spec s aOwner roots []) as [Hnd Hin]; [constructor|].
  fold targets in Hnd, Hin.
  assert (Hscope : ∀ a, a ∈ targets →
            a ∈ mCaches s ∧
            ∃ root n, root ∈ roots ∧ leftContainsRight aOwner root = true ∧
                      n ∈ iterate root ∧ nodeAt (heap s) a = Some (Some n)).
  { intros a Ha. destruct (Hin a Ha) as [Hnil|?]; [|done].
    by apply elem_of_nil in Hnil. }
  unfold updateCachesUnder in Hrun. fold targets in Hrun.
  destruct (match mCacheOwner s with
            | Some o => bool_decide (o = nodeId aOwner)
            | None => true
            end); [|done].
  pose proof (updateCaches_trace _ _ _ _ Hrun) as (evs & Htr & Hev).
  apply updateCaches_inv in Hrun as (_ & _ & E3 & _ & E5 & E6 & _ & E8).
  cbn in *.
  assert (Hout : ∀ a, a ∉ targets →
            heap s' !! a = heap s !! a ∧ a ∉ writeRequests evs).
  { intros a Ha. split; [by apply E8|]. intros Hw. by apply Ha, Hev. }
  split_and!; try done.
  exists evs. split_and!; try done.
  intros a n Hnode Hroots. apply Hout. intros Ha.
  destruct (Hscope a Ha) as (_ & root & m & Hr & Hl & Hm & Hnode').
  rewrite Hnode in Hnode'. injection Hnode' as <-.
  by apply (Hroots root Hr Hl).
Qed.

Lemma updateCachesUnder_scoped_witness :
  ∃ s', updateCachesUnder demoProject demoKey demoScene demoRoots = Ok s' ∧
  let targets := collectRoots demoKey demoScene demoRoots [] in
  NoDup targets ∧
  (∀ a, a ∈ targets →
        a ∈ mCaches demoKey ∧
        ∃ root n, root ∈ demoRoots ∧ leftContainsRight demoScene root = true ∧
                  n ∈ iterate root ∧ nodeAt (heap demoKey) a = Some (Some n)) ∧
  mCaches s' = mCaches demoKey ∧ nextAddr s' = nextAddr demoKey ∧
  dom (heap s') = dom (heap demoKey) ∧
  ∃ evs, trace s' = trace demoKey ++ evs ∧
         (∀ a, a ∉ targets →
               heap s' !! a = heap demoKey !! a ∧ a ∉ writeRequests evs) ∧
         (∀ a n, nodeAt (heap demoKey) a = Some (Some n) →
                 (∀ root, root ∈ demoRoots →
                          leftContainsRight demoScene root = true →
                          n ∉ iterate root) →
                 heap s' !! a = heap demoKey !! a ∧ a ∉ writeRequests evs).
Proof.
  eexists. split; [vm_compute; reflexivity|].
  apply (updateCachesUnder_scoped demoProject demoKey demoScene demoRoots).
  vm_compute. reflexivity.
Defined.

(** ** The codec of the bone forest *)

Lemma Bone2_forall_ind (Q : Bone2 → Prop) :
  (∀ f cs, Forall Q cs → Q (Bone f cs)) → ∀ b, Q b.
Proof.
  intros Hstep. fix IH 1. intros [f cs]. apply Hstep.
  induction cs as [|c cs IHcs]; constructor; [apply IH|exact IHcs].
Qed.

Lemma toInt_small z : (0 ≤ z < 2 ^ 31)%Z → toInt z = z.
Proof.
  intros Hz. unfold toInt.
  rewrite Z.mod_small; lia.
Qed.

Lemma serializeEach_encode o bs :
  sFailed o = false →
  Forall (fun b => ∀ o, sFailed o = false →
                        serializeBone o b = (true, appendOut o (encodeBone b))) bs →
  serializeEach serializeBone o bs = (true, appendOut o (encodeBones bs)).
Proof.
  intros Ho H. revert o Ho.
  induction H as [|b bs Hb _ IH]; intros o Ho; cbn.
  - unfold appendOut, encodeBones. cbn. rewrite app_nil_r. by destruct o.
  - rewrite (Hb o Ho). cbn. rewrite IH by done.
    unfold appendOut, encodeBones. cbn. by rewrite app_assoc.
Qed.

Lemma serializeBone_encode b : ∀ o,
  sFailed o = false →
  serializeBone o b = (true, appendOut o (encodeBone b)).
Proof.
  induction b as [f cs IH] using Bone2_forall_ind. intros o Ho.
  cbn. unfold checkStreamOut. cbn. rewrite Ho. cbn.
  rewrite (serializeEach_encode _ cs); [|done|done].
  cbn. unfold checkStreamOut. cbn. rewrite Ho. cbn.
  unfold appendOut, encodeBones. cbn. f_equal. f_equal.
  by rewrite <- !app_assoc.
Qed.

Lemma nextItem_withIn d i rest :
  dFailed d = false → nextItem (withIn d (i :: rest)) = Some (i, withIn d rest).
Proof. intros Hd. unfold nextItem. cbn. by rewrite Hd. Qed.

Lemma deserializeEach_encode one bs :
  Forall (fun b => ∀ d rest, dFailed d = false →
            one (withIn d (encodeBone b ++ rest)) = Some (true, b, withIn d rest))
         bs →
  ∀ acc d rest, dFailed d = false →
    deserializeEach one (length bs) acc (withIn d (encodeBones bs ++ rest)) =
    Some (true, acc ++ bs, withIn d rest).
Proof.
  induction 1 as [|b bs Hb _ IH]; intros acc d rest Hd; cbn.
  - by rewrite app_nil_r.
  - unfold encodeBones. cbn. rewrite <- app_assoc.
    rewrite (Hb d _ Hd). cbn. fold (encodeBones bs).
    rewrite IH by done. by rewrite <- app_assoc.
Qed.

Lemma fitsInt_children f cs :
  fitsInt (Bone f cs) → Forall fitsInt cs.
Proof.
  cbn. intros [_ H]. induction cs as [|c cs IH]; constructor; cbn in H; tauto.
Qed.

Lemma boneDepth_children f cs depth :
  boneDepth (Bone f cs) ≤ S depth → Forall (fun c => boneDepth c ≤ depth) cs.
Proof.
  cbn. intros H. apply le_S_n in H.
  induction cs as [|c cs IH]; constructor; cbn in H; [lia|apply IH; lia].
Qed.

(** Decoding the record of a bone gives the bone back and stops right
    after the record. *)
Lemma deserializeBoneAt_encode b : ∀ depth d rest,
  fitsInt b → boneDepth b ≤ depth → dFailed d = false →
  deserializeBoneAt depth (withIn d (encodeBone b ++ rest)) =
  Some (true, b, withIn d rest).
Proof.
  induction b as [f cs IH] using Bone2_forall_ind.
  intros [|depth] d rest Hfit Hdepth Hd; [cbn in Hdepth; lia|].
  pose proof (fitsInt_children _ _ Hfit) as Hfits.
  pose proof (boneDepth_children _ _ _ Hdepth) as Hdepths.
  destruct Hfit as [Hlen _].
  cbn. unfold readInt. rewrite nextItem_withIn by done.
  rewrite toInt_small by lia.
  destruct (Z.of_nat (length cs) <? 0)%Z eqn:Hneg; [lia|].
  unfold boneDeserialize. rewrite nextItem_withIn by done. cbn.
  rewrite Nat2Z.id. fold (encodeBones cs).
  rewrite (deserializeEach_encode (deserializeBoneAt depth) cs); [|clear Hlen Hneg|done].
  - cbn. unfold checkStream. cbn. by rewrite Hd.
  - induction cs as [|c cs IHcs]; constructor.
    + intros d' rest' Hd'. apply Forall_cons in IH as [IHc _].
      apply Forall_cons in Hfits as [? _]. apply Forall_cons in Hdepths as [? _].
      by apply IHc.
    + apply Forall_cons in IH as [_ IH].
      apply Forall_cons in Hfits as [_ ?]. apply Forall_cons in Hdepths as [_ Hds].
      apply IHcs; try done. cbn in Hdepth |- *. cbn in Hds.
      assert (Hm : foldr Nat.max 0 (map boneDepth cs) ≤ depth).
      { clear -Hds. induction Hds; cbn; lia. }
      lia.
Qed.

Lemma boneDepth_le_length b : boneDepth b ≤ length (encodeBone b).
Proof.
  induction b as [f cs IH] using Bone2_forall_ind. cbn.
  apply le_n_S. induction IH as [|c cs Hc _ IHcs]; cbn; [lia|].
  rewrite length_app. lia.
Qed.

Lemma deserializeBone_encode b d rest :
  fitsInt b → dFailed d = false →
  deserializeBone (withIn d (encodeBone b ++ rest)) =
  Some (true, b, withIn d rest).
Proof.
  intros Hfit Hd. unfold deserializeBone.
  apply deserializeBoneAt_encode; try done.
  cbn. rewrite length_app. pose proof (boneDepth_le_length b). lia.
Qed.

(** ** The codec of the caches *)

Lemma serializeCaches_encode h : ∀ caches o,
  sFailed o = false →
  (∀ a, a ∈ caches → is_Some (h !! a)) →
  serializeCaches h o caches =
  Ok (true, appendOut o (encodeCaches (idOf o) (omap (fun a => h !! a) caches))).
Proof.
  induction caches as [|a rest IH]; intros o Ho Hlive; cbn.
  - unfold appendOut, encodeCaches. cbn. rewrite app_nil_r. by destruct o.
  - destruct (Hlive a) as [c Hc]; [by left|]. rewrite Hc. cbn.
    unfold checkStreamOut. cbn. rewrite Ho. cbn.
    rewrite IH; [|done|intros b Hb; apply Hlive; by right].
    unfold appendOut, encodeCaches. cbn. do 3 f_equal.
    by rewrite <- !app_assoc.
Qed.

Lemma serialize_encode s o :
  sFailed o = false →
  (∀ a, a ∈ mCaches s → is_Some (heap s !! a)) →
  serialize s o = Ok (true, appendOut o (encodeState (idOf o) s)).
Proof.
  intros Ho Hlive. unfold serialize.
  rewrite serializeEach_encode; [|done|].
  2:{ apply Forall_forall. intros b _ o' Ho'. by apply serializeBone_encode. }
  cbn. rewrite serializeCaches_encode by done. cbn.
  unfold checkStreamOut. cbn. rewrite Ho. cbn.
  unfold appendOut, encodeState, cacheValues. cbn. do 3 f_equal.
  rewrite <- !app_assoc. cbn. by rewrite <- ?app_assoc.
Qed.

Lemma readInt_withIn d z rest dflt :
  dFailed d = false → readInt (withIn d (IInt z :: rest)) dflt = (z, withIn d rest).
Proof. intros Hd. unfold readInt. by rewrite nextItem_withIn. Qed.

Lemma readMatrix_withIn d m rest dflt :
  dFailed d = false →
  readMatrix (withIn d (IMatrix m :: rest)) dflt = (m, withIn d rest).
Proof. intros Hd. unfold readMatrix. by rewrite nextItem_withIn. Qed.

Lemma readFrame_withIn d f rest dflt :
  dFailed d = false →
  readFrame (withIn d (IFrame f :: rest)) dflt = (f, withIn d rest).
Proof. intros Hd. unfold readFrame. by rewrite nextItem_withIn. Qed.

Lemma orderIDData_withIn d id rest solver :
  dFailed d = false →
  orderIDData (withIn d (IID id :: rest)) solver =
  (true, withIn (withOrders d (dOrders d ++ [(id, solver)])) rest).
Proof. intros Hd. unfold orderIDData. by rewrite nextItem_withIn. Qed.

Lemma influenceDeserialize_withIn d n w rest m :
  dFailed d = false →
  influenceDeserialize (withIn d (IInfluence n w :: rest)) m =
  (true, {| maxBoneCount := maxBoneCount m; mapVertexCount := n; weights := w |},
   withIn d rest).
Proof. intros Hd. unfold influenceDeserialize. by rewrite nextItem_withIn. Qed.

Lemma deserializeCaches_encode ids : ∀ cs s d rest,
  dFailed d = false →
  ∃ s',
    deserializeCaches (length cs) s (withIn d (encodeCaches ids cs ++ rest)) =
    (true, s',
     withOrders (withIn d rest) (dOrders d ++ cacheOrders ids (nextAddr s) cs)) ∧
    mCaches s' = mCaches s ++ seq (nextAddr s) (length cs) ∧
    nextAddr s' = nextAddr s + length cs ∧
    mData s' = mData s ∧ mCacheOwner s' = mCacheOwner s ∧
    frame s' = frame s ∧
    (∀ i c, cs !! i = Some c →
            heap s' !! (nextAddr s + i) = Some (decodedCache c)) ∧
    (∀ a, a < nextAddr s → heap s' !! a = heap s !! a).
Proof.
  induction cs as [|c cs IH]; intros s d rest Hd.
  { exists s. cbn. rewrite !app_nil_r, Nat.add_0_r. split_and!; done. }
  cbn [length deserializeCaches alloc].
  unfold encodeCaches. cbn [map concat encodeCache app].
  rewrite orderIDData_withIn by done. cbn [negb].
  set (d1 := withOrders d (dOrders d ++ [(ids (mNode c), SolveCacheNode (nextAddr s))])).
  rewrite readMatrix_withIn, readFrame_withIn, influenceDeserialize_withIn by done.
  cbn [negb].
  fold (encodeCaches ids cs).
  set (s3 := store _ _ _).
  destruct (IH s3 d1 rest Hd) as (s' & Hrun & E1 & E2 & E3 & E4 & E5 & E6 & E7).
  exists s'. split_and!.
  - etrans; [exact Hrun|]. cbn. unfold withOrders. cbn.
    by rewrite <- app_assoc.
  - rewrite E1. cbn. by rewrite <- app_assoc.
  - rewrite E2. cbn. lia.
  - by rewrite E3.
  - by rewrite E4.
  - by rewrite E5.
  - intros [|i] c' Hc'; cbn in Hc'.
    + injection Hc' as <-. rewrite Nat.add_0_r, E7 by (cbn; lia).
      cbn. by rewrite lookup_insert_eq.
    + replace (nextAddr s + S i) with (nextAddr s3 + i) by (cbn; lia).
      by apply E6.
  - intros a Ha. rewrite E7 by (cbn; lia). cbn.
    rewrite !lookup_insert_ne by lia. done.
Qed.

(** The post-load pass binds every decoded cache to the node its id
    stands for and touches nothing else. *)
Lemma resolve_cacheOrders ids nodeOf :
  (∀ p, nodeOf (ids p) = Some p) →
  ∀ cs base s,
    (∀ i c, cs !! i = Some c →
            heap s !! (base + i) = Some (decodedCache c)) →
    ∃ s2, resolveOrders nodeOf (cacheOrders ids base cs) s = Some s2 ∧
          mCaches s2 = mCaches s ∧ mData s2 = mData s ∧
          mCacheOwner s2 = mCacheOwner s ∧
          (∀ i c, cs !! i = Some c →
                  heap s2 !! (base + i) = Some (resolvedCache c)) ∧
          (∀ a, a < base → heap s2 !! a = heap s !! a).
Proof.
  intros Hinv. induction cs as [|c cs IH]; intros base s Hcells.
  { exists s. cbn. split_and!; done. }
  cbn. rewrite Hinv.
  set (s1 := runSolver s (SolveCacheNode base) (mNode c)).
  assert (H0 : heap s !! base = Some (decodedCache c)).
  { rewrite <- (Nat.add_0_r base). by apply Hcells. }
  assert (Hs1 : mCaches s1 = mCaches s ∧ mData s1 = mData s ∧
                mCacheOwner s1 = mCacheOwner s ∧
                heap s1 !! base = Some (resolvedCache c) ∧
                ∀ a, a ≠ base → heap s1 !! a = heap s !! a).
  { subst s1. unfold runSolver, resolvedCache.
    destruct (mNode c) as [n|]; [|by split_and!].
    rewrite H0. cbn. split_and!; try done.
    - by rewrite lookup_insert_eq.
    - intros a Ha. by rewrite lookup_insert_ne. }
  destruct Hs1 as (A1 & A2 & A3 & A4 & A5).
  destruct (IH (S base) s1) as (s2 & Hrun & B1 & B2 & B3 & B4 & B5).
  { intros i c' Hc'. rewrite A5 by lia.
    replace (S base + i) with (base + S i) by lia. by apply Hcells. }
  exists s2. split_and!; try congruence.
  - intros [|i] c' Hc'; cbn in Hc'.
    + injection Hc' as <-. rewrite Nat.add_0_r, B5 by lia. done.
    + replace (base + S i) with (S base + i) by lia. by apply B4.
  - intros a Ha. rewrite B5 by lia. apply A5. lia.
Qed.

Lemma cacheValues_live s :
  (∀ a, a ∈ mCaches s → is_Some (heap s !! a)) →
  length (cacheValues s) = length (mCaches s).
Proof.
  unfold cacheValues. induction (mCaches s) as [|a l IH]; intros H; [done|].
  cbn. destruct (H a) as [c Hc]; [by left|]. rewrite Hc. cbn.
  f_equal. apply IH. intros b Hb. apply H. by right.
Qed.

(** Decoding the record of a BoneKey rebuilds its forest and one cache
    per record, and queues one request per node reference. *)
Lemma deserialize_encode ids x s0 :
  (∀ a, a ∈ mCaches x → is_Some (heap x !! a)) →
  Forall fitsInt (mData x) →
  ∃ s1 d1,
    deserialize s0 (openStream (encodeState ids x)) = Some (true, s1, d1) ∧
    dOrders d1 = (ids (mCacheOwner x), SolveOwner)
                 :: cacheOrders ids (nextAddr s0) (cacheValues x) ∧
    mData s1 = mData x ∧ mCacheOwner s1 = None ∧
    mCaches s1 = seq (nextAddr s0) (length (mCaches x)) ∧
    (∀ i c, cacheValues x !! i = Some c →
            heap s1 !! (nextAddr s0 + i) = Some (decodedCache c)).
Proof.
  intros Hlive Hfit. unfold deserialize.
  set (d0 := pushLogScope (openStream []) "BoneKey").
  change (pushLogScope (openStream (encodeState ids x)) "BoneKey")
    with (withIn d0 (encodeState ids x)).
  unfold encodeState. rewrite readInt_withIn by done.
  destruct (Z.of_nat (length (mData x)) <? 0)%Z eqn:Hneg;
    [apply Z.ltb_lt in Hneg; lia|].
  rewrite Nat2Z.id.
  rewrite (deserializeEach_encode deserializeBone (mData x)); [| |done].
  2:{ eapply Forall_impl; [exact Hfit|]. intros b Hb d rest Hd.
      by apply deserializeBone_encode. }
  cbn [negb app]. rewrite orderIDData_withIn by done. cbn [negb].
  set (d3 := withOrders d0 _).
  rewrite readInt_withIn by done.
  destruct (Z.of_nat (length (mCaches x)) <? 0)%Z eqn:Hneg';
    [apply Z.ltb_lt in Hneg'; lia|].
  rewrite Nat2Z.id, <- (cacheValues_live x Hlive).
  set (s1 := withData _ _).
  destruct (deserializeCaches_encode ids (cacheValues x) s1 d3 [])
    as (s' & Hrun & E1 & E2 & E3 & E4 & E5 & E6 & E7); [done|].
  rewrite app_nil_r in Hrun. rewrite Hrun. cbn [negb].
  eexists _, _. split; [reflexivity|]. unfold checkStream. cbn.
  split_and!; try done.
Qed.

Lemma demoNodeOf_demoIdOf p : demoNodeOf (demoIdOf p) = Some p.
Proof.
  destruct p as [n|]; [|done]. unfold demoNodeOf, demoIdOf.
  destruct (Z.of_nat n + 1 =? 0)%Z eqn:E0; [apply Z.eqb_eq in E0; lia|].
  destruct (0 <? Z.of_nat n + 1)%Z eqn:E1; [|apply Z.ltb_ge in E1; lia].
  do 2 f_equal. lia.
Qed.

Lemma cacheRecord_resolved c : cacheRecord (resolvedCache c) = cacheRecord c.
Proof. unfold resolvedCache, cacheRecord. by destruct c as [i [n|] m f]. Qed.

Lemma cacheRecords_resolved (h : gmap addr Cache) cs : ∀ base,
  (∀ i c, cs !! i = Some c → h !! (base + i) = Some (resolvedCache c)) →
  map cacheRecord (omap (fun a => h !! a) (seq base (length cs))) =
  map cacheRecord cs.
Proof.
  induction cs as [|c cs IH]; intros base H; [done|].
  cbn. pose proof (H 0 c eq_refl) as H0. rewrite Nat.add_0_r in H0.
  rewrite H0. cbn. rewrite cacheRecord_resolved. f_equal.
  apply IH. intros i c' Hc'.
  replace (S base + i) with (base + S i) by lia. by apply H.
Qed.

(** ** Round trip through the stream *)

(** C2: writing a BoneKey and reading the stream back, with the deferred
    node references resolved by the post-load pass, gives the same bone
    forest (same topology, fields and order), the same owner, the same
    number of caches, and caches that agree one by one in node binding,
    inner matrix, frame sign and influence data.  The pointers of the
    collection are live and every child count fits the 32-bit int the
    format stores it in. *)
Theorem serialize_deserialize_roundtrip (x s0 : State)
  (ids : option NodeId → Z) (nodeOf : Z → option (option NodeId)) :
  (∀ a, a ∈ mCaches x → is_Some (heap x !! a)) →
  Forall fitsInt (mData x) →
  (∀ p, nodeOf (ids p) = Some p) →
  ∃ o s1 d1 s2,
    serialize x (newStream ids) = Ok (true, o) ∧
    deserialize s0 (openStream (sOut o)) = Some (true, s1, d1) ∧
    resolveOrders nodeOf (dOrders d1) s1 = Some s2 ∧
    mData s2 = mData x ∧
    mCacheOwner s2 = mCacheOwner x ∧
    length (mCaches s2) = length (mCaches x) ∧
    map cacheRecord (cacheValues s2) = map cacheRecord (cacheValues x).
Proof.
  intros Hlive Hfit Hinv.
  destruct (deserialize_encode ids x s0 Hlive Hfit)
    as (s1 & d1 & Hde & Hord & D1 & D2 & D3 & D4).
  set (s1' := runSolver s1 SolveOwner (mCacheOwner x)).
  assert (Hs1' : mData s1' = mData s1 ∧ mCaches s1' = mCaches s1 ∧
                 heap s1' = heap s1 ∧ mCacheOwner s1' = mCacheOwner x).
  { subst s1'. unfold runSolver. destruct (mCacheOwner x); cbn; by split_and!. }
  destruct Hs1' as (O1 & O2 & O3 & O4).
  destruct (resolve_cacheOrders ids nodeOf Hinv (cacheValues x) (nextAddr s0) s1')
    as (s2 & Hres & R1 & R2 & R3 & R4 & _).
  { intros i c Hc. rewrite O3. by apply D4. }
  eexists _, s1, d1, s2. split_and!.
  - apply serialize_encode; done.
  - exact Hde.
  - rewrite Hord. cbn. by rewrite Hinv.
  - congruence.
  - congruence.
  - rewrite R1, O2, D3. by rewrite length_seq.
  - unfold cacheValues at 1. rewrite R1, O2, D3.
    rewrite <- (cacheValues_live x Hlive). by apply cacheRecords_resolved.
Qed.

Lemma demoBoneKey_live a :
  a ∈ mCaches demoBoneKey → is_Some (heap demoBoneKey !! a).
Proof.
  destruct (resetCaches_spec demoProject freshKey demoScene freshKey_wf)
    as (s' & Hrun & Hwf & _).
  unfold demoBoneKey, demoKey. rewrite Hrun. cbn. by apply wf_live.
Qed.

Lemma demoBoneKey_fits : Forall fitsInt (mData demoBoneKey).
Proof.
  unfold demoBoneKey. cbn [mData withData].
  repeat (constructor; cbn; try lia); repeat split; lia.
Qed.

Lemma serialize_deserialize_roundtrip_witness :
  (∀ a, a ∈ mCaches demoBoneKey → is_Some (heap demoBoneKey !! a)) ∧
  Forall fitsInt (mData demoBoneKey) ∧
  (∀ p, demoNodeOf (demoIdOf p) = Some p) ∧
  ∃ o s1 d1 s2,
    serialize demoBoneKey (newStream demoIdOf) = Ok (true, o) ∧
    deserialize freshKey (openStream (sOut o)) = Some (true, s1, d1) ∧
    resolveOrders demoNodeOf (dOrders d1) s1 = Some s2 ∧
    mData s2 = mData demoBoneKey ∧
    mCacheOwner s2 = mCacheOwner demoBoneKey ∧
    length (mCaches s2) = length (mCaches demoBoneKey) ∧
    map cacheRecord (cacheValues s2) = map cacheRecord (cacheValues demoBoneKey).
Proof.
  split; [exact demoBoneKey_live|]. split; [exact demoBoneKey_fits|].
  split; [exact demoNodeOf_demoIdOf|].
  exact (serialize_deserialize_roundtrip demoBoneKey freshKey demoIdOf demoNodeOf
           demoBoneKey_live demoBoneKey_fits demoNodeOf_demoIdOf).
Defined.

(** ** Decoding always returns *)

Lemma nextItem_length d i d' :
  nextItem d = Some (i, d') → S (length (dIn d')) = length (dIn d).
Proof.
  unfold nextItem. destruct (dFailed d); [done|].
  destruct (dIn d) as [|j rest]; [done|]. by intros [= _ <-].
Qed.

Lemma readInt_length d dflt z d' :
  readInt d dflt = (z, d') → length (dIn d') ≤ length (dIn d).
Proof.
  unfold readInt. destruct (nextItem d) as [[i d1]|] eqn:Hn.
  - apply nextItem_length in Hn.
    destruct i; intros [= _ <-]; cbn; lia.
  - by intros [= _ <-].
Qed.

Lemma boneDeserialize_length d dflt ok f d' :
  boneDeserialize d dflt = (ok, f, d') →
  length (dIn d') ≤ length (dIn d) ∧
  (ok = true → S (length (dIn d')) = length (dIn d)).
Proof.
  unfold boneDeserialize. destruct (nextItem d) as [[i d1]|] eqn:Hn.
  - apply nextItem_length in Hn.
    destruct i; intros [= <- _ <-]; cbn; split; (lia || done).
  - intros [= <- _ <-]. by split.
Qed.

Lemma deserializeEach_total one bound :
  (∀ d, length (dIn d) ≤ bound →
        ∃ ok b d', one d = Some (ok, b, d') ∧ length (dIn d') ≤ length (dIn d)) →
  ∀ count acc d, length (dIn d) ≤ bound →
    ∃ ok bs d', deserializeEach one count acc d = Some (ok, bs, d') ∧
                length (dIn d') ≤ length (dIn d).
Proof.
  intros Hone. induction count as [|count IH]; intros acc d Hd; cbn.
  - by eexists _, _, _.
  - destruct (Hone d Hd) as (ok & b & d1 & -> & Hlen).
    destruct ok; cbn.
    + destruct (IH (acc ++ [b]) d1) as (ok' & bs & d2 & -> & Hlen'); [lia|].
      eexists _, _, _. split; [done|]. lia.
    + by eexists _, _, _.
Qed.

(** The depth bound is never reached when it exceeds the number of
    records left in the stream. *)
Lemma deserializeBoneAt_total : ∀ depth d,
  length (dIn d) < depth →
  ∃ ok b d', deserializeBoneAt depth d = Some (ok, b, d') ∧
             length (dIn d') ≤ length (dIn d).
Proof.
  induction depth as [|depth IH]; intros d Hd; [lia|].
  cbn [deserializeBoneAt].
  destruct (readInt d 0%Z) as [childCount d1] eqn:Hr.
  pose proof (readInt_length _ _ _ _ Hr) as Hl1.
  destruct (childCount <? 0)%Z; [by eexists _, _, _|].
  destruct (boneDeserialize d1 (boneFields newBone)) as [[ok f] d2] eqn:Hb.
  apply boneDeserialize_length in Hb as [Hl2 Hl2'].
  destruct ok; cbn [negb]; [|eexists _, _, _; split; [done|lia]].
  specialize (Hl2' eq_refl).
  destruct (deserializeEach_total (deserializeBoneAt depth) (length (dIn d2)))
    with (count := Z.to_nat childCount) (acc := @nil Bone2) (d := d2)
    as (ok' & cs & d3 & -> & Hl3); [|done|].
  - intros d' Hd'. apply IH. lia.
  - destruct ok'; cbn [negb]; eexists _, _, _; (split; [done|lia]).
Qed.

Lemma deserializeBone_total d :
  ∃ ok b d', deserializeBone d = Some (ok, b, d') ∧
             length (dIn d') ≤ length (dIn d).
Proof. apply deserializeBoneAt_total. lia. Qed.

Lemma deserialize_total s d : is_Some (deserialize s d).
Proof.
  unfold deserialize.
  destruct (readInt _ _) as [topBoneCount d1].
  destruct (topBoneCount <? 0)%Z; [done|].
  destruct (deserializeEach_total deserializeBone (length (dIn d1)))
    with (count := Z.to_nat topBoneCount) (acc := @nil Bone2) (d := d1)
    as (ok & bs & d2 & -> & _); [|done|].
  { intros d' _. apply deserializeBone_total. }
  destruct ok; cbn [negb]; [|done].
  destruct (orderIDData d2 SolveOwner) as [[] d3]; cbn [negb]; [|done].
  destruct (readInt d3 0%Z) as [cacheCount d4].
  destruct (cacheCount <? 0)%Z; [done|].
  destruct (deserializeCaches _ _ _) as [[[] s2] d5]; done.
Qed.


(** ** Negative counts *)

Lemma boneDeserialize_withIn d f rest dflt :
  dFailed d = false →
  boneDeserialize (withIn d (IBone f :: rest)) dflt = (true, f, withIn d rest).
Proof. intros Hd. unfold boneDeserialize. by rewrite nextItem_withIn. Qed.

Lemma deserializeEach_prefix one bs :
  Forall (fun b => ∀ d rest, dFailed d = false →
            one (withIn d (encodeBone b ++ rest)) = Some (true, b, withIn d rest))
         bs →
  ∀ k acc d rest, dFailed d = false →
    deserializeEach one (length bs + k) acc (withIn d (encodeBones bs ++ rest)) =
    deserializeEach one k (acc ++ bs) (withIn d rest).
Proof.
  induction 1 as [|b bs Hb _ IH]; intros k acc d rest Hd; cbn.
  - by rewrite app_nil_r.
  - unfold encodeBones. cbn. rewrite <- app_assoc.
    rewrite (Hb d _ Hd). cbn. fold (encodeBones bs).
    rewrite IH by done. by rewrite <- app_assoc.
Qed.

Lemma encodeBone_le_encodeBones b bs :
  b ∈ bs → length (encodeBone b) ≤ length (encodeBones bs).
Proof.
  unfold encodeBones. induction bs as [|c bs IH]; intros Hin.
  - by apply elem_of_nil in Hin.
  - cbn. rewrite length_app. apply elem_of_cons in Hin as [->|Hin]; [lia|].
    specialize (IH Hin). lia.
Qed.

Lemma decode_before one before depth :
  (∀ b d rest, fitsInt b → boneDepth b ≤ depth → dFailed d = false →
     one (withIn d (encodeBone b ++ rest)) = Some (true, b, withIn d rest)) →
  Forall fitsInt before →
  length (encodeBones before) ≤ depth →
  Forall (fun b => ∀ d rest, dFailed d = false →
            one (withIn d (encodeBone b ++ rest)) = Some (true, b, withIn d rest))
         before.
Proof.
  intros Hone Hfit Hlen. apply Forall_forall. intros b Hb d rest Hd.
  apply Hone; try done.
  - by apply (proj1 (Forall_forall _ _) Hfit).
  - pose proof (boneDepth_le_length b).
    pose proof (encodeBone_le_encodeBones b before Hb). lia.
Qed.

(** A negative child count met at the end of a path stops the decoding
    of every bone on the path. *)
Lemma deserializeBoneAt_path : ∀ p depth d z rest,
  pathOk p →
  length (pathPrefix p ++ IInt z :: rest) ≤ depth →
  dFailed d = false → (z < 0)%Z →
  deserializeBoneAt depth (withIn d (pathPrefix p ++ IInt z :: rest)) =
  Some (false, pathBone p, errored (withIn d rest) "invalid child count").
Proof.
  induction p as [|f count before p IH]; intros depth d z rest Hok Hlen Hd Hz;
    (destruct depth as [|depth]; [cbn in Hlen; lia|]).
  - cbn [pathPrefix app deserializeBoneAt].
    rewrite readInt_withIn by done.
    apply Z.ltb_lt in Hz. by rewrite Hz.
  - destruct Hok as (Hcount & Hfit & Hok).
    cbn [pathPrefix app deserializeBoneAt pathBone].
    rewrite readInt_withIn by done.
    destruct (count <? 0)%Z eqn:Hneg; [apply Z.ltb_lt in Hneg; lia|].
    rewrite boneDeserialize_withIn by done. cbn [negb].
    cbn in Hlen. rewrite !length_app in Hlen. cbn in Hlen.
    replace (Z.to_nat count)
      with (length before + S (Z.to_nat count - length before - 1)) by lia.
    rewrite <- app_assoc.
    rewrite (deserializeEach_prefix (deserializeBoneAt depth) before); [| |done].
    2:{ apply (decode_before _ _ depth); [|done|lia].
        intros b d' rest' ? ? ?. by apply deserializeBoneAt_encode. }
    cbn [deserializeEach app].
    rewrite IH; [done|done| |done|done].
    rewrite length_app. cbn. lia.
Qed.

(** A negative child count inside the bone records: [deserialize] returns
    false there, with the bones built so far left in the forest. *)
Lemma deserialize_at_path s d z rest n before p :
  dFailed d = false → (z < 0)%Z →
  Forall fitsInt before → pathOk p → (Z.of_nat (length before) < n)%Z →
  deserialize s (withIn d (IInt n :: encodeBones before ++ pathPrefix p ++
                           IInt z :: rest)) =
  Some (false,
        withData (destroyCaches (deleteAll s)) (before ++ [pathBone p]),
        errored (withIn (pushLogScope d "BoneKey") rest) "invalid child count").
Proof.
  intros Hd Hz Hfit Hok Hn. unfold deserialize.
  change (pushLogScope (withIn d ?l) "BoneKey")
    with (withIn (pushLogScope d "BoneKey") l).
  rewrite readInt_withIn by done.
  destruct (n <? 0)%Z eqn:Hneg; [apply Z.ltb_lt in Hneg; lia|].
  replace (Z.to_nat n)
    with (length before + S (Z.to_nat n - length before - 1)) by lia.
  rewrite (deserializeEach_prefix deserializeBone before); [| |done].
  2:{ apply Forall_forall. intros b Hb d' rest' Hd'.
      apply deserializeBone_encode; [|done].
      by apply (proj1 (Forall_forall _ _) Hfit). }
  cbn [deserializeEach app]. unfold deserializeBone at 1.
  rewrite deserializeBoneAt_path; [|done|cbn; lia|done|done].
  done.
Qed.

(** C6: a negative top bone count, a negative child count of any bone of
    the stream (the records before it being well formed) and a negative
    cache count each make [deserialize] return false with its message
    logged under the scope "BoneKey". *)
Theorem deserialize_rejects_negative_counts
  (s : State) (d : Deserializer) (z : Z) (rest : list Item) :
  dFailed d = false → (z < 0)%Z →
  rejects s d (IInt z :: rest) "invalid top bone count" ∧
  (∀ n before p,
      Forall fitsInt before → pathOk p → (Z.of_nat (length before) < n)%Z →
      rejects s d (IInt n :: encodeBones before ++ pathPrefix p ++ IInt z :: rest)
              "invalid child count") ∧
  (∀ bones id,
      Forall fitsInt bones →
      rejects s d (IInt (Z.of_nat (length bones)) :: encodeBones bones ++
                   IID id :: IInt z :: rest)
              "invalid cache count").
Proof.
  intros Hd Hz. unfold rejects, deserialize.
  set (d0 := pushLogScope d "BoneKey").
  assert (Hpush : ∀ l, pushLogScope (withIn d l) "BoneKey" = withIn d0 l) by done.
  assert (Hd0 : dFailed d0 = false) by done.
  pose proof (proj2 (Z.ltb_lt z 0) Hz) as Hzb.
  split_and!.
  - rewrite Hpush, readInt_withIn, Hzb by done. by eexists _, _.
  - intros n before p Hfit Hok Hn.
    fold (deserialize s (withIn d (IInt n :: encodeBones before ++
                                   pathPrefix p ++ IInt z :: rest))).
    rewrite deserialize_at_path by done. by eexists _, _.
  - intros bones id Hfit.
    rewrite Hpush, readInt_withIn by done.
    destruct (Z.of_nat (length bones) <? 0)%Z eqn:Hneg;
      [apply Z.ltb_lt in Hneg; lia|].
    rewrite Nat2Z.id.
    rewrite (deserializeEach_encode deserializeBone bones); [| |done].
    2:{ eapply Forall_impl; [exact Hfit|]. intros b Hb d' rest' Hd'.
        by apply deserializeBone_encode. }
    cbn [negb app]. rewrite orderIDData_withIn by done. cbn [negb].
    rewrite readInt_withIn, Hzb by done. by eexists _, _.
Qed.

Lemma deserialize_rejects_negative_counts_witness :
  dFailed (openStream []) = false ∧ (-3 < 0)%Z ∧
  rejects demoBoneKey (openStream []) [IInt (-3)] "invalid top bone count" ∧
  rejects demoBoneKey (openStream []) brokenStream "invalid child count" ∧
  rejects demoBoneKey (openStream [])
          [IInt 1; IInt 0; IBone [8]; IID 0; IInt (-3)]%Z "invalid cache count".
Proof.
  split; [reflexivity|]. split; [lia|].
  destruct (deserialize_rejects_negative_counts
              demoBoneKey (openStream []) (-3) [] eq_refl ltac:(lia))
    as (Htop & Hchild & Hcache).
  split; [exact Htop|]. split.
  - apply (Hchild 1%Z [] (PathInto [5]%Z 2 [Bone [6]%Z []] PathEnd)).
    + constructor.
    + cbn. split; [lia|]. split; [|done].
      constructor; [|constructor]. cbn. split; [lia|done].
    + cbn. lia.
  - apply (Hcache [Bone [8]%Z []] 0%Z).
    constructor; [|constructor]. cbn. split; [lia|done].
Defined.

(** ** At most one cache per node *)

Lemma boundNodes_nodeAt s s' :
  mCaches s' = mCaches s →
  (∀ a, nodeAt (heap s') a = nodeAt (heap s) a) →
  boundNodes s' = boundNodes s.
Proof.
  unfold boundNodes. intros -> H.
  induction (mCaches s) as [|a l IH]; [done|]. cbn.
  assert (Ha : heap s' !! a ≫= mNode = heap s !! a ≫= mNode).
  { specialize (H a). unfold nodeAt in H.
    destruct (heap s' !! a), (heap s !! a); cbn in *; congruence. }
  by rewrite Ha, IH.
Qed.

Lemma boundNodes_unbound s :
  (∀ a, a ∈ mCaches s → nodeAt (heap s) a = Some None) → boundNodes s = [].
Proof.
  unfold boundNodes. induction (mCaches s) as [|a l IH]; intros H; [done|].
  cbn. pose proof (H a ltac:(by left)) as Ha. unfold nodeAt in Ha.
  destruct (heap s !! a) as [c|]; [|done]. cbn in *. injection Ha as ->.
  apply IH. intros b Hb. apply H. by right.
Qed.

Lemma popCache_boundNodes s n :
  NoDup (boundNodes s) → NoDup (boundNodes (popCache s n).2).
Proof.
  unfold popCache. destruct (popFrom (heap s) n (mCaches s)) as [[a l]|] eqn:Hp;
    [|done].
  apply popFrom_Some in Hp as (_ & l1 & l2 & Hl & -> & _).
  unfold boundNodes. cbn. rewrite Hl, !omap_app. cbn.
  intros H. apply NoDup_app in H as (N1 & Nd & N2).
  apply NoDup_app. split; [done|].
  destruct (heap s !! a ≫= mNode) as [m|].
  - apply NoDup_cons in N2 as [_ N2]. split; [|done].
    intros x Hx Hx'. apply (Nd x Hx). by right.
  - by split.
Qed.

Lemma deserializeCaches_unbound : ∀ count s d ok s' d',
  deserializeCaches count s d = (ok, s', d') →
  (∀ a, a ∈ mCaches s → a < nextAddr s ∧ nodeAt (heap s) a = Some None) →
  ∀ a, a ∈ mCaches s' → a < nextAddr s' ∧ nodeAt (heap s') a = Some None.
Proof.
  induction count as [|count IH]; intros s d ok s' d' H Hinv.
  { cbn in H. by inversion H; subst. }
  cbn [deserializeCaches alloc] in H.
  set (s2 := withCaches _ _) in H.
  assert (Hinv2 : ∀ c, mNode c = None →
            ∀ a, a ∈ mCaches s2 →
                 a < nextAddr s2 ∧
                 nodeAt (<[nextAddr s := c]> (heap s2)) a = Some None).
  { intros c Hc a Ha. cbn in Ha. apply elem_of_app in Ha as [Ha|Ha].
    - destruct (Hinv a Ha) as [Hlt Hn]. cbn. split; [lia|].
      unfold nodeAt. rewrite !lookup_insert_ne by lia. exact Hn.
    - apply list_elem_of_singleton in Ha as ->. cbn. split; [lia|].
      unfold nodeAt. rewrite lookup_insert_eq. cbn. by rewrite Hc. }
  destruct (orderIDData d (SolveCacheNode (nextAddr s))) as [[] d1].
  2:{ cbn in H. inversion H; subst. intros a Ha.
      destruct (Hinv2 newCache eq_refl a Ha) as [? Hn]. split; [done|].
      subst s2. cbn in *. by rewrite insert_insert_eq in Hn. }
  cbn [negb] in H.
  destruct (readMatrix d1 identityMtx) as [innerMtx d2].
  destruct (readFrame d2 0%Z) as [fs d3].
  destruct (influenceDeserialize d3 (mInfluence newCache)) as [[ok' map] d4].
  set (cache := setInfluence _ _) in H.
  assert (Hinv3 : ∀ a, a ∈ mCaches (store s2 (nextAddr s) cache) →
            a < nextAddr (store s2 (nextAddr s) cache) ∧
            nodeAt (heap (store s2 (nextAddr s) cache)) a = Some None).
  { intros a Ha. by apply (Hinv2 cache eq_refl a Ha). }
  destruct ok'; cbn [negb] in H.
  - by apply (IH _ _ _ _ _ H Hinv3).
  - inversion H; subst. exact Hinv3.
Qed.

(** [deserialize] always returns, and every cache it built is still
    unbound when it does. *)
Lemma deserialize_unbound s d :
  ∃ ok s' d', deserialize s d = Some (ok, s', d') ∧ boundNodes s' = [].
Proof.
  destruct (deserialize_total s d) as [[[ok s'] d'] Hrun].
  exists ok, s', d'. split; [done|].
  apply boundNodes_unbound.
  unfold deserialize in Hrun.
  destruct (readInt _ _) as [topBoneCount d1].
  destruct (topBoneCount <? 0)%Z.
  { inversion Hrun; subst. intros a Ha. by apply elem_of_nil in Ha. }
  destruct (deserializeEach _ _ _ _) as [[[ok0 bones] d2]|]; [|done].
  destruct ok0; cbn [negb] in Hrun.
  2:{ inversion Hrun; subst. intros a Ha. by apply elem_of_nil in Ha. }
  destruct (orderIDData d2 SolveOwner) as [[] d3]; cbn [negb] in Hrun.
  2:{ inversion Hrun; subst. intros a Ha. by apply elem_of_nil in Ha. }
  destruct (readInt d3 0%Z) as [cacheCount d4].
  destruct (cacheCount <? 0)%Z.
  { inversion Hrun; subst. intros a Ha. by apply elem_of_nil in Ha. }
  destruct (deserializeCaches _ _ _) as [[ok2 s2] d5] eqn:Hc.
  assert (Hs2 : ∀ a, a ∈ mCaches s2 → nodeAt (heap s2) a = Some None).
  { intros a Ha. eapply (deserializeCaches_unbound _ _ _ _ _ _ Hc); [|done].
    intros b Hb. by apply elem_of_nil in Hb. }
  destruct ok2; cbn [negb] in Hrun; by inversion Hrun; subst.
Qed.

Lemma demoKey_wf : wfState demoKey.
Proof.
  destruct (resetCaches_spec demoProject freshKey demoScene freshKey_wf)
    as (s' & Hrun & Hwf & _).
  unfold demoKey. by rewrite Hrun.
Qed.

(** The invariant is one of the listed operations only.  The node
    references of a stream are bound later, by the post-load pass, as the
    stream gives them: for a stream with two records for the same node the
    pass leaves two caches bound to that node. *)
Lemma deserialize_binds_two_caches_to_one_node :
  ∃ s1 d1 s2,
    deserialize freshKey (openStream twinStream) = Some (true, s1, d1) ∧
    boundNodes s1 = [] ∧
    resolveOrders demoNodeOf (dOrders d1) s1 = Some s2 ∧
    boundNodes s2 = [1; 1] ∧
    ¬ NoDup (boundNodes s2).
Proof.
  eexists _, _, _. split; [by vm_compute|]. split; [by vm_compute|].
  split; [by vm_compute|]. split; [by vm_compute|].
  vm_compute. intros H. apply NoDup_cons in H as [H _]. apply H. by left.
Qed.

(** C9: after each Cache Set operation the collection has at most one
    cache bound to any node.  [resetCaches] (the nodes below the owner
    being distinct objects), [destroyCaches] and [deserialize] leave such
    a collection whatever the key held before: the first has one cache
    per node it kept, the other two have no bound cache at all.  The
    targeted [updateCaches] and [popCache] bind no cache and add none, so
    the collection they leave has the property whenever the one they
    found had it. *)
Theorem one_cache_per_node (P : Project) (s : State) (aOwner : ObjectNode)
  (roots : list ObjectNode) (n : NodeId) (d : Deserializer) :
  wfState s →
  (NoDup (iterate aOwner) →
   ∃ s', resetCaches P s aOwner = Ok s' ∧ NoDup (boundNodes s')) ∧
  (∀ s', updateCachesUnder P s aOwner roots = Ok s' →
         boundNodes s' = boundNodes s ∧
         (NoDup (boundNodes s) → NoDup (boundNodes s'))) ∧
  (NoDup (boundNodes s) → NoDup (boundNodes (popCache s n).2)) ∧
  NoDup (boundNodes (destroyCaches s)) ∧
  (∃ ok s' d', deserialize s d = Some (ok, s', d') ∧
               boundNodes s' = [] ∧ NoDup (boundNodes s')).
Proof.
  intros Hwf. split_and!.
  - intros Hscene.
    destruct (resetCaches_spec P s aOwner Hwf)
      as (s' & Hrun & _ & _ & _ & _ & Hmap).
    exists s'. split; [done|].
    rewrite (boundNodes_map s' _ Hmap). by apply NoDup_filter.
  - intros s' Hrun. unfold updateCachesUnder in Hrun.
    destruct (match mCacheOwner s with
              | Some o => bool_decide (o = nodeId aOwner)
              | None => true
              end); [|done].
    apply updateCaches_inv in Hrun as (_ & _ & E3 & _ & _ & _ & E7 & _).
    assert (boundNodes s' = boundNodes s) as ->; [|done].
    by apply boundNodes_nodeAt.
  - by apply popCache_boundNodes.
  - constructor.
  - destruct (deserialize_unbound s d) as (ok & s' & d' & Hrun & Hnone).
    exists ok, s', d'. rewrite Hnone. split_and!; try done. constructor.
Qed.

Lemma one_cache_per_node_witness :
  wfState demoKey ∧ NoDup (iterate demoScene) ∧ NoDup (boundNodes demoKey) ∧
  (∃ s', resetCaches demoProject demoKey demoScene = Ok s' ∧
         NoDup (boundNodes s')) ∧
  (∃ s', updateCachesUnder demoProject demoKey demoScene demoRoots = Ok s' ∧
         boundNodes s' = boundNodes demoKey ∧ NoDup (boundNodes s')) ∧
  NoDup (boundNodes (popCache demoKey 3).2) ∧
  NoDup (boundNodes (destroyCaches demoKey)) ∧
  (∃ ok s' d', deserialize demoKey (openStream twinStream) = Some (ok, s', d') ∧
               boundNodes s' = [] ∧ NoDup (boundNodes s')).
Proof.
  assert (Hscene : NoDup (iterate demoScene)).
  { apply (bool_decide_unpack _). by vm_compute. }
  assert (Hone : NoDup (boundNodes demoKey)).
  { apply (bool_decide_unpack _). by vm_compute. }
  destruct (one_cache_per_node demoProject demoKey demoScene demoRoots 3
              (openStream twinStream) demoKey_wf)
    as (H1 & H2 & H3 & H4 & H5).
  split; [exact demoKey_wf|]. split; [exact Hscene|]. split; [exact Hone|].
  split; [exact (H1 Hscene)|]. split.
  { eexists. split; [by vm_compute|].
    destruct (H2 _ ltac:(by vm_compute)) as [E N]. split; [exact E|exact (N Hone)]. }
  split; [exact (H3 Hone)|]. split; [exact H4|exact H5].
Defined.

(** ** Copies of a Data value *)

Lemma BoneObj_forall_ind (Q : BoneObj → Prop) :
  (∀ a f ks, Forall Q ks → Q (BObj a f ks)) → ∀ b, Q b.
Proof.
  intros Hstep. fix IH 1. intros [a f ks]. apply Hstep.
  induction ks as [|k ks IHks]; constructor; [apply IH|exact IHks].
Qed.

(** A clone has the shape of the original and consists of new objects
    only. *)
Lemma createClone_spec b : ∀ brk b' brk',
  createClone brk b = (b', brk') →
  shape b' = shape b ∧ brk < brk' ∧ ∀ a, a ∈ cells b' → brk ≤ a < brk'.
Proof.
  induction b as [a0 f ks IH] using BoneObj_forall_ind.
  intros brk b' brk' H. cbn in H.
  destruct (cloneEach createClone (S brk) ks) as [ks' brk1] eqn:Hks.
  inversion H; subst b' brk1. clear H.
  assert (Hloop : ∀ start ks' stop,
            cloneEach createClone start ks = (ks', stop) →
            map shape ks' = map shape ks ∧ start ≤ stop ∧
            ∀ a, a ∈ concat (map cells ks') → start ≤ a < stop).
  { clear Hks ks'. induction IH as [|k ks Hk _ IHks]; intros start ks' stop H.
    - cbn in H. inversion H; subst. split_and!; [done|lia|].
      intros a Ha. by apply elem_of_nil in Ha.
    - cbn in H.
      destruct (createClone start k) as [k' b1] eqn:Hk'.
      destruct (cloneEach createClone b1 ks) as [r' b2] eqn:Hr.
      inversion H; subst ks' stop. clear H.
      destruct (Hk _ _ _ Hk') as (S1 & L1 & C1).
      destruct (IHks _ _ _ Hr) as (S2 & L2 & C2).
      cbn. split_and!; [by rewrite S1, S2|lia|].
      intros a Ha. apply elem_of_app in Ha as [Ha|Ha].
      + specialize (C1 a Ha). lia.
      + specialize (C2 a Ha). lia. }
  destruct (Hloop _ _ _ Hks) as (S1 & L1 & C1).
  cbn. split_and!; [by rewrite S1|lia|].
  intros a Ha. apply elem_of_cons in Ha as [->|Ha]; [lia|].
  specialize (C1 a Ha). lia.
Qed.

Lemma pushClones_spec this : ∀ bones m,
  let m' := pushClones m this bones in
  (∃ clones, topBones m' this = topBones m this ++ clones ∧
             map shape clones = map shape bones ∧
             ∀ a, a ∈ concat (map cells clones) → boneBrk m ≤ a < boneBrk m') ∧
  boneBrk m ≤ boneBrk m' ∧
  ∀ d, d ≠ this → datas m' !! d = datas m !! d.
Proof.
  induction bones as [|b rest IH]; intros m; cbn.
  { split_and!; [|lia|done]. exists []. rewrite app_nil_r.
    split_and!; try done. intros a Ha. by apply elem_of_nil in Ha. }
  destruct (createClone (boneBrk m) b) as [b' brk'] eqn:Hb.
  apply createClone_spec in Hb as (Sb & Lb & Cb).
  set (m1 := mkDataHeap _ _).
  destruct (IH m1) as ((clones & Ht & Sc & Cc) & Lm & Hd).
  cbn in *. split_and!; [|lia|].
  - exists (b' :: clones). split_and!.
    + rewrite Ht. unfold topBones at 1. cbn. rewrite lookup_insert_eq. cbn.
      by rewrite <- app_assoc.
    + cbn. by rewrite Sb, Sc.
    + intros a Ha. cbn in Ha. apply elem_of_app in Ha as [Ha|Ha].
      * specialize (Cb a Ha). lia.
      * specialize (Cc a Ha). lia.
  - intros d Hne. rewrite (Hd d Hne). by rewrite lookup_insert_ne.
Qed.

(** Between two different objects the assignment does what the claim
    says: the source is untouched, the destination gets the same forest,
    made of objects that did not exist before. *)
Lemma dataAssign_distinct m this rhs :
  this ≠ rhs →
  let m' := dataAssign m this rhs in
  topBones m' rhs = topBones m rhs ∧
  map shape (topBones m' this) = map shape (topBones m rhs) ∧
  ∀ a, a ∈ concat (map cells (topBones m' this)) → boneBrk m ≤ a.
Proof.
  intros Hne. unfold dataAssign.
  set (m1 := dataDeleteAll m this).
  assert (Hrhs : topBones m1 rhs = topBones m rhs).
  { unfold topBones, m1. cbn. by rewrite lookup_insert_ne. }
  destruct (pushClones_spec this (topBones m1 rhs) m1)
    as ((clones & Ht & Sc & Cc) & _ & Hd).
  cbn. split_and!.
  - unfold topBones at 1. rewrite Hd by done. exact Hrhs.
  - rewrite Ht. unfold topBones at 1. cbn. rewrite lookup_insert_eq. cbn.
    by rewrite Sc, Hrhs.
  - intros a Ha. rewrite Ht in Ha. unfold topBones at 1 in Ha. cbn in Ha.
    rewrite lookup_insert_eq in Ha. cbn in Ha. by apply Cc in Ha as [? _].
Qed.

(** So does the copy constructor, for a new object. *)
Lemma dataCopy_fresh m this rhs :
  datas m !! this = None →
  let m' := dataCopy m this rhs in
  topBones m' rhs = topBones m rhs ∧
  map shape (topBones m' this) = map shape (topBones m rhs) ∧
  ∀ a, a ∈ concat (map cells (topBones m' this)) → boneBrk m ≤ a.
Proof.
  intros Hnew. unfold dataCopy.
  set (m1 := mkDataHeap _ _).
  assert (Hne : rhs = this → topBones m rhs = []).
  { intros ->. unfold topBones. by rewrite Hnew. }
  destruct (pushClones_spec this (topBones m rhs) m1)
    as ((clones & Ht & Sc & Cc) & _ & Hd).
  assert (Hthis : topBones (pushClones m1 this (topBones m rhs)) this = clones).
  { rewrite Ht. unfold topBones at 1. cbn. by rewrite lookup_insert_eq. }
  cbn. split_and!.
  - destruct (decide (rhs = this)) as [->|Hneq].
    + rewrite Hthis. rewrite (Hne eq_refl) in Sc |- *. by destruct clones.
    + unfold topBones at 1. rewrite Hd by done. cbn.
      unfold topBones. by rewrite lookup_insert_ne.
  - by rewrite Hthis.
  - intros a Ha. rewrite Hthis in Ha. by apply Cc in Ha as [? _].
Qed.

(** Assigning an object to itself empties it, whatever it held. *)
Lemma dataAssign_self m d : topBones (dataAssign m d d) d = [].
Proof.
  unfold dataAssign, topBones. cbn. rewrite lookup_insert_eq. cbn.
  by rewrite lookup_insert_eq.
Qed.

(** C8 (the code fails here): [d = d] runs [deleteAll()] on the object
    before the loop reads the bones of the right-hand side, which is the
    same object, so the forest is lost instead of kept. *)
Theorem dataAssign_self_loses_forest :
  map shape (topBones demoData 0) = [Bone [1]%Z [Bone [2]%Z []]] ∧
  topBones (dataAssign demoData 0 0) 0 = [].
Proof. split; [by vm_compute|]. apply dataAssign_self. Qed.

(** * Further properties of the cache collection *)

(** ** Lookup and removal *)

Lemma findIn_None h n : ∀ l,
  findIn h n l = None ↔ ∀ a, a ∈ l → nodeAt h a ≠ Some (Some n).
Proof.
  induction l as [|x l IH]; cbn.
  - split; [|done]. intros _ a Ha. by apply elem_of_nil in Ha.
  - destruct (boundTo h n x) eqn:Hx.
    + split; [done|]. intros H. exfalso. apply (H x); [by left|].
      by apply boundTo_nodeAt.
    + rewrite IH. split.
      * intros H a Ha. apply elem_of_cons in Ha as [->|Ha]; [|by apply H].
        rewrite <- boundTo_nodeAt. by rewrite Hx.
      * intros H a Ha. apply H. by right.
Qed.

(** X1: [findCache] answers with a cache of the collection that is bound to
    the node asked for, and misses exactly when the collection has no such
    cache; a cache whose node is gone is never found. *)
Theorem findCache_correct (s : State) (n : NodeId) :
  (∀ a, findCache s n = Some a →
        a ∈ mCaches s ∧ ∃ c, heap s !! a = Some c ∧ mNode c = Some n) ∧
  (findCache s n = None ↔
   ∀ a c, a ∈ mCaches s → heap s !! a = Some c → mNode c ≠ Some n).
Proof.
  unfold findCache. split.
  - intros a H. apply findIn_Some in H as [Hin Hnode]. split; [done|].
    unfold nodeAt in Hnode. destruct (heap s !! a) as [c|]; [|done].
    exists c. split; [done|]. cbn in Hnode. congruence.
  - rewrite findIn_None. split.
    + intros H a c Ha Hc Hn. apply (H a Ha). unfold nodeAt. rewrite Hc.
      cbn. by rewrite Hn.
    + intros H a Ha Hnode. unfold nodeAt in Hnode.
      destruct (heap s !! a) as [c|] eqn:Hc; [|done].
      apply (H a c Ha Hc). cbn in Hnode. congruence.
Qed.

Lemma popFrom_findIn h n : ∀ l,
  fst <$> popFrom h n l = findIn h n l.
Proof.
  induction l as [|x l IH]; cbn; [done|].
  destruct (boundTo h n x); [done|].
  rewrite <- IH. by destruct (popFrom h n l) as [[c r]|].
Qed.

Lemma findIn_app_skip h m l1 l2 a :
  boundTo h m a = false →
  findIn h m (l1 ++ a :: l2) = findIn h m (l1 ++ l2).
Proof.
  intros Ha. induction l1 as [|x l1 IH]; cbn.
  - by rewrite Ha.
  - destruct (boundTo h m x); [done|exact IH].
Qed.

(** X2: [popCache] hands out the cache [findCache] would find and takes that
    one pointer out of the collection; no cache object is touched, a miss
    changes nothing, and the lookup of every other node is as before. *)
Theorem popCache_findCache (s : State) (n : NodeId) :
  (fst (popCache s n)) = findCache s n ∧
  heap (snd (popCache s n)) = heap s ∧
  (findCache s n = None → (snd (popCache s n)) = s) ∧
  (∀ a, findCache s n = Some a →
        ∃ l1 l2, mCaches s = l1 ++ a :: l2 ∧
                 mCaches (snd (popCache s n)) = l1 ++ l2 ∧
                 findIn (heap s) n l1 = None) ∧
  (∀ m, m ≠ n → findCache (snd (popCache s n)) m = findCache s m).
Proof.
  unfold popCache, findCache.
  pose proof (popFrom_findIn (heap s) n (mCaches s)) as Hfind.
  destruct (popFrom (heap s) n (mCaches s)) as [[a l]|] eqn:Hp; cbn in *.
  - apply popFrom_Some in Hp as (Hb & l1 & l2 & Hl & -> & Hl1).
    split_and!; try done.
    + rewrite <- Hfind. done.
    + intros a' Ha'. rewrite <- Hfind in Ha'. injection Ha' as <-.
      exists l1, l2. split_and!; try done.
      apply findIn_None. intros b Hb' Hnode.
      apply boundTo_nodeAt in Hnode. by rewrite (Hl1 b Hb') in Hnode.
    + intros m Hm. rewrite Hl. symmetry. apply findIn_app_skip.
      destruct (boundTo (heap s) m a) eqn:Hma; [|done].
      apply boundTo_nodeAt in Hma, Hb. congruence.
  - split_and!; try done. rewrite <- Hfind. done.
Qed.

(** X3: While the collection has at most one cache per node, a node whose
    cache was popped has none left; the popped cache is out of the
    collection, which is one shorter, and the object itself is still
    alive, now in the hands of the caller. *)
Theorem popCache_removes (s : State) (n : NodeId) (a : addr) :
  wfState s → NoDup (boundNodes s) →
  findCache s n = Some a →
  findCache (snd (popCache s n)) n = None ∧
  (a ∉ mCaches (snd (popCache s n))) ∧
  S (length (mCaches (snd (popCache s n)))) = length (mCaches s) ∧
  is_Some (heap (snd (popCache s n)) !! a).
Proof.
  intros [Hnd Hlive _] Hone Hfind.
  destruct (popCache_findCache s n) as (_ & Hheap & _ & Hsplit & _).
  destruct (Hsplit a Hfind) as (l1 & l2 & Hl & Hl' & Hl1).
  apply findIn_Some in Hfind as [Hina Hnode].
  unfold boundNodes in Hone. rewrite Hl, omap_app in Hone. cbn in Hone.
  unfold nodeAt in Hnode.
  destruct (heap s !! a) as [c|] eqn:Hc; [|done]. cbn in Hnode, Hone.
  injection Hnode as Hn. rewrite Hn in Hone. cbn in Hone.
  apply NoDup_app in Hone as (_ & Hdisj & Hone2).
  apply NoDup_cons in Hone2 as [Hnot _].
  split_and!.
  - unfold findCache. rewrite Hheap, Hl'. apply findIn_None.
    intros b Hb Hbn. unfold nodeAt in Hbn.
    destruct (heap s !! b) as [cb|] eqn:Hcb; [|done]. cbn in Hbn.
    injection Hbn as Hbn.
    assert (Hin : ∀ l : list addr, b ∈ l → n ∈ omap (fun a => heap s !! a ≫= mNode) l).
    { intros l Hbl. apply list_elem_of_omap. exists b. split; [done|].
      rewrite Hcb. cbn. done. }
    apply elem_of_app in Hb as [Hb|Hb].
    + apply (Hdisj n (Hin l1 Hb)). by left.
    + by apply Hnot, Hin.
  - rewrite Hl'. rewrite Hl in Hnd.
    apply NoDup_app in Hnd as (_ & Hd & Hnd2).
    apply NoDup_cons in Hnd2 as [Hna _].
    intros Hin. apply elem_of_app in Hin as [Hin|Hin]; [|done].
    apply (Hd a Hin). by left.
  - rewrite Hl', Hl, !length_app. cbn. lia.
  - rewrite Hheap, Hc. eauto.
Qed.

Lemma popCache_removes_witness :
  wfState demoKey ∧ NoDup (boundNodes demoKey) ∧
  findCache demoKey 3 = Some 1 ∧
  findCache (snd (popCache demoKey 3)) 3 = None ∧
  (1 ∉ mCaches (snd (popCache demoKey 3))) ∧
  S (length (mCaches (snd (popCache demoKey 3)))) = length (mCaches demoKey) ∧
  is_Some (heap (snd (popCache demoKey 3)) !! 1).
Proof.
  assert (H2 : NoDup (boundNodes demoKey)).
  { apply (bool_decide_unpack _). by vm_compute. }
  assert (H3 : findCache demoKey 3 = Some 1) by (by vm_compute).
  split; [exact demoKey_wf|]. split; [exact H2|]. split; [exact H3|].
  exact (popCache_removes demoKey 3 1 demoKey_wf H2 H3).
Defined.

(** ** Tearing down and rebuilding *)

Lemma lookup_foldr_delete_in (h : gmap addr Cache) (l : list addr) a :
  a ∈ l → foldr delete h l !! a = None.
Proof.
  induction l as [|x l IH]; intros Hin; cbn.
  - by apply elem_of_nil in Hin.
  - destruct (decide (x = a)) as [->|Hne]; [by rewrite lookup_delete_eq|].
    rewrite lookup_delete_ne by done.
    apply elem_of_cons in Hin as [?|Hin]; [congruence|auto].
Qed.

(** X4: [destroyCaches] deletes exactly the caches of the collection, forgets
    the owner and leaves an empty collection in which no node has a cache;
    objects the collection did not hold are untouched, and doing it twice
    is the same as doing it once. *)
Theorem destroyCaches_frees (s : State) :
  let s' := destroyCaches s in
  mCaches s' = [] ∧ mCacheOwner s' = None ∧
  (∀ a, a ∈ mCaches s → heap s' !! a = None) ∧
  (∀ a, a ∉ mCaches s → heap s' !! a = heap s !! a) ∧
  (∀ n, findCache s' n = None) ∧
  mData s' = mData s ∧ nextAddr s' = nextAddr s ∧
  destroyCaches s' = s'.
Proof.
  cbn. split_and!; try done.
  - intros a Ha. by apply lookup_foldr_delete_in.
  - intros a Ha. by apply lookup_foldr_delete_notin.
Qed.

Lemma collectValid_origin P : ∀ nodes s acc s' acc',
  collectValid P s nodes acc = (s', acc') →
  nextAddr s ≤ nextAddr s' ∧
  (∀ a, a ∈ mCaches s' → a ∈ mCaches s) ∧
  (∀ a, a ∈ mCaches s → a ∈ mCaches s' ∨ a ∈ acc') ∧
  (∀ a, a ∈ acc → a ∈ acc') ∧
  (∀ a, a ∈ acc' →
        a ∈ acc ∨ a ∈ mCaches s ∨ nextAddr s ≤ a < nextAddr s') ∧
  (∀ a, a < nextAddr s → heap s' !! a = heap s !! a).
Proof.
  induction nodes as [|n rest IH]; intros s acc s' acc' H; cbn in H.
  { inversion H; subst. split_and!; auto. }
  destruct (hasVertices P s n); cbn in H; [|by apply IH].
  unfold popCache in H.
  destruct (popFrom (heap s) n (mCaches s)) as [[a l]|] eqn:Hp.
  - apply popFrom_Some in Hp as (_ & l1 & l2 & Hl & -> & _).
    apply IH in H as (R1 & R2 & R3 & R4 & R5 & R6). cbn in *.
    split_and!; try done.
    + intros b Hb. apply R2 in Hb. rewrite Hl.
      apply elem_of_app in Hb as [?|?]; apply elem_of_app; [by left|].
      right. by right.
    + intros b Hb. rewrite Hl in Hb.
      apply elem_of_app in Hb as [Hb|Hb].
      * apply R3. apply elem_of_app. by left.
      * apply elem_of_cons in Hb as [->|Hb].
        -- right. apply R4. apply elem_of_app. right. by left.
        -- apply R3. apply elem_of_app. by right.
    + intros b Hb. apply R4. apply elem_of_app. by left.
    + intros b Hb. destruct (R5 b Hb) as [Hacc|[Hin|?]]; [| |by right; right].
      * apply elem_of_app in Hacc as [?|Hba]; [by left|].
        apply list_elem_of_singleton in Hba as ->. right. left.
        rewrite Hl. apply elem_of_app. right. by left.
      * right. left. rewrite Hl.
        apply elem_of_app in Hin as [?|?]; apply elem_of_app; [by left|].
        right. by right.
  - cbn in H. apply IH in H as (R1 & R2 & R3 & R4 & R5 & R6). cbn in *.
    split_and!; try done.
    + lia.
    + intros b Hb. apply R4. apply elem_of_app. by left.
    + intros b Hb. destruct (R5 b Hb) as [Hacc|[Hin|?]].
      * apply elem_of_app in Hacc as [?|Hba]; [by left|].
        apply list_elem_of_singleton in Hba as ->. right. right. lia.
      * right. by left.
      * right. right. lia.
    + intros b Hb. rewrite R6 by lia. apply lookup_insert_ne. lia.
Qed.

(** X5: [resetCaches] neither leaks nor steals: a cache the key held before
    is either still in the collection or deleted; a cache in the new
    collection is either one of the old ones or newly allocated; an
    object the key did not hold is left as it was. *)
Theorem resetCaches_no_leak (P : Project) (s : State) (aOwner : ObjectNode) :
  wfState s →
  ∃ s', resetCaches P s aOwner = Ok s' ∧
        (∀ a, a ∈ mCaches s → a ∈ mCaches s' ∨ heap s' !! a = None) ∧
        (∀ a, a ∈ mCaches s' →
              a ∈ mCaches s ∨ nextAddr s ≤ a < nextAddr s') ∧
        (∀ a, a ∉ mCaches s → a < nextAddr s → heap s' !! a = heap s !! a).
Proof.
  intros Hwf. destruct (resetCaches_spec P s aOwner Hwf) as (s' & Hrun & _).
  exists s'. split; [done|]. destruct Hwf as [Hnd Hlive Hfresh].
  unfold resetCaches in Hrun.
  destruct (collectValid P s (iterate aOwner) []) as [s1 new] eqn:Hc.
  pose proof (collectValid_origin _ _ _ _ _ _ Hc) as (O1 & O2 & O3 & _ & O5 & O6).
  apply collectValid_spec in Hc as (R1 & _); rewrite ?app_nil_r; try done.
  apply NoDup_app in R1 as (_ & Ndisj & _).
  apply updateCaches_inv in Hrun as (_ & _ & E3 & _ & E5 & _ & _ & E8).
  cbn in E3, E5, E8. split_and!.
  - intros a Ha. rewrite E3. destruct (O3 a Ha) as [Hs1|Hnew]; [|by left].
    right. rewrite E8 by (by apply Ndisj). by apply lookup_foldr_delete_in.
  - intros a Ha. rewrite E3 in Ha. rewrite E5.
    destruct (O5 a Ha) as [Hnil|[?|?]]; [|by left|by right].
    by apply elem_of_nil in Hnil.
  - intros a Ha Hlt.
    assert (Hs1 : a ∉ mCaches s1) by (intros H; by apply Ha, O2).
    assert (Hnew : a ∉ new).
    { intros H. destruct (O5 a H) as [Hnil|[?|?]]; [|done|lia].
      by apply elem_of_nil in Hnil. }
    rewrite E8 by done. rewrite lookup_foldr_delete_notin by done. by apply O6.
Qed.

Lemma resetCaches_no_leak_witness :
  wfState demoKey ∧
  ∃ s', resetCaches strippedProject demoKey demoScene = Ok s' ∧
        (∀ a, a ∈ mCaches demoKey → a ∈ mCaches s' ∨ heap s' !! a = None) ∧
        (∀ a, a ∈ mCaches s' →
              a ∈ mCaches demoKey ∨ nextAddr demoKey ≤ a < nextAddr s') ∧
        (∀ a, a ∉ mCaches demoKey → a < nextAddr demoKey →
              heap s' !! a = heap demoKey !! a).
Proof.
  split; [exact demoKey_wf|].
  exact (resetCaches_no_leak strippedProject demoKey demoScene demoKey_wf).
Defined.

(** X6: [resetCaches] lists the caches in the order the iterator visits the
    nodes: the collection has one cache, bound to that node, for each
    visited node with vertices and nothing else; the owner is set, the
    forest and the frame are untouched and the ownership of the caches
    stays well formed. *)
Theorem resetCaches_order (P : Project) (s : State) (aOwner : ObjectNode) :
  wfState s →
  ∃ s', resetCaches P s aOwner = Ok s' ∧
        boundNodes s' =
          filter (fun n => hasVertices P s n = true) (iterate aOwner) ∧
        length (mCaches s') = length (boundNodes s') ∧
        mCacheOwner s' = Some (nodeId aOwner) ∧
        mData s' = mData s ∧ frame s' = frame s ∧
        wfState s'.
Proof.
  intros Hwf.
  destruct (resetCaches_spec P s aOwner Hwf)
    as (s' & Hrun & Hwf' & Hframe & Hdata & Howner & Hmap).
  exists s'. rewrite (boundNodes_map s' _ Hmap). split_and!; try done.
  rewrite <- (length_map (nodeAt (heap s'))), Hmap. by rewrite length_map.
Qed.

Lemma resetCaches_order_witness :
  wfState freshKey ∧
  ∃ s', resetCaches demoProject freshKey demoScene = Ok s' ∧
        boundNodes s' =
          filter (fun n => hasVertices demoProject freshKey n = true)
                 (iterate demoScene) ∧
        length (mCaches s') = length (boundNodes s') ∧
        mCacheOwner s' = Some (nodeId demoScene) ∧
        mData s' = mData freshKey ∧ frame s' = frame freshKey ∧
        wfState s'.
Proof.
  split; [exact freshKey_wf|].
  exact (resetCaches_order demoProject freshKey demoScene freshKey_wf).
Defined.

(** ** What the core recompute does to its targets *)

Lemma refreshTarget_result P o s a s' :
  refreshTarget P o s a = Ok s' →
  ∃ c c', heap s !! a = Some c ∧
          refreshCache P o (frame s) c = Some c' ∧
          heap s' = <[a := c']> (heap s).
Proof.
  unfold refreshTarget. intros H.
  destruct (heap s !! a) as [c|] eqn:Hc; [|done].
  exists c. unfold refreshCache, meshAt, refreshOf.
  destruct (mNode c) as [n|] eqn:Hn; [|done].
  destruct (getAreaMesh P n _) as [mesh|]; [|done].
  destruct (vertexCount mesh <=? 0)%Z; inversion H; subst; cbn;
    by eexists.
Qed.

Lemma allocate_again m n :
  allocate (allocate m n false) n false = allocate m n false.
Proof.
  unfold allocate at 2 3. cbn.
  destruct (mapVertexCount m =? n)%Z eqn:E.
  - unfold allocate. cbn. by rewrite E.
  - unfold allocate. cbn. by rewrite Z.eqb_refl.
Qed.

(** Refreshing a cache that was just refreshed changes nothing. *)
Lemma refreshCache_again P o fr c c' :
  refreshCache P o fr c = Some c' → refreshCache P o fr c' = Some c'.
Proof.
  unfold refreshCache. destruct (mNode c) as [n|] eqn:Hn; [|done].
  destruct (meshAt P fr n) as [mesh|] eqn:Hm; [|done].
  intros [= <-].
  assert (Hn' : mNode (refreshOf P o fr n mesh c) = Some n).
  { unfold refreshOf. by destruct (vertexCount mesh <=? 0)%Z. }
  rewrite Hn', Hm. f_equal. unfold refreshOf.
  destruct (vertexCount mesh <=? 0)%Z; [done|].
  cbn. by rewrite allocate_again.
Qed.

Lemma refreshTargets_result P o targets : ∀ s s',
  refreshTargets P o s targets = Ok s' →
  ∀ a, a ∈ targets →
       ∃ c c', heap s !! a = Some c ∧
               refreshCache P o (frame s) c = Some c' ∧
               heap s' !! a = Some c'.
Proof.
  induction targets as [|t rest IH]; intros s s' H a Ha; cbn in H.
  { by apply elem_of_nil in Ha. }
  destruct (refreshTarget P o s t) as [s1|] eqn:H1; [|done]. cbn in H.
  pose proof (refreshTarget_inv _ _ _ _ _ H1) as (Hfr & _).
  apply refreshTarget_result in H1 as (c & c' & Hc & Hr & Hh).
  destruct (decide (a ∈ rest)) as [Hin|Hnotin].
  - destruct (IH _ _ H a Hin) as (c1 & c1' & Hc1 & Hr1 & Hfin).
    rewrite Hfr in Hr1. rewrite Hh in Hc1.
    destruct (decide (t = a)) as [->|Hne].
    + rewrite lookup_insert_eq in Hc1. injection Hc1 as <-.
      exists c, c'. split_and!; try done.
      rewrite (refreshCache_again _ _ _ _ _ Hr) in Hr1. by rewrite Hfin, Hr1.
    + rewrite lookup_insert_ne in Hc1 by done. by exists c1, c1'.
  - apply elem_of_cons in Ha as [->|?]; [|done].
    exists c, c'. split_and!; try done.
    apply refreshTargets_inv in H as (_ & _ & _ & _ & _ & _ & _ & Hout).
    by rewrite (Hout t Hnotin), Hh, lookup_insert_eq.
Qed.

(** X7: The core recompute returns exactly when its list is empty, or the
    owner is set and every target is a live cache bound to a node that
    has a mesh. *)
Theorem updateCaches_returns_iff (P : Project) (s : State) (targets : list addr) :
  (∃ s', updateCaches P s targets = Ok s') ↔
  targets = [] ∨
  (is_Some (mCacheOwner s) ∧
   ∀ a, a ∈ targets →
        ∃ c n, heap s !! a = Some c ∧ mNode c = Some n ∧
               is_Some (meshAt P (frame s) n)).
Proof.
  unfold updateCaches. destruct targets as [|t rest]; [by split; eauto|].
  split.
  - intros [s' H]. right.
    destruct (mCacheOwner s) as [o|]; [|done]. split; [eauto|].
    destruct (refreshTargets P o (emit EvLockForWrite s) (t :: rest))
      as [s1|] eqn:H1; [|done].
    intros a Ha.
    destruct (refreshTargets_result _ _ _ _ _ H1 a Ha) as (c & c' & Hc & Hr & _).
    cbn in Hc, Hr. unfold refreshCache in Hr.
    destruct (mNode c) as [n|] eqn:Hn; [|done].
    destruct (meshAt P (frame s) n) as [mesh|] eqn:Hm; [|done].
    exists c, n. rewrite Hm. eauto.
  - intros [?|[[o Ho] Hall]]; [done|]. rewrite Ho.
    destruct (refreshTargets_ok P o (t :: rest) (emit EvLockForWrite s))
      as [s1 H1].
    + intros a Ha. destruct (Hall a Ha) as (c & n & Hc & Hn & Hm).
      exists n. cbn. unfold nodeAt. rewrite Hc. cbn. rewrite Hn. done.
    + rewrite H1. by eexists.
Qed.

(** X8: After the core recompute has returned, every target holds the frame
    sign of the mesh of its node; when that mesh has vertices it also holds
    the re-centred relative matrix and an influence map of the size of the
    mesh (its weights kept if the size did not change), and when the mesh
    has no vertex its matrix and influence map are as before.  This holds
    whatever the order of the targets and however often one occurs.
    Caches that are no target are unchanged. *)
Theorem updateCaches_refreshes (P : Project) (s s' : State)
  (targets : list addr) (owner : NodeId) :
  mCacheOwner s = Some owner →
  updateCaches P s targets = Ok s' →
  (∀ a, a ∈ targets →
        ∃ c n mesh,
          heap s !! a = Some c ∧ mNode c = Some n ∧
          meshAt P (frame s) n = Some mesh ∧
          heap s' !! a = Some (refreshOf P owner (frame s) n mesh c)) ∧
  (∀ a, a ∉ targets → heap s' !! a = heap s !! a).
Proof.
  intros Ho H. split.
  - intros a Ha. unfold updateCaches in H.
    destruct targets as [|t rest]; [by apply elem_of_nil in Ha|].
    rewrite Ho in H.
    destruct (refreshTargets P owner (emit EvLockForWrite s) (t :: rest))
      as [s1|] eqn:H1; [|done].
    cbn in H. inversion H; subst s'. cbn.
    destruct (refreshTargets_result _ _ _ _ _ H1 a Ha) as (c & c' & Hc & Hr & Hfin).
    cbn in Hc, Hr. unfold refreshCache in Hr.
    destruct (mNode c) as [n|] eqn:Hn; [|done].
    destruct (meshAt P (frame s) n) as [mesh|] eqn:Hm; [|done].
    injection Hr as <-. by exists c, n, mesh.
  - by apply updateCaches_inv in H as (_ & _ & _ & _ & _ & _ & _ & H8).
Qed.

Lemma updateCaches_refreshes_witness :
  mCacheOwner demoKey = Some 0 ∧
  ∃ s', updateCaches demoProject demoKey [1; 0; 1] = Ok s' ∧
  (∀ a, a ∈ [1; 0; 1] →
        ∃ c n mesh,
          heap demoKey !! a = Some c ∧ mNode c = Some n ∧
          meshAt demoProject (frame demoKey) n = Some mesh ∧
          heap s' !! a = Some (refreshOf demoProject 0 (frame demoKey) n mesh c)) ∧
  (∀ a, a ∉ [1; 0; 1] → heap s' !! a = heap demoKey !! a).
Proof.
  split; [by vm_compute|].
  eexists. split; [by vm_compute|].
  apply (updateCaches_refreshes demoProject demoKey _ [1; 0; 1] 0);
    by vm_compute.
Defined.

Lemma targetHasVertices_inv P s s' a :
  frame s' = frame s →
  nodeAt (heap s') a = nodeAt (heap s) a →
  targetHasVertices P s' a = targetHasVertices P s a.
Proof.
  intros Hf Hn. unfold targetHasVertices, nodeAt in *.
  destruct (heap s' !! a) as [c'|], (heap s !! a) as [c|]; cbn in *;
    try done.
  injection Hn as ->. destruct (mNode c); [|done].
  by apply hasVertices_frame.
Qed.

Lemma refreshTarget_trace_exact P o s a s' :
  refreshTarget P o s a = Ok s' →
  ∃ evs, trace s' = trace s ++ evs ∧ Forall isWriteAsync evs ∧
         writeRequests evs = if targetHasVertices P s a then [a] else [].
Proof.
  unfold refreshTarget, targetHasVertices, hasVertices. intros H.
  destruct (heap s !! a) as [c|]; [|done]. cbn.
  destruct (mNode c) as [n|]; [|done].
  destruct (getAreaMesh P n _) as [mesh|]; [|done].
  destruct (vertexCount mesh <=? 0)%Z; inversion H; subst; cbn.
  - exists []. by rewrite app_nil_r.
  - eexists [_]. split_and!; [done| |done]. by repeat constructor.
Qed.

Lemma refreshTargets_trace_exact P o targets : ∀ s s',
  refreshTargets P o s targets = Ok s' →
  ∃ evs, trace s' = trace s ++ evs ∧ Forall isWriteAsync evs ∧
         writeRequests evs =
         filter (fun a => targetHasVertices P s a = true) targets.
Proof.
  induction targets as [|t rest IH]; intros s s' H; cbn in H.
  { inversion H; subst. exists []. by rewrite app_nil_r. }
  destruct (refreshTarget P o s t) as [s1|] eqn:H1; [|done]. cbn in H.
  pose proof (refreshTarget_inv _ _ _ _ _ H1) as (Hfr & _).
  pose proof (fun b => refreshTarget_nodeAt _ _ _ _ _ b H1) as Hnode.
  apply refreshTarget_trace_exact in H1 as (e1 & T1 & W1 & R1).
  apply IH in H as (e2 & T2 & W2 & R2).
  exists (e1 ++ e2). split_and!.
  - by rewrite T2, T1, app_assoc.
  - by apply Forall_app.
  - unfold writeRequests in *. rewrite omap_app, R1, R2, filter_cons.
    assert (Hrest : filter (fun a => targetHasVertices P s1 a = true) rest =
                    filter (fun a => targetHasVertices P s a = true) rest).
    { apply list_filter_iff. intros b.
      by rewrite (targetHasVertices_inv P s s1 b Hfr (Hnode b)). }
    rewrite Hrest. destruct (targetHasVertices P s t); [by rewrite decide_True|].
    by rewrite decide_False.
Qed.

(** X9: A batch that is not empty and returns takes the write lock once, then
    issues one write request for each target whose mesh has vertices, in
    the order of the list, with the forest of the key, then wakes the
    workers, and only then lets the lock go. *)
Theorem updateCaches_trace_shape (P : Project) (s s' : State)
  (targets : list addr) :
  targets ≠ [] →
  updateCaches P s targets = Ok s' →
  ∃ writes,
    trace s' = trace s ++ EvLockForWrite :: writes ++ [EvWakeAll; EvUnlock] ∧
    Forall isWriteAsync writes ∧
    writeRequests writes =
      filter (fun a => targetHasVertices P s a = true) targets.
Proof.
  intros Hne H. unfold updateCaches in H.
  destruct targets as [|t rest]; [done|].
  destruct (mCacheOwner s) as [o|]; [|done].
  destruct (refreshTargets P o (emit EvLockForWrite s) (t :: rest))
    as [s1|] eqn:H1; [|done].
  cbn in H. inversion H; subst s'.
  apply refreshTargets_trace_exact in H1 as (evs & T & W & R).
  exists evs. cbn in *. split_and!; try done.
  rewrite T. rewrite <- !app_assoc. done.
Qed.

Lemma updateCaches_trace_shape_witness :
  [1; 0] ≠ @nil addr ∧
  ∃ s', updateCaches demoProject demoKey [1; 0] = Ok s' ∧
  ∃ writes,
    trace s' = trace demoKey ++
               EvLockForWrite :: writes ++ [EvWakeAll; EvUnlock] ∧
    Forall isWriteAsync writes ∧
    writeRequests writes =
      filter (fun a => targetHasVertices demoProject demoKey a = true) [1; 0].
Proof.
  split; [done|]. eexists. split; [by vm_compute|].
  apply (updateCaches_trace_shape demoProject demoKey _ [1; 0]); [done|].
  by vm_compute.
Defined.

Lemma updateCaches_result P s targets s' o :
  mCacheOwner s = Some o →
  updateCaches P s targets = Ok s' →
  ∀ a, a ∈ targets →
       ∃ c c', heap s !! a = Some c ∧
               refreshCache P o (frame s) c = Some c' ∧
               heap s' !! a = Some c'.
Proof.
  intros Ho H a Ha. unfold updateCaches in H.
  destruct targets as [|t rest]; [by apply elem_of_nil in Ha|].
  rewrite Ho in H.
  destruct (refreshTargets P o (emit EvLockForWrite s) (t :: rest))
    as [s1|] eqn:H1; [|done].
  cbn in H. inversion H; subst s'. cbn.
  exact (refreshTargets_result _ _ _ _ _ H1 a Ha).
Qed.

(** Every cache [resetCaches] hands back is in its refreshed state. *)
Lemma resetCaches_refreshed P s aOwner s' :
  wfState s → resetCaches P s aOwner = Ok s' →
  ∀ a, a ∈ mCaches s' →
       ∃ c, heap s' !! a = Some c ∧
            refreshCache P (nodeId aOwner) (frame s) c = Some c.
Proof.
  intros [Hnd Hlive Hfresh] Hrun a Ha. unfold resetCaches in Hrun.
  destruct (collectValid P s (iterate aOwner) []) as [s1 new] eqn:Hc.
  apply collectValid_spec in Hc as (_ & _ & _ & Hfr & _);
    rewrite ?app_nil_r; try done.
  pose proof (updateCaches_inv _ _ _ _ Hrun) as (_ & _ & E3 & _).
  rewrite E3 in Ha.
  destruct (fun H => updateCaches_result P _ _ _ (nodeId aOwner) H Hrun a Ha)
    as (c & c' & _ & Hr & Hfin); [done|].
  cbn in Hr. rewrite Hfr in Hr.
  exists c'. split; [done|]. by apply (refreshCache_again _ _ _ c).
Qed.

(** X10: A second [resetCaches] on an unchanged project changes no cache at
    all: the heap, the collection, the owner and the forest are what the
    first call left, and only the effects of another batch are added. *)
Theorem resetCaches_again_same (P : Project) (s : State) (aOwner : ObjectNode) :
  wfState s →
  ∃ s1 s2 evs,
    resetCaches P s aOwner = Ok s1 ∧
    resetCaches P s1 aOwner = Ok s2 ∧
    heap s2 = heap s1 ∧ mCaches s2 = mCaches s1 ∧
    mCacheOwner s2 = mCacheOwner s1 ∧ mData s2 = mData s1 ∧
    frame s2 = frame s1 ∧ nextAddr s2 = nextAddr s1 ∧
    trace s2 = trace s1 ++ evs.
Proof.
  intros Hwf.
  destruct (resetCaches_spec P s aOwner Hwf)
    as (s1 & Hrun1 & Hwf1 & Hframe & _ & Howner & Hmap).
  destruct (resetCaches_spec P s1 aOwner Hwf1) as (s2 & Hrun2 & _).
  pose proof (resetCaches_refreshed P s aOwner s1 Hwf Hrun1) as Hfix.
  assert (Hre : collectValid P s1 (iterate aOwner) [] =
                (withCaches s1 [], [] ++ mCaches s1)).
  { apply collectValid_reuse. rewrite Hmap.
    apply (f_equal (map _)), list_filter_iff. intros n.
    by rewrite (hasVertices_frame P s s1 n Hframe). }
  pose proof Hrun2 as Hrun2'.
  unfold resetCaches in Hrun2'. rewrite Hre in Hrun2'. cbn in Hrun2'.
  pose proof (updateCaches_trace _ _ _ _ Hrun2') as (evs & Htr & _).
  pose proof (fun H => updateCaches_result P _ _ _ (nodeId aOwner) H Hrun2')
    as Hres.
  specialize (Hres eq_refl).
  apply updateCaches_inv in Hrun2' as (E1 & E2 & E3 & E4 & E5 & _ & _ & E8).
  cbn in *. exists s1, s2, evs. split_and!; try done; try congruence.
  apply map_eq. intros a.
  destruct (decide (a ∈ mCaches s1)) as [Ha|Ha]; [|by apply E8].
  destruct (Hres a Ha) as (c & c' & Hc & Hr & Hfin).
  destruct (Hfix a Ha) as (c0 & Hc0 & Hr0).
  rewrite Hc in Hc0. injection Hc0 as <-.
  rewrite Hframe, Hr0 in Hr. injection Hr as <-. by rewrite Hfin, Hc.
Qed.

Lemma resetCaches_again_same_witness :
  wfState freshKey ∧
  ∃ s1 s2 evs,
    resetCaches demoProject freshKey demoScene = Ok s1 ∧
    resetCaches demoProject s1 demoScene = Ok s2 ∧
    heap s2 = heap s1 ∧ mCaches s2 = mCaches s1 ∧
    mCacheOwner s2 = mCacheOwner s1 ∧ mData s2 = mData s1 ∧
    frame s2 = frame s1 ∧ nextAddr s2 = nextAddr s1 ∧
    trace s2 = trace s1 ++ evs.
Proof.
  split; [exact freshKey_wf|].
  exact (resetCaches_again_same demoProject freshKey demoScene freshKey_wf).
Defined.

(** ** The targeted update at its edges *)

Lemma collectExisting_none s : ∀ nodes caches,
  (∀ n, n ∈ nodes → findCache s n = None) →
  collectExisting s nodes caches = caches.
Proof.
  induction nodes as [|n rest IH]; intros caches H; cbn; [done|].
  rewrite (H n) by (by left). apply IH. intros m Hm. apply H. by right.
Qed.

Lemma collectRoots_none s aOwner : ∀ roots caches,
  (∀ root, root ∈ roots →
           leftContainsRight aOwner root = false ∨
           ∀ n, n ∈ iterate root → findCache s n = None) →
  collectRoots s aOwner roots caches = caches.
Proof.
  induction roots as [|root rest IH]; intros caches H; cbn; [done|].
  assert (Hrest : collectRoots s aOwner rest caches = caches).
  { apply IH. intros r Hr. apply H. by right. }
  destruct (leftContainsRight aOwner root) eqn:Hl; cbn; [|done].
  destruct (H root) as [?|Hnone]; [by left|congruence|].
  by rewrite collectExisting_none.
Qed.

(** X11: Roots that are not below the owner, and nodes that have no cache,
    are passed over in silence: when nothing is collected the targeted
    update only records the owner; no lock is taken and no cache is
    touched.  An owner other than the one already set stops the call at
    its assertion, whatever the roots. *)
Theorem updateCachesUnder_nothing_to_do (P : Project) (s : State)
  (aOwner : ObjectNode) (roots : list ObjectNode) :
  (∀ root, root ∈ roots →
           leftContainsRight aOwner root = false ∨
           ∀ n, n ∈ iterate root → findCache s n = None) →
  updateCachesUnder P s aOwner roots =
  match mCacheOwner s with
  | Some o =>
    if bool_decide (o = nodeId aOwner)
    then Ok (withOwner s (Some (nodeId aOwner)))
    else Abort (AssertFailed "!mCacheOwner || mCacheOwner.get() == &aOwner")
  | None => Ok (withOwner s (Some (nodeId aOwner)))
  end.
Proof.
  intros H. unfold updateCachesUnder. rewrite collectRoots_none by done.
  destruct (mCacheOwner s) as [o|]; [|done]. by case_bool_decide.
Qed.

Lemma updateCachesUnder_nothing_to_do_witness :
  (∀ root, root ∈ [ONode 9 []; ONode 2 []] →
           leftContainsRight demoScene root = false ∨
           ∀ n, n ∈ iterate root → findCache demoKey n = None) ∧
  updateCachesUnder demoProject demoKey demoScene [ONode 9 []; ONode 2 []] =
  match mCacheOwner demoKey with
  | Some o =>
    if bool_decide (o = nodeId demoScene)
    then Ok (withOwner demoKey (Some (nodeId demoScene)))
    else Abort (AssertFailed "!mCacheOwner || mCacheOwner.get() == &aOwner")
  | None => Ok (withOwner demoKey (Some (nodeId demoScene)))
  end.
Proof.
  assert (H : ∀ root, root ∈ [ONode 9 []; ONode 2 []] →
           leftContainsRight demoScene root = false ∨
           ∀ n, n ∈ iterate root → findCache demoKey n = None).
  { intros root Hr. apply elem_of_cons in Hr as [->|Hr]; [by left|].
    apply list_elem_of_singleton in Hr as ->. right. intros n Hn.
    apply list_elem_of_singleton in Hn as ->. by vm_compute. }
  split; [exact H|].
  exact (updateCachesUnder_nothing_to_do demoProject demoKey demoScene _ H).
Defined.

Lemma collectExisting_mono s : ∀ nodes caches a,
  a ∈ caches → a ∈ collectExisting s nodes caches.
Proof.
  induction nodes as [|n rest IH]; intros caches a Ha; cbn; [done|].
  destruct (findCache s n) as [c|]; [|by apply IH].
  case_bool_decide; apply IH; [done|]. apply elem_of_app. by left.
Qed.

Lemma collectExisting_complete s : ∀ nodes caches n a,
  n ∈ nodes → findCache s n = Some a →
  a ∈ collectExisting s nodes caches.
Proof.
  induction nodes as [|m rest IH]; intros caches n a Hn Hf.
  { by apply elem_of_nil in Hn. }
  cbn. apply elem_of_cons in Hn as [<-|Hn].
  - rewrite Hf. case_bool_decide; apply collectExisting_mono; [done|].
    apply elem_of_app. right. by left.
  - destruct (findCache s m) as [c|]; [|by apply (IH _ n)].
    case_bool_decide; by apply (IH _ n).
Qed.

Lemma bound_unique (h : gmap addr Cache) (l : list addr) a b n :
  NoDup (omap (fun a => h !! a ≫= mNode) l) →
  a ∈ l → b ∈ l →
  nodeAt h a = Some (Some n) → nodeAt h b = Some (Some n) → a = b.
Proof.
  intros Hnd Ha Hb Hna Hnb.
  assert (Hf : ∀ x, nodeAt h x = Some (Some n) → h !! x ≫= mNode = Some n).
  { intros x Hx. unfold nodeAt in Hx. destruct (h !! x) as [c|]; [|done].
    cbn in *. congruence. }
  apply Hf in Hna, Hnb. clear Hf.
  induction l as [|x l IH]; [by apply elem_of_nil in Ha|].
  cbn in Hnd.
  assert (Hin : ∀ y, y ∈ l → h !! y ≫= mNode = Some n →
                     n ∈ omap (fun a => h !! a ≫= mNode) l).
  { intros y Hy Hyn. apply list_elem_of_omap. by exists y. }
  apply elem_of_cons in Ha as [->|Ha]; apply elem_of_cons in Hb as [->|Hb];
    try done.
  - rewrite Hna in Hnd. apply NoDup_cons in Hnd as [Hnot _].
    exfalso. by apply Hnot, (Hin b).
  - rewrite Hnb in Hnd. apply NoDup_cons in Hnd as [Hnot _].
    exfalso. by apply Hnot, (Hin a).
  - apply IH; try done. destruct (h !! x ≫= mNode); [|done].
    by apply NoDup_cons in Hnd as [_ ?].
Qed.

(** X12: With the owner itself as the only root, the targeted update works on
    the whole collection, each cache once, as long as the collection has
    one cache per node and every cache belongs to a node below the
    owner. *)
Theorem updateCachesUnder_owner_is_root (s : State) (aOwner : ObjectNode) :
  NoDup (mCaches s) → NoDup (boundNodes s) →
  (∀ a, a ∈ mCaches s →
        ∃ n, n ∈ iterate aOwner ∧ nodeAt (heap s) a = Some (Some n)) →
  collectRoots s aOwner [aOwner] [] ≡ₚ mCaches s.
Proof.
  intros Hnd Hone Hall.
  destruct (collectRoots_spec s aOwner [aOwner] []) as [Hndc Hin];
    [constructor|].
  apply NoDup_Permutation; try done. intros a. split.
  - intros Ha. destruct (Hin a Ha) as [Hnil|[? _]]; [|done].
    by apply elem_of_nil in Hnil.
  - intros Ha. destruct (Hall a Ha) as (n & Hn & Hnode).
    cbn. unfold leftContainsRight.
    rewrite bool_decide_true by (destruct aOwner; cbn; by left). cbn.
    destruct (findCache s n) as [a'|] eqn:Hf.
    + pose proof Hf as Hf'. apply findIn_Some in Hf' as [Ha' Hnode'].
      assert (a' = a) as -> by (by eapply (bound_unique (heap s) (mCaches s))).
      by apply (collectExisting_complete s _ _ n).
    + exfalso. unfold findCache in Hf.
      rewrite findIn_None in Hf. by apply (Hf a Ha).
Qed.

Lemma updateCachesUnder_owner_is_root_witness :
  NoDup (mCaches demoKey) ∧ NoDup (boundNodes demoKey) ∧
  (∀ a, a ∈ mCaches demoKey →
        ∃ n, n ∈ iterate demoScene ∧ nodeAt (heap demoKey) a = Some (Some n)) ∧
  collectRoots demoKey demoScene [demoScene] [] ≡ₚ mCaches demoKey.
Proof.
  assert (H1 : NoDup (mCaches demoKey)) by apply demoKey_wf.
  assert (H2 : NoDup (boundNodes demoKey)).
  { apply (bool_decide_unpack _). by vm_compute. }
  assert (H3 : ∀ a, a ∈ mCaches demoKey →
        ∃ n, n ∈ iterate demoScene ∧ nodeAt (heap demoKey) a = Some (Some n)).
  { intros a Ha. change (mCaches demoKey) with [0; 1] in Ha.
    apply elem_of_cons in Ha as [->|Ha].
    - exists 1. split; [|by vm_compute]. apply (bool_decide_unpack _). by vm_compute.
    - apply list_elem_of_singleton in Ha as ->.
      exists 3. split; [|by vm_compute]. apply (bool_decide_unpack _). by vm_compute. }
  split; [exact H1|]. split; [exact H2|]. split; [exact H3|].
  exact (updateCachesUnder_owner_is_root demoKey demoScene H1 H2 H3).
Defined.

(** * Further properties of the stream format *)

(** ** What serialize writes *)

(** X13: On a stream in good state and with live cache pointers, [serialize]
    returns true and appends exactly: the number of top bones, the record
    of each top bone (child count, own fields, the records of the children,
    depth first), the reference of the owner, the number of caches and,
    for each cache in collection order, node reference, inner matrix,
    frame sign and influence data.  What was in the stream before is
    kept. *)
Theorem serialize_layout (s : State) (o : Serializer) :
  sFailed o = false →
  (∀ a, a ∈ mCaches s → is_Some (heap s !! a)) →
  ∃ o', serialize s o = Ok (true, o') ∧
        sFailed o' = false ∧
        sOut o' =
          sOut o ++
          IInt (Z.of_nat (length (mData s))) :: encodeBones (mData s) ++
          IID (idOf o (mCacheOwner s)) ::
          IInt (Z.of_nat (length (mCaches s))) ::
          encodeCaches (idOf o) (cacheValues s).
Proof.
  intros Ho Hlive. rewrite serialize_encode by done.
  eexists. split; [done|]. by cbn.
Qed.

Lemma serialize_layout_witness :
  sFailed (newStream demoIdOf) = false ∧
  (∀ a, a ∈ mCaches demoBoneKey → is_Some (heap demoBoneKey !! a)) ∧
  ∃ o', serialize demoBoneKey (newStream demoIdOf) = Ok (true, o') ∧
        sFailed o' = false ∧
        sOut o' =
          sOut (newStream demoIdOf) ++
          IInt (Z.of_nat (length (mData demoBoneKey))) ::
          encodeBones (mData demoBoneKey) ++
          IID (idOf (newStream demoIdOf) (mCacheOwner demoBoneKey)) ::
          IInt (Z.of_nat (length (mCaches demoBoneKey))) ::
          encodeCaches (idOf (newStream demoIdOf)) (cacheValues demoBoneKey).
Proof.
  split; [done|]. split; [exact demoBoneKey_live|].
  exact (serialize_layout demoBoneKey (newStream demoIdOf) eq_refl
           demoBoneKey_live).
Defined.

Lemma serializeBone_failed o b :
  sFailed o = true → ∃ o', serializeBone o b = (false, o').
Proof.
  intros Ho. destruct b as [f cs]. cbn. unfold checkStreamOut. cbn.
  rewrite Ho. cbn. by eexists.
Qed.

(** X14: On a stream that has already failed [serialize] never reports
    success. *)
Theorem serialize_failed_stream (s : State) (o o' : Serializer) (ok : bool) :
  sFailed o = true →
  serialize s o = Ok (ok, o') → ok = false.
Proof.
  intros Ho. unfold serialize.
  set (o1 := write o _).
  assert (Ho1 : sFailed o1 = true) by done.
  destruct (mData s) as [|b bs]; cbn.
  - destruct (mCaches s) as [|a cs]; cbn.
    + unfold checkStreamOut. cbn. rewrite Ho. by intros [= <- _].
    + destruct (heap s !! a) as [c|]; [|done]. cbn.
      unfold checkStreamOut. cbn. rewrite Ho. cbn. by intros [= <- _].
  - destruct (serializeBone_failed o1 b Ho1) as [o2 ->]. cbn.
    by intros [= <- _].
Qed.

Lemma serialize_failed_stream_witness :
  sFailed (mkSerializer [] true demoIdOf) = true ∧
  ∃ o', serialize demoBoneKey (mkSerializer [] true demoIdOf) = Ok (false, o').
Proof.
  split; [done|].
  destruct (serialize demoBoneKey (mkSerializer [] true demoIdOf))
    as [[ok o']|f] eqn:H; [|by vm_compute in H].
  rewrite (serialize_failed_stream demoBoneKey (mkSerializer [] true demoIdOf)
             o' ok eq_refl H).
  by eexists.
Defined.

(** ** What deserialize accepts *)

Lemma withIn_same d : withIn d (dIn d) = d.
Proof. by destruct d. Qed.

Lemma nextItem_Some d i d1 :
  nextItem d = Some (i, d1) →
  dFailed d = false ∧ dIn d = i :: dIn d1 ∧ d1 = withIn d (dIn d1).
Proof.
  unfold nextItem. destruct (dFailed d) eqn:Hf; [done|].
  destruct (dIn d) as [|j rest] eqn:Hi; [done|]. by intros [= <- <-].
Qed.

Lemma int32Items_app_r l1 l2 : int32Items (l1 ++ l2) → int32Items l2.
Proof. intros H z Hz. apply H. apply elem_of_app. by right. Qed.

Lemma deserializeEach_sound one :
  (∀ d b d', int32Items (dIn d) → one d = Some (true, b, d') →
             dFailed d = false ∧ d' = withIn d (dIn d') ∧
             dIn d = encodeBone b ++ dIn d' ∧ fitsInt b) →
  ∀ count acc d bs d',
    int32Items (dIn d) →
    deserializeEach one count acc d = Some (true, bs, d') →
    ∃ new, bs = acc ++ new ∧ length new = count ∧
           d' = withIn d (dIn d') ∧
           dIn d = encodeBones new ++ dIn d' ∧ Forall fitsInt new.
Proof.
  intros Hone. induction count as [|count IH]; intros acc d bs d' Hint H;
    cbn in H.
  { inversion H; subst. exists []. rewrite app_nil_r, withIn_same.
    by split_and!. }
  destruct (one d) as [[[ok b] d1]|] eqn:H1; [|done].
  destruct ok; cbn in H; [|done].
  destruct (Hone _ _ _ Hint H1) as (Hf & Hd1 & Hin1 & Hfit).
  assert (Hint1 : int32Items (dIn d1)).
  { rewrite Hin1 in Hint. by apply int32Items_app_r in Hint. }
  destruct (IH _ _ _ _ Hint1 H) as (new & -> & Hlen & Hd' & Hin & Hfits).
  exists (b :: new). split_and!.
  - by rewrite <- app_assoc.
  - cbn. by rewrite Hlen.
  - rewrite Hd', Hd1. done.
  - rewrite Hin1, Hin. unfold encodeBones. cbn. by rewrite <- app_assoc.
  - by constructor.
Qed.

(** A bone is decoded with success only from its own record. *)
Lemma deserializeBoneAt_sound : ∀ depth d b d',
  int32Items (dIn d) →
  deserializeBoneAt depth d = Some (true, b, d') →
  dFailed d = false ∧ d' = withIn d (dIn d') ∧
  dIn d = encodeBone b ++ dIn d' ∧ fitsInt b.
Proof.
  induction depth as [|depth IH]; intros d b d' Hint H; [done|].
  cbn [deserializeBoneAt] in H. unfold readInt in H.
  destruct (nextItem d) as [[i d1]|] eqn:Hn.
  2:{ cbn in H. unfold boneDeserialize, nextItem in H. cbn in H. done. }
  destruct i as [z| | | | |];
    try (cbn in H; unfold boneDeserialize, nextItem in H; cbn in H; done).
  apply nextItem_Some in Hn as (Hf & Hin & Hd1).
  destruct (z <? 0)%Z eqn:Hz; [done|]. apply Z.ltb_ge in Hz.
  unfold boneDeserialize in H.
  destruct (nextItem d1) as [[j d2]|] eqn:Hn2; [|done].
  destruct j as [| | | |f|]; try done.
  apply nextItem_Some in Hn2 as (Hf1 & Hin1 & Hd2).
  cbn [negb] in H.
  destruct (deserializeEach (deserializeBoneAt depth) (Z.to_nat z) [] d2)
    as [[[ok cs] d3]|] eqn:He; [|done].
  destruct ok; cbn [negb] in H; [|done].
  injection H as Hc <- <-.
  assert (Hint2 : int32Items (dIn d2)).
  { rewrite Hin, Hin1 in Hint.
    apply (int32Items_app_r [IInt z; IBone f]). exact Hint. }
  destruct (deserializeEach_sound _ IH _ _ _ _ _ Hint2 He)
    as (new & Hcs & Hlen & Hd3 & Hin2 & Hfits).
  cbn in Hcs. subst cs.
  assert (Hz32 : (z < 2 ^ 31)%Z).
  { apply (Hint z). rewrite Hin. by left. }
  split_and!.
  - done.
  - rewrite Hd3, Hd2, Hd1. done.
  - rewrite Hin, Hin1, Hin2. cbn. rewrite Hlen, Z2Nat.id by done.
    rewrite toInt_small by lia. done.
  - cbn. rewrite Hlen, Z2Nat.id by done. split; [done|].
    clear -Hfits. induction Hfits; cbn; [done|by split].
Qed.

(** X15: Over a stream of 32-bit ints [deserializeBone] succeeds on exactly
    the records [serializeBone] writes: it returns true with bone [b] and
    the rest of the stream if and only if the stream is in good state,
    starts with the record of [b], and every child count of [b] fits an
    int; nothing but the read position changes. *)
Theorem deserializeBone_accepts (d d' : Deserializer) (b : Bone2) :
  int32Items (dIn d) →
  deserializeBone d = Some (true, b, d') ↔
  dFailed d = false ∧ fitsInt b ∧
  dIn d = encodeBone b ++ dIn d' ∧ d' = withIn d (dIn d').
Proof.
  intros Hint. split.
  - intros H. apply deserializeBoneAt_sound in H; [|done]. tauto.
  - intros (Hf & Hfit & Hin & Hd').
    rewrite <- (withIn_same d), Hin, Hd'.
    rewrite deserializeBone_encode by done. done.
Qed.

Lemma deserializeBone_accepts_witness :
  int32Items [IInt 1; IBone [5]; IInt 0; IBone [6]; IInt 7]%Z ∧
  (deserializeBone (openStream [IInt 1; IBone [5]; IInt 0; IBone [6]; IInt 7]%Z)
   = Some (true, Bone [5]%Z [Bone [6]%Z []], openStream [IInt 7]%Z) ↔
   dFailed (openStream [IInt 1; IBone [5]; IInt 0; IBone [6]; IInt 7]%Z) = false ∧
   fitsInt (Bone [5]%Z [Bone [6]%Z []]) ∧
   dIn (openStream [IInt 1; IBone [5]; IInt 0; IBone [6]; IInt 7]%Z) =
     encodeBone (Bone [5]%Z [Bone [6]%Z []]) ++ dIn (openStream [IInt 7]%Z) ∧
   openStream [IInt 7]%Z =
     withIn (openStream [IInt 1; IBone [5]; IInt 0; IBone [6]; IInt 7]%Z)
            (dIn (openStream [IInt 7]%Z))).
Proof.
  assert (H : int32Items [IInt 1; IBone [5]; IInt 0; IBone [6]; IInt 7]%Z).
  { intros z Hz. repeat (apply elem_of_cons in Hz as [Hz|Hz];
      [try done; injection Hz as ->; lia|]). by apply elem_of_nil in Hz. }
  split; [exact H|].
  exact (deserializeBone_accepts
           (openStream [IInt 1; IBone [5]; IInt 0; IBone [6]; IInt 7]%Z)
           (openStream [IInt 7]%Z) (Bone [5]%Z [Bone [6]%Z []]) H).
Defined.

Lemma readMatrix_good d dflt m d2 :
  readMatrix d dflt = (m, d2) → dFailed d2 = false →
  dFailed d = false ∧ dIn d = IMatrix m :: dIn d2 ∧ d2 = withIn d (dIn d2).
Proof.
  unfold readMatrix. destruct (nextItem d) as [[i d1]|] eqn:Hn.
  - destruct i; try (by intros [= _ <-]).
    intros [= <- <-] _. by apply nextItem_Some.
  - by intros [= _ <-].
Qed.

Lemma readFrame_good d dflt f d2 :
  readFrame d dflt = (f, d2) → dFailed d2 = false →
  dFailed d = false ∧ dIn d = IFrame f :: dIn d2 ∧ d2 = withIn d (dIn d2).
Proof.
  unfold readFrame. destruct (nextItem d) as [[i d1]|] eqn:Hn.
  - destruct i; try (by intros [= _ <-]).
    intros [= <- <-] _. by apply nextItem_Some.
  - by intros [= _ <-].
Qed.

Lemma readInt_good d dflt z d2 :
  readInt d dflt = (z, d2) → dFailed d2 = false →
  dFailed d = false ∧ dIn d = IInt z :: dIn d2 ∧ d2 = withIn d (dIn d2).
Proof.
  unfold readInt. destruct (nextItem d) as [[i d1]|] eqn:Hn.
  - destruct i; try (by intros [= _ <-]).
    intros [= <- <-] _. by apply nextItem_Some.
  - by intros [= _ <-].
Qed.

Lemma influenceDeserialize_good d m m' d2 :
  influenceDeserialize d m = (true, m', d2) →
  dFailed d = false ∧ d2 = withIn d (dIn d2) ∧
  dIn d = IInfluence (mapVertexCount m') (weights m') :: dIn d2 ∧
  maxBoneCount m' = maxBoneCount m.
Proof.
  unfold influenceDeserialize. destruct (nextItem d) as [[i d1]|] eqn:Hn; [|done].
  destruct i; try done. intros [= <- <-].
  apply nextItem_Some in Hn as (? & ? & ?). by split_and!.
Qed.

Lemma orderIDData_good d solver d2 :
  orderIDData d solver = (true, d2) →
  ∃ id, dFailed d = false ∧ dIn d = IID id :: dIn d2 ∧
        d2 = withOrders (withIn d (dIn d2)) (dOrders d ++ [(id, solver)]).
Proof.
  unfold orderIDData. destruct (nextItem d) as [[i d1]|] eqn:Hn; [|done].
  destruct i as [|id| | | |]; try done. intros [= <-].
  apply nextItem_Some in Hn as (? & ? & Hd1). exists id. cbn.
  split_and!; try done. rewrite Hd1. done.
Qed.

Lemma omap_lookup_seq (h : gmap addr Cache) cs : ∀ base,
  (∀ i c, cs !! i = Some c → h !! (base + i) = Some c) →
  omap (fun a => h !! a) (seq base (length cs)) = cs.
Proof.
  induction cs as [|c cs IH]; intros base H; [done|].
  cbn. pose proof (H 0 c eq_refl) as H0. rewrite Nat.add_0_r in H0.
  rewrite H0. cbn. f_equal. apply IH. intros i c' Hc'.
  replace (S base + i) with (base + S i) by lia. by apply H.
Qed.

(** The cache loop succeeds only on a run of well-formed cache records
    and builds one unbound cache per record. *)
Lemma deserializeCaches_sound : ∀ count s d s' d',
  deserializeCaches count s d = (true, s', d') →
  ∃ ids cs,
    length ids = count ∧ length cs = count ∧
    mCaches s' = mCaches s ++ seq (nextAddr s) count ∧
    nextAddr s' = nextAddr s + count ∧
    mData s' = mData s ∧ mCacheOwner s' = mCacheOwner s ∧
    (∀ i c, cs !! i = Some c →
            heap s' !! (nextAddr s + i) = Some c ∧ mNode c = None) ∧
    (∀ a, a < nextAddr s → heap s' !! a = heap s !! a) ∧
    dIn d = concat (zip_with cacheItems ids cs) ++ dIn d' ∧
    (dFailed d = false → dFailed d' = false) ∧
    d' = withOrders (withIn d (dIn d'))
           (dOrders d ++ zip ids (SolveCacheNode <$> seq (nextAddr s) count)).
Proof.
  induction count as [|count IH]; intros s d s' d' H.
  { cbn in H. inversion H; subst. exists [], []. cbn.
    rewrite !app_nil_r, Nat.add_0_r. split_and!; try done.
    by destruct d'. }
  cbn [deserializeCaches alloc] in H.
  destruct (orderIDData d (SolveCacheNode (nextAddr s))) as [[] d1] eqn:Ho;
    [|done].
  cbn [negb] in H.
  destruct (readMatrix d1 identityMtx) as [innerMtx d2] eqn:Hm.
  destruct (readFrame d2 0%Z) as [fs d3] eqn:Hf.
  destruct (influenceDeserialize d3 (mInfluence newCache))
    as [[ok' map] d4] eqn:Hi.
  destruct ok'; cbn [negb] in H; [|done].
  apply influenceDeserialize_good in Hi as (F3 & D4 & I3 & _).
  apply readFrame_good in Hf as (F2 & I2 & D3); [|done].
  apply readMatrix_good in Hm as (F1 & I1 & D2); [|done].
  apply orderIDData_good in Ho as (id & F0 & I0 & D1).
  set (cache := setInfluence _ _) in H.
  apply IH in H
    as (ids & cs & L1 & L2 & E1 & E2 & E3 & E4 & E5 & E6 & E7 & E8 & E9).
  cbn in E1, E2, E3, E4, E5, E6.
  exists (id :: ids), (cache :: cs). split_and!.
  - cbn. by rewrite L1.
  - cbn. by rewrite L2.
  - rewrite E1. cbn. by rewrite <- app_assoc.
  - rewrite E2. lia.
  - done.
  - done.
  - intros [|i] c Hc; cbn in Hc.
    + injection Hc as <-. rewrite Nat.add_0_r, E6 by lia.
      rewrite lookup_insert_eq. done.
    + replace (nextAddr s + S i) with (S (nextAddr s) + i) by lia.
      by apply E5.
  - intros a Ha. rewrite E6 by lia. rewrite !lookup_insert_ne by lia. done.
  - rewrite I0, I1, I2, I3, E7. done.
  - intros _. apply E8. rewrite D4. done.
  - rewrite E9. rewrite D4, D3, D2, D1. cbn. unfold withOrders. cbn.
    by rewrite <- app_assoc.
Qed.

(** What a successful [deserialize] has read and built. *)
Lemma deserialize_true_inv (s s' : State) (d d' : Deserializer) :
  int32Items (dIn d) →
  deserialize s d = Some (true, s', d') →
  ∃ oid ids cs,
    dIn d =
      IInt (Z.of_nat (length (mData s'))) :: encodeBones (mData s') ++
      IID oid :: IInt (Z.of_nat (length (mCaches s'))) ::
      concat (zip_with cacheItems ids cs) ++ dIn d' ∧
    Forall fitsInt (mData s') ∧
    length ids = length cs ∧
    cacheValues s' = cs ∧
    mCaches s' = seq (nextAddr s) (length cs) ∧
    (∀ i c, cs !! i = Some c →
            heap s' !! (nextAddr s + i) = Some c ∧ mNode c = None) ∧
    dOrders d' =
      dOrders d ++ (oid, SolveOwner) :: zip ids (SolveCacheNode <$> mCaches s') ∧
    dScopes d' = dScopes d ∧ dLog d' = dLog d ∧
    dFailed d = false ∧ dFailed d' = false ∧
    mCacheOwner s' = None.
Proof.
  intros Hint H.
  unfold deserialize in H.
  destruct (readInt (pushLogScope d "BoneKey") 0%Z) as [n d1] eqn:Hr1.
  destruct (n <? 0)%Z eqn:Hn; [done|]. apply Z.ltb_ge in Hn.
  destruct (deserializeEach deserializeBone (Z.to_nat n) [] d1)
    as [[[ok bones] d2]|] eqn:He; [|done].
  destruct ok; cbn [negb] in H; [|done].
  destruct (orderIDData d2 SolveOwner) as [[] d3] eqn:Ho; cbn [negb] in H;
    [|done].
  destruct (readInt d3 0%Z) as [m d4] eqn:Hr2.
  destruct (m <? 0)%Z eqn:Hm; [done|]. apply Z.ltb_ge in Hm.
  destruct (deserializeCaches (Z.to_nat m) _ d4) as [[ok2 s2] d5] eqn:Hc.
  destruct ok2; cbn [negb] in H; [|done].
  injection H as Hcheck <- <-.
  apply orderIDData_good in Ho as (oid & F2 & I2 & D3).
  apply deserializeCaches_sound in Hc
    as (ids & cs & L1 & L2 & E1 & E2 & E3 & E4 & E5 & E6 & E7 & E8 & E9).
  cbn in E1, E2, E3, E4, E5, E6.
  assert (F5 : dFailed d5 = false).
  { unfold checkStream in Hcheck. cbn in Hcheck.
    by destruct (dFailed d5). }
  assert (F4 : dFailed d4 = false).
  { rewrite E9 in F5. exact F5. }
  apply readInt_good in Hr2 as (F3 & I3 & D4); [|done].
  assert (F1 : dFailed d1 = false).
  { destruct (Z.to_nat n) as [|k] eqn:Hk.
    - cbn in He. by inversion He; subst.
    - cbn [deserializeEach] in He.
      destruct (deserializeBone d1) as [[[okb b] db]|] eqn:Hb; [|done].
      destruct okb; cbn [negb] in He; [|done].
      unfold deserializeBone in Hb.
      assert (Hd1 : dFailed d1 = false ∨ dFailed d1 = true)
        by (destruct (dFailed d1); auto).
      destruct Hd1 as [?|Hbad]; [done|]. exfalso.
      cbn in Hb. unfold readInt, nextItem in Hb. rewrite Hbad in Hb.
      cbn in Hb. unfold boneDeserialize, nextItem in Hb. cbn in Hb. done. }
  apply readInt_good in Hr1 as (F0 & I0 & D1); [|done].
  cbn in F0, I0.
  assert (Hint1 : int32Items (dIn d1)).
  { rewrite I0 in Hint. by apply (int32Items_app_r [IInt n]). }
  destruct (deserializeEach_sound deserializeBone) with
    (count := Z.to_nat n) (acc := @nil Bone2) (d := d1) (bs := bones) (d' := d2)
    as (new & Hb & Hlen & D2 & I1 & Hfits); try done.
  { intros dd b dd' Hi Hd. by apply (deserializeBoneAt_sound _ _ _ _ Hi Hd). }
  cbn in Hb. subst new.
  assert (Hcs : cacheValues s2 = cs).
  { unfold cacheValues. rewrite E1. cbn. rewrite <- L2.
    apply omap_lookup_seq. intros i c Hc. by apply E5. }
  exists oid, ids, cs. rewrite Hcs, E1, E3, E4. cbn.
  rewrite length_seq, Hlen, L1, L2, !Z2Nat.id by done.
  split_and!; try done.
  - rewrite I0, I1, I2, I3, E7. by rewrite <- ?app_assoc.
  - rewrite E9, D4, D3, D2, D1. cbn. by rewrite <- ?app_assoc.
  - rewrite E9, D4, D3, D2, D1. cbn. apply removelast_last.
  - rewrite E9, D4, D3, D2, D1. done.
Qed.

(** X16: When [deserialize] returns true over a stream of 32-bit ints, what it
    consumed is exactly the record of the key it built: the number of top
    bones, their records, an owner reference, the number of caches and one
    well-formed record per cache.  One request was queued for the owner
    and one per cache, in order; the log scope is closed again, nothing
    was logged, every cache is unbound and the owner is unset until the
    requests are resolved. *)
Theorem deserialize_accepts_only (s s' : State) (d d' : Deserializer) :
  int32Items (dIn d) →
  deserialize s d = Some (true, s', d') →
  ∃ oid ids,
    dIn d =
      IInt (Z.of_nat (length (mData s'))) :: encodeBones (mData s') ++
      IID oid :: IInt (Z.of_nat (length (mCaches s'))) ::
      concat (zip_with cacheItems ids (cacheValues s')) ++ dIn d' ∧
    Forall fitsInt (mData s') ∧
    length ids = length (mCaches s') ∧
    length (cacheValues s') = length (mCaches s') ∧
    dOrders d' =
      dOrders d ++ (oid, SolveOwner) :: zip ids (SolveCacheNode <$> mCaches s') ∧
    dScopes d' = dScopes d ∧ dLog d' = dLog d ∧
    dFailed d = false ∧ dFailed d' = false ∧
    mCacheOwner s' = None ∧ boundNodes s' = [].
Proof.
  intros Hint H.
  destruct (deserialize_unbound s d) as (ok0 & s0 & d0 & Hrun0 & Hunbound).
  rewrite H in Hrun0. injection Hrun0 as <- <- <-.
  destruct (deserialize_true_inv s s' d d' Hint H)
    as (oid & ids & cs & I & Fit & L & Hcs & Hm & _ & O & Sc & Lg & F0 & F1 & Ow).
  rewrite Hm in I, O. rewrite length_seq in I.
  exists oid, ids. rewrite Hcs, Hm, length_seq. by split_and!.
Qed.

Lemma deserialize_accepts_only_witness :
  int32Items (dIn (openStream twinStream)) ∧
  ∃ s' d',
    deserialize demoKey (openStream twinStream) = Some (true, s', d') ∧
  ∃ oid ids,
    dIn (openStream twinStream) =
      IInt (Z.of_nat (length (mData s'))) :: encodeBones (mData s') ++
      IID oid :: IInt (Z.of_nat (length (mCaches s'))) ::
      concat (zip_with cacheItems ids (cacheValues s')) ++ dIn d' ∧
    Forall fitsInt (mData s') ∧
    length ids = length (mCaches s') ∧
    length (cacheValues s') = length (mCaches s') ∧
    dOrders d' =
      dOrders (openStream twinStream) ++
      (oid, SolveOwner) :: zip ids (SolveCacheNode <$> mCaches s') ∧
    dScopes d' = dScopes (openStream twinStream) ∧
    dLog d' = dLog (openStream twinStream) ∧
    dFailed (openStream twinStream) = false ∧ dFailed d' = false ∧
    mCacheOwner s' = None ∧ boundNodes s' = [].
Proof.
  assert (H : int32Items (dIn (openStream twinStream))).
  { intros z Hz. cbn in Hz. repeat (apply elem_of_cons in Hz as [Hz|Hz];
      [try done; injection Hz as ->; lia|]). by apply elem_of_nil in Hz. }
  split; [exact H|]. eexists _, _. split; [by vm_compute|].
  apply (deserialize_accepts_only demoKey _ (openStream twinStream) _ H).
  by vm_compute.
Defined.

(** ** Format errors *)




(** ** What a load ends with *)

Lemma resolve_cache_requests nodeOf : ∀ ids cs base s,
  length ids = length cs →
  (∀ i c, cs !! i = Some c →
          heap s !! (base + i) = Some c ∧ mNode c = None) →
  (∀ id, id ∈ ids → is_Some (nodeOf id)) →
  ∃ s2,
    resolveOrders nodeOf (zip ids (SolveCacheNode <$> seq base (length cs))) s
      = Some s2 ∧
    mCaches s2 = mCaches s ∧ mData s2 = mData s ∧
    mCacheOwner s2 = mCacheOwner s ∧
    map (fun a => heap s2 !! a ≫= mNode) (seq base (length cs)) =
      map (resolvedNode nodeOf) ids ∧
    (∀ a, a < base → heap s2 !! a = heap s !! a).
Proof.
  induction ids as [|id ids IH]; intros [|c cs] base s Hlen Hcells Hknown;
    try done.
  { exists s. by split_and!. }
  cbn [length seq fmap list_fmap zip zip_with resolveOrders].
  destruct (Hknown id) as [node Hnode]; [by left|]. rewrite Hnode.
  destruct (Hcells 0 c eq_refl) as [H0 Hn0]. rewrite Nat.add_0_r in H0.
  set (s1 := runSolver s (SolveCacheNode base) node).
  assert (Hs1 : mCaches s1 = mCaches s ∧ mData s1 = mData s ∧
                mCacheOwner s1 = mCacheOwner s ∧
                heap s1 !! base ≫= mNode = node ∧
                ∀ a, a ≠ base → heap s1 !! a = heap s !! a).
  { subst s1. unfold runSolver. destruct node as [n|].
    - rewrite H0. cbn. split_and!; try done.
      + by rewrite lookup_insert_eq.
      + intros a Ha. by rewrite lookup_insert_ne.
    - split_and!; try done. rewrite H0. done. }
  destruct Hs1 as (A1 & A2 & A3 & A4 & A5).
  destruct (IH cs (S base) s1) as (s2 & Hrun & B1 & B2 & B3 & B4 & B5).
  - cbn in Hlen. lia.
  - intros i c' Hc'. rewrite A5 by lia.
    replace (S base + i) with (base + S i) by lia. by apply Hcells.
  - intros id' Hid. apply Hknown. by right.
  - exists s2. split_and!; try congruence.
    + cbn. rewrite B5 by lia. rewrite A4.
      unfold resolvedNode at 1. rewrite Hnode. cbn. by rewrite B4.
    + intros a Ha. rewrite B5 by lia. apply A5. lia.
Qed.

(** X17: After a successful [deserialize] with no earlier requests pending,
    the post-load pass (every id being known to the table) sets the owner
    to the node the owner reference stands for and binds each cache, in
    collection order, to the node its own reference stands for; a null
    reference leaves owner or cache unbound.  The collection and the
    forest stay as decoded. *)
Theorem load_binds_as_the_stream_says (s s' : State) (d d' : Deserializer)
  (nodeOf : Z → option (option NodeId)) :
  int32Items (dIn d) → dOrders d = [] →
  deserialize s d = Some (true, s', d') →
  (∀ o, o ∈ dOrders d' → is_Some (nodeOf (fst o))) →
  ∃ s2 oid requests,
    resolveOrders nodeOf (dOrders d') s' = Some s2 ∧
    dOrders d' = (oid, SolveOwner) :: requests ∧
    length requests = length (mCaches s') ∧
    mCacheOwner s2 = resolvedNode nodeOf oid ∧
    map (fun a => heap s2 !! a ≫= mNode) (mCaches s2) =
      map (fun o => resolvedNode nodeOf (fst o)) requests ∧
    mCaches s2 = mCaches s' ∧ mData s2 = mData s'.
Proof.
  intros Hint Hnone H Hknown.
  destruct (deserialize_true_inv s s' d d' Hint H)
    as (oid & ids & cs & _ & _ & L & _ & Hm & Hcells & O & _ & _ & _ & _ & Ow).
  rewrite Hnone in O. cbn in O. rewrite O in Hknown |- *.
  destruct (Hknown (oid, SolveOwner)) as [onode Honode]; [by left|].
  cbn in Honode. cbn [resolveOrders]. rewrite Honode.
  set (s1 := runSolver s' SolveOwner onode).
  assert (Hs1 : mCaches s1 = mCaches s' ∧ mData s1 = mData s' ∧
                heap s1 = heap s' ∧ mCacheOwner s1 = onode).
  { subst s1. unfold runSolver. destruct onode; cbn; by split_and!. }
  destruct Hs1 as (A1 & A2 & A3 & A4).
  rewrite Hm.
  destruct (resolve_cache_requests nodeOf ids cs (nextAddr s) s1 L)
    as (s2 & Hrun & B1 & B2 & B3 & B4 & _).
  { intros i c Hc. rewrite A3. by apply Hcells. }
  { intros id Hid. rewrite Hm in Hknown.
    apply list_elem_of_lookup in Hid as [i Hi].
    assert (Hlt : i < length cs).
    { rewrite <- L. by apply lookup_lt_Some in Hi. }
    apply (Hknown (id, SolveCacheNode (nextAddr s + i))). right.
    apply list_elem_of_lookup. exists i.
    apply lookup_zip_with_Some. exists id, (SolveCacheNode (nextAddr s + i)).
    split_and!; try done. rewrite list_lookup_fmap, lookup_seq_lt by done.
    done. }
  exists s2, oid, (zip ids (SolveCacheNode <$> seq (nextAddr s) (length cs))).
  split_and!; try done; try congruence.
  - rewrite length_zip_with, length_fmap, !length_seq. lia.
  - rewrite B3, A4. unfold resolvedNode. by rewrite Honode.
  - rewrite B1, A1, Hm, B4.
    clear -L. revert cs L. generalize (nextAddr s).
    induction ids as [|id ids IH]; intros base [|c cs] L; try done.
    cbn. f_equal. apply IH. cbn in L. lia.
Qed.

Lemma load_binds_as_the_stream_says_witness :
  int32Items (dIn (openStream twinStream)) ∧
  dOrders (openStream twinStream) = [] ∧
  ∃ s' d',
    deserialize demoKey (openStream twinStream) = Some (true, s', d') ∧
    (∀ o, o ∈ dOrders d' → is_Some (demoNodeOf (fst o))) ∧
  ∃ s2 oid requests,
    resolveOrders demoNodeOf (dOrders d') s' = Some s2 ∧
    dOrders d' = (oid, SolveOwner) :: requests ∧
    length requests = length (mCaches s') ∧
    mCacheOwner s2 = resolvedNode demoNodeOf oid ∧
    map (fun a => heap s2 !! a ≫= mNode) (mCaches s2) =
      map (fun o => resolvedNode demoNodeOf (fst o)) requests ∧
    mCaches s2 = mCaches s' ∧ mData s2 = mData s'.
Proof.
  assert (H : int32Items (dIn (openStream twinStream))).
  { intros z Hz. cbn in Hz. repeat (apply elem_of_cons in Hz as [Hz|Hz];
      [try done; injection Hz as ->; lia|]). by apply elem_of_nil in Hz. }
  split; [exact H|]. split; [done|].
  destruct (deserialize demoKey (openStream twinStream))
    as [[[ok s'] d']|] eqn:Hrun; [|by vm_compute in Hrun].
  assert (Hok : ok = true) by (vm_compute in Hrun; congruence). subst ok.
  assert (Hd' : dOrders d' =
            [(0%Z, SolveOwner); (2%Z, SolveCacheNode 2); (2%Z, SolveCacheNode 3)]).
  { vm_compute in Hrun. by injection Hrun as _ <-. }
  assert (Hknown : ∀ o, o ∈ dOrders d' → is_Some (demoNodeOf (fst o))).
  { intros o Ho. rewrite Hd' in Ho.
    repeat (apply elem_of_cons in Ho as [->|Ho]; [by vm_compute; eauto|]).
    by apply elem_of_nil in Ho. }
  exists s', d'. split; [done|]. split; [exact Hknown|].
  exact (load_binds_as_the_stream_says demoKey s' (openStream twinStream) d'
           demoNodeOf H eq_refl Hrun Hknown).
Defined.

(** ** Errors and the log *)

Lemma logStep_quiet ok d d' :
  dScopes d' = dScopes d → dLog d' = dLog d → logStep ok d d'.
Proof.
  intros Hs Hl. split; [done|]. exists [].
  rewrite app_nil_r. split; [done|]. split; [cbn; lia|]. split; [done|].
  intros e He. by apply elem_of_nil in He.
Qed.

Lemma logStep_trans ok d d1 d2 :
  logStep true d d1 → logStep ok d1 d2 → logStep ok d d2.
Proof.
  intros (S1 & n1 & L1 & _ & E1 & _) (S2 & n2 & L2 & B2 & E2 & U2).
  rewrite (E1 eq_refl), app_nil_r in L1.
  split; [congruence|]. exists n2. split_and!; try done.
  - by rewrite L2, L1.
  - intros e He. rewrite <- S1. by apply U2.
Qed.

Lemma logStep_errored d msg : logStep false d (errored d msg).
Proof.
  split; [done|]. exists [(dScopes d, msg)].
  split; [done|]. split; [cbn; lia|]. split; [done|].
  intros e He. by apply list_elem_of_singleton in He as ->.
Qed.

Lemma nextItem_logStep ok d i d1 : nextItem d = Some (i, d1) → logStep ok d d1.
Proof.
  intros H. apply nextItem_Some in H as (_ & _ & ->). by apply logStep_quiet.
Qed.

Lemma readInt_logStep d dflt z d1 : readInt d dflt = (z, d1) → logStep true d d1.
Proof.
  unfold readInt. destruct (nextItem d) as [[i d0]|] eqn:Hn.
  - destruct i; intros [= _ <-];
      (by apply (nextItem_logStep _ _ _ _ Hn)) || by apply logStep_quiet.
  - intros [= _ <-]. by apply logStep_quiet.
Qed.

Lemma readMatrix_logStep d dflt z d1 :
  readMatrix d dflt = (z, d1) → logStep true d d1.
Proof.
  unfold readMatrix. destruct (nextItem d) as [[i d0]|] eqn:Hn.
  - destruct i; intros [= _ <-];
      (by apply (nextItem_logStep _ _ _ _ Hn)) || by apply logStep_quiet.
  - intros [= _ <-]. by apply logStep_quiet.
Qed.

Lemma readFrame_logStep d dflt z d1 :
  readFrame d dflt = (z, d1) → logStep true d d1.
Proof.
  unfold readFrame. destruct (nextItem d) as [[i d0]|] eqn:Hn.
  - destruct i; intros [= _ <-];
      (by apply (nextItem_logStep _ _ _ _ Hn)) || by apply logStep_quiet.
  - intros [= _ <-]. by apply logStep_quiet.
Qed.

Lemma boneDeserialize_logStep d dflt ok f d1 :
  boneDeserialize d dflt = (ok, f, d1) → logStep true d d1.
Proof.
  unfold boneDeserialize. destruct (nextItem d) as [[i d0]|] eqn:Hn.
  - destruct i; intros [= _ _ <-];
      (by apply (nextItem_logStep _ _ _ _ Hn)) || by apply logStep_quiet.
  - intros [= _ _ <-]. by apply logStep_quiet.
Qed.

Lemma influenceDeserialize_logStep d m ok m' d1 :
  influenceDeserialize d m = (ok, m', d1) → logStep true d d1.
Proof.
  unfold influenceDeserialize. destruct (nextItem d) as [[i d0]|] eqn:Hn.
  - destruct i; intros [= _ _ <-];
      (by apply (nextItem_logStep _ _ _ _ Hn)) || by apply logStep_quiet.
  - intros [= _ _ <-]. by apply logStep_quiet.
Qed.

Lemma orderIDData_logStep d solver ok d1 :
  orderIDData d solver = (ok, d1) → logStep true d d1.
Proof.
  unfold orderIDData. destruct (nextItem d) as [[i d0]|] eqn:Hn.
  - destruct i; intros [= _ <-]; try (by apply logStep_quiet).
    apply nextItem_Some in Hn as (_ & _ & ->). by apply logStep_quiet.
  - intros [= _ <-]. by apply logStep_quiet.
Qed.

Lemma logStep_weaken ok d d' : logStep true d d' → logStep ok d d'.
Proof.
  intros (S1 & new & L1 & B1 & E1 & U1). split; [done|].
  exists new. split_and!; try done. intros _. by apply E1.
Qed.

Lemma deserializeEach_logStep one :
  (∀ d ok b d', one d = Some (ok, b, d') → logStep ok d d') →
  ∀ count acc d ok bs d',
    deserializeEach one count acc d = Some (ok, bs, d') → logStep ok d d'.
Proof.
  intros Hone. induction count as [|count IH]; intros acc d ok bs d' H;
    cbn in H.
  { inversion H; subst. by apply logStep_quiet. }
  destruct (one d) as [[[ok1 b] d1]|] eqn:H1; [|done].
  apply Hone in H1. destruct ok1; cbn in H.
  - apply IH in H. by apply (logStep_trans _ _ d1).
  - by inversion H; subst.
Qed.

Lemma deserializeBoneAt_logStep : ∀ depth d ok b d',
  deserializeBoneAt depth d = Some (ok, b, d') → logStep ok d d'.
Proof.
  induction depth as [|depth IH]; intros d ok b d' H; [done|].
  cbn [deserializeBoneAt] in H.
  destruct (readInt d 0%Z) as [z d1] eqn:Hr. apply readInt_logStep in Hr.
  destruct (z <? 0)%Z.
  { inversion H; subst. apply (logStep_trans _ _ d1); [done|].
    apply logStep_errored. }
  destruct (boneDeserialize d1 (boneFields newBone)) as [[okb f] d2] eqn:Hb.
  apply boneDeserialize_logStep in Hb.
  assert (H12 : logStep true d d2) by (by apply (logStep_trans _ _ d1)).
  destruct okb; cbn [negb] in H.
  2:{ inversion H; subst. by apply logStep_weaken. }
  destruct (deserializeEach (deserializeBoneAt depth) (Z.to_nat z) [] d2)
    as [[[oke cs] d3]|] eqn:He; [|done].
  apply (deserializeEach_logStep _ IH) in He.
  assert (H13 : logStep oke d d3) by (by apply (logStep_trans _ _ d2)).
  destruct oke; cbn [negb] in H; inversion H; subst; [|done].
  by apply logStep_weaken.
Qed.

Lemma deserializeCaches_logStep : ∀ count s d ok s' d',
  deserializeCaches count s d = (ok, s', d') → logStep ok d d'.
Proof.
  induction count as [|count IH]; intros s d ok s' d' H.
  { cbn in H. inversion H; subst. by apply logStep_quiet. }
  cbn [deserializeCaches alloc] in H.
  destruct (orderIDData d (SolveCacheNode (nextAddr s))) as [oko d1] eqn:Ho.
  apply orderIDData_logStep in Ho.
  destruct oko; cbn [negb] in H.
  2:{ inversion H; subst. apply (logStep_trans _ _ d1); [done|].
      apply logStep_errored. }
  destruct (readMatrix d1 identityMtx) as [mtx d2] eqn:Hm.
  apply readMatrix_logStep in Hm.
  destruct (readFrame d2 0%Z) as [fs d3] eqn:Hf.
  apply readFrame_logStep in Hf.
  destruct (influenceDeserialize d3 (mInfluence newCache))
    as [[oki map] d4] eqn:Hi.
  apply influenceDeserialize_logStep in Hi.
  assert (H14 : logStep true d d4).
  { apply (logStep_trans _ _ d1); [done|].
    apply (logStep_trans _ _ d2); [done|].
    by apply (logStep_trans _ _ d3). }
  destruct oki; cbn [negb] in H.
  - apply IH in H. by apply (logStep_trans _ _ d4).
  - inversion H; subst. by apply logStep_weaken.
Qed.

(** X18: When [deserialize] returns true the stream is in good state, the
    scopes are as they were and nothing was logged.  When it returns
    false it has reported at most one error, under the scope "BoneKey"
    added to the scopes that were open, and either its scope is still
    open, or the failure was found by the last stream check only: then
    the scopes are as they were, nothing was logged and the stream has
    failed. *)
Theorem deserialize_status (s s' : State) (d d' : Deserializer) (ok : bool) :
  deserialize s d = Some (ok, s', d') →
  (ok = true →
   dFailed d' = false ∧ dScopes d' = dScopes d ∧ dLog d' = dLog d) ∧
  (ok = false →
   (∃ new, dScopes d' = dScopes d ++ ["BoneKey"] ∧
           dLog d' = dLog d ++ new ∧ length new ≤ 1 ∧
           ∀ e, e ∈ new → fst e = dScopes d ++ ["BoneKey"]) ∨
   (dScopes d' = dScopes d ∧ dLog d' = dLog d ∧ dFailed d' = true)).
Proof.
  intros H.
  assert (Hgive : ∀ dd, logStep false (pushLogScope d "BoneKey") dd →
            (false = true →
             dFailed dd = false ∧ dScopes dd = dScopes d ∧ dLog dd = dLog d) ∧
            (false = false →
             (∃ new, dScopes dd = dScopes d ++ ["BoneKey"] ∧
                     dLog dd = dLog d ++ new ∧ length new ≤ 1 ∧
                     ∀ e, e ∈ new → fst e = dScopes d ++ ["BoneKey"]) ∨
             (dScopes dd = dScopes d ∧ dLog dd = dLog d ∧ dFailed dd = true))).
  { intros dd (S1 & new & L1 & B1 & _ & U1). cbn in *.
    split; [done|]. intros _. left. by exists new. }
  unfold deserialize in H.
  destruct (readInt (pushLogScope d "BoneKey") 0%Z) as [n d1] eqn:Hr1.
  apply readInt_logStep in Hr1.
  destruct (n <? 0)%Z.
  { inversion H; subst. apply Hgive.
    apply (logStep_trans _ _ d1); [done|apply logStep_errored]. }
  destruct (deserializeEach deserializeBone (Z.to_nat n) [] d1)
    as [[[oke bones] d2]|] eqn:He; [|done].
  apply (deserializeEach_logStep deserializeBone) in He.
  2:{ intros dd okb b dd' Hb. by apply (deserializeBoneAt_logStep _ _ _ _ _ Hb). }
  assert (H2 : logStep oke (pushLogScope d "BoneKey") d2)
    by (by apply (logStep_trans _ _ d1)).
  destruct oke; cbn [negb] in H; [|inversion H; subst; by apply Hgive].
  destruct (orderIDData d2 SolveOwner) as [oko d3] eqn:Ho.
  apply orderIDData_logStep in Ho.
  assert (H3 : logStep true (pushLogScope d "BoneKey") d3)
    by (by apply (logStep_trans _ _ d2)).
  destruct oko; cbn [negb] in H.
  2:{ inversion H; subst. apply Hgive.
      apply (logStep_trans _ _ d3); [done|apply logStep_errored]. }
  destruct (readInt d3 0%Z) as [m d4] eqn:Hr2. apply readInt_logStep in Hr2.
  assert (H4 : logStep true (pushLogScope d "BoneKey") d4)
    by (by apply (logStep_trans _ _ d3)).
  destruct (m <? 0)%Z.
  { inversion H; subst. apply Hgive.
    apply (logStep_trans _ _ d4); [done|apply logStep_errored]. }
  destruct (deserializeCaches (Z.to_nat m) _ d4) as [[okc s2] d5] eqn:Hc.
  apply deserializeCaches_logStep in Hc.
  assert (H5 : logStep okc (pushLogScope d "BoneKey") d5)
    by (by apply (logStep_trans _ _ d4)).
  destruct okc; cbn [negb] in H; [|inversion H; subst; by apply Hgive].
  inversion H; subst. clear H.
  destruct H5 as (S5 & new & L5 & _ & E5 & _).
  rewrite (E5 eq_refl), app_nil_r in L5. cbn in *.
  assert (Hpop : removelast (dScopes d5) = dScopes d).
  { rewrite S5. apply removelast_last. }
  unfold checkStream. cbn. destruct (dFailed d5) eqn:F5; cbn.
  - split; [done|]. intros _. by right.
  - by split.
Qed.

Lemma deserialize_status_witness :
  ∃ s' d',
    deserialize demoKey (openStream brokenStream) = Some (false, s', d') ∧
    (false = true →
     dFailed d' = false ∧ dScopes d' = dScopes (openStream brokenStream) ∧
     dLog d' = dLog (openStream brokenStream)) ∧
    (false = false →
     (∃ new, dScopes d' = dScopes (openStream brokenStream) ++ ["BoneKey"] ∧
             dLog d' = dLog (openStream brokenStream) ++ new ∧
             length new ≤ 1 ∧
             ∀ e, e ∈ new →
                  fst e = dScopes (openStream brokenStream) ++ ["BoneKey"]) ∨
     (dScopes d' = dScopes (openStream brokenStream) ∧
      dLog d' = dLog (openStream brokenStream) ∧ dFailed d' = true)).
Proof.
  eexists _, _. split; [by vm_compute|].
  eapply (deserialize_status demoKey _ (openStream brokenStream) _ false).
  by vm_compute.
Defined.

(** ** Ownership through the operations *)

Lemma deserializeCaches_frame : ∀ count s d ok s' d',
  deserializeCaches count s d = (ok, s', d') →
  wfState s →
  wfState s' ∧ nextAddr s ≤ nextAddr s' ∧
  mCacheOwner s' = mCacheOwner s ∧ frame s' = frame s ∧
  mData s' = mData s ∧
  (∀ a, a < nextAddr s → heap s' !! a = heap s !! a) ∧
  (∀ a, a ∈ mCaches s' → a ∈ mCaches s ∨ nextAddr s ≤ a).
Proof.
  induction count as [|count IH]; intros s d ok s' d' H Hwf.
  { cbn in H. inversion H; subst. split_and!; auto. }
  cbn [deserializeCaches alloc] in H.
  set (s2 := withCaches _ _) in H.
  destruct Hwf as [Hnd Hlive Hfresh].
  assert (Hnew : nextAddr s ∉ mCaches s).
  { intros Hin. apply Hlive, Hfresh in Hin. lia. }
  assert (Hwf2 : ∀ c, wfState (store s2 (nextAddr s) c)).
  { intros c. split; cbn.
    - rewrite <- Permutation_cons_append. by constructor.
    - intros a Ha. apply elem_of_app in Ha as [Ha|Ha].
      + rewrite !lookup_insert_ne by (intros <-; done). by apply Hlive.
      + apply list_elem_of_singleton in Ha as ->.
        rewrite lookup_insert_eq. eauto.
    - intros a Ha. destruct (decide (nextAddr s = a)) as [<-|Hne]; [lia|].
      rewrite !lookup_insert_ne in Ha by done. apply Hfresh in Ha. lia. }
  assert (Hs2 : ∀ c, nextAddr s ≤ nextAddr (store s2 (nextAddr s) c) ∧
            mCacheOwner (store s2 (nextAddr s) c) = mCacheOwner s ∧
            frame (store s2 (nextAddr s) c) = frame s ∧
            mData (store s2 (nextAddr s) c) = mData s ∧
            (∀ a, a < nextAddr s →
                  heap (store s2 (nextAddr s) c) !! a = heap s !! a) ∧
            (∀ a, a ∈ mCaches (store s2 (nextAddr s) c) →
                  a ∈ mCaches s ∨ nextAddr s ≤ a)).
  { intros c. cbn. split_and!; try done; [lia| |].
    - intros a Ha. by rewrite !lookup_insert_ne by lia.
    - intros a Ha. apply elem_of_app in Ha as [?|Ha]; [by left|].
      apply list_elem_of_singleton in Ha as ->. by right. }
  assert (Hsame : store s2 (nextAddr s) newCache = s2).
  { unfold store, s2. cbn. unfold withHeap. cbn.
    by rewrite insert_insert_eq. }
  destruct (orderIDData d (SolveCacheNode (nextAddr s))) as [[] d1].
  2:{ cbn in H. inversion H; subst. rewrite <- Hsame.
      split; [apply Hwf2|apply Hs2]. }
  cbn [negb] in H.
  destruct (readMatrix d1 identityMtx) as [innerMtx d2].
  destruct (readFrame d2 0%Z) as [fs d3].
  destruct (influenceDeserialize d3 (mInfluence newCache)) as [[ok' map] d4].
  set (cache := setInfluence _ _) in H.
  destruct ok'; cbn [negb] in H.
  2:{ inversion H; subst. split; [apply Hwf2|apply Hs2]. }
  apply IH in H as (W & N & O & F & D & Hh & Hc); [|apply Hwf2].
  destruct (Hs2 cache) as (N2 & O2 & F2 & D2 & Hh2 & Hc2).
  split_and!; try done; try congruence.
  - lia.
  - intros a Ha. rewrite Hh by lia. by apply Hh2.
  - intros a Ha. destruct (Hc a Ha) as [Hin|?]; [by apply Hc2|].
    right. lia.
Qed.

Lemma destroyCaches_wf s : wfState s → wfState (destroyCaches s).
Proof.
  intros [Hnd Hlive Hfresh]. split; cbn.
  - constructor.
  - intros a Ha. by apply elem_of_nil in Ha.
  - intros a Ha. apply lookup_foldr_delete_Some in Ha. by apply Hfresh.
Qed.

(** X19: [deserialize] starts from nothing: the caches the key held before
    are deleted and none of them is in the new collection, whose caches
    are all newly allocated; the owner is unset, the frame is kept,
    objects the key did not hold are untouched, and the ownership of the
    caches is well formed again, whether the decoding succeeds or not. *)
Theorem deserialize_discards_previous (s s' : State) (d d' : Deserializer)
  (ok : bool) :
  wfState s →
  deserialize s d = Some (ok, s', d') →
  wfState s' ∧
  (∀ a, a ∈ mCaches s → heap s' !! a = None ∧ a ∉ mCaches s') ∧
  (∀ a, a ∈ mCaches s' → nextAddr s ≤ a < nextAddr s') ∧
  (∀ a, a ∉ mCaches s → a < nextAddr s → heap s' !! a = heap s !! a) ∧
  mCacheOwner s' = None ∧ frame s' = frame s.
Proof.
  intros Hwf H.
  assert (Hwfd : wfState (deleteAll s)) by (by destruct Hwf).
  pose proof (destroyCaches_wf (deleteAll s) Hwfd) as Hwf0.
  set (s0 := destroyCaches (deleteAll s)) in *.
  assert (Hbase : ∀ bones,
            let s1 := withData s0 (mData s0 ++ bones) in
            wfState s1 ∧
            (∀ a, a ∈ mCaches s → heap s1 !! a = None ∧ a ∉ mCaches s1) ∧
            (∀ a, a ∈ mCaches s1 → nextAddr s ≤ a < nextAddr s1) ∧
            (∀ a, a ∉ mCaches s → a < nextAddr s → heap s1 !! a = heap s !! a) ∧
            mCacheOwner s1 = None ∧ frame s1 = frame s).
  { intros bones. cbn. split_and!; try done.
    - by destruct Hwf0.
    - intros a Ha. split; [|by intros ?%elem_of_nil].
      by apply lookup_foldr_delete_in.
    - intros a Ha. by apply elem_of_nil in Ha.
    - intros a Ha _. by apply lookup_foldr_delete_notin. }
  assert (Hs0 : s0 = withData s0 (mData s0 ++ [])) by done.
  unfold deserialize in H. fold s0 in H.
  destruct (readInt _ _) as [n d1].
  destruct (n <? 0)%Z.
  { inversion H; subst. rewrite Hs0. apply Hbase. }
  destruct (deserializeEach _ _ _ _) as [[[oke bones] d2]|]; [|done].
  destruct oke; cbn [negb] in H; [|inversion H; subst; apply Hbase].
  destruct (orderIDData d2 SolveOwner) as [[] d3]; cbn [negb] in H;
    [|inversion H; subst; apply Hbase].
  destruct (readInt d3 0%Z) as [m d4].
  destruct (m <? 0)%Z; [inversion H; subst; apply Hbase|].
  destruct (deserializeCaches (Z.to_nat m) _ d4) as [[okc s2] d5] eqn:Hc.
  destruct (Hbase bones) as (W1 & Old1 & New1 & Out1 & O1 & F1).
  apply deserializeCaches_frame in Hc as (W & N & O & F & _ & Hh & Hin);
    [|done].
  cbn in N, Hh, Hin, New1, Old1, Out1.
  assert (Hres : wfState s2 ∧
            (∀ a, a ∈ mCaches s → heap s2 !! a = None ∧ a ∉ mCaches s2) ∧
            (∀ a, a ∈ mCaches s2 → nextAddr s ≤ a < nextAddr s2) ∧
            (∀ a, a ∉ mCaches s → a < nextAddr s → heap s2 !! a = heap s !! a) ∧
            mCacheOwner s2 = None ∧ frame s2 = frame s).
  { destruct Hwf as [Hnd Hlive Hfresh]. split_and!; try done; try congruence.
    - intros a Ha. assert (a < nextAddr s) by (by apply Hfresh, Hlive).
      split.
      + rewrite Hh by done. by apply Old1.
      + intros Hn. destruct (Hin a Hn) as [Hnil|?]; [|lia].
        by apply elem_of_nil in Hnil.
    - intros a Ha. destruct (Hin a Ha) as [Hnil|?];
        [by apply elem_of_nil in Hnil|].
      split; [done|]. destruct W as [_ Wl Wf]. by apply Wf, Wl.
    - intros a Ha Hlt. rewrite Hh by done. by apply Out1. }
  destruct okc; cbn [negb] in H; by inversion H; subst.
Qed.

Lemma deserialize_discards_previous_witness :
  wfState demoKey ∧
  ∃ s' d',
    deserialize demoKey (openStream twinStream) = Some (true, s', d') ∧
    wfState s' ∧
    (∀ a, a ∈ mCaches demoKey → heap s' !! a = None ∧ a ∉ mCaches s') ∧
    (∀ a, a ∈ mCaches s' → nextAddr demoKey ≤ a < nextAddr s') ∧
    (∀ a, a ∉ mCaches demoKey → a < nextAddr demoKey →
          heap s' !! a = heap demoKey !! a) ∧
    mCacheOwner s' = None ∧ frame s' = frame demoKey.
Proof.
  split; [exact demoKey_wf|]. eexists _, _. split; [by vm_compute|].
  eapply (deserialize_discards_previous demoKey _ (openStream twinStream) _ true
            demoKey_wf).
  by vm_compute.
Defined.



(** * Further properties of Data values *)

(** X21: Assigning one Data object to a different one replaces the forest of
    the destination, whatever it held, by a forest of the shape of the
    source; the new forest shares no bone object with any forest that
    existed before, and the source and every other Data object keep their
    bones. *)
Theorem dataAssign_replaces (m : DataHeap) (this rhs : addr) :
  this ≠ rhs → bonesAllocated m →
  let m' := dataAssign m this rhs in
  map shape (topBones m' this) = map shape (topBones m rhs) ∧
  (∀ d, d ≠ this → topBones m' d = topBones m d) ∧
  (∀ a d, a ∈ concat (map cells (topBones m' this)) →
          a ∉ concat (map cells (topBones m d))) ∧
  bonesAllocated m'.
Proof.
  intros Hne Hok. unfold dataAssign.
  set (m1 := dataDeleteAll m this).
  assert (Hrhs : topBones m1 rhs = topBones m rhs).
  { unfold topBones, m1. cbn. by rewrite lookup_insert_ne. }
  destruct (pushClones_spec this (topBones m1 rhs) m1)
    as ((clones & Ht & Sc & Cc) & Lm & Hd).
  assert (Hthis : topBones (pushClones m1 this (topBones m1 rhs)) this = clones).
  { rewrite Ht. unfold topBones at 1. cbn. by rewrite lookup_insert_eq. }
  assert (Hother : ∀ d, d ≠ this →
            topBones (pushClones m1 this (topBones m1 rhs)) d = topBones m d).
  { intros d Hd'. unfold topBones. rewrite Hd by done. cbn.
    by rewrite lookup_insert_ne. }
  cbn in Cc, Lm. cbn. split_and!.
  - by rewrite Hthis, Sc, Hrhs.
  - exact Hother.
  - intros a d Ha Hold. rewrite Hthis in Ha. apply Cc in Ha.
    apply Hok in Hold. lia.
  - intros d a Ha. destruct (decide (d = this)) as [->|Hd'].
    + rewrite Hthis in Ha. apply Cc in Ha. lia.
    + rewrite Hother in Ha by done. apply Hok in Ha. lia.
Qed.

Lemma dataAssign_replaces_witness :
  let m := dataCopy demoData 1 0 in
  1 ≠ 0 ∧ bonesAllocated m ∧
  map shape (topBones (dataAssign m 1 0) 1) = map shape (topBones m 0) ∧
  (∀ d, d ≠ 1 → topBones (dataAssign m 1 0) d = topBones m d) ∧
  (∀ a d, a ∈ concat (map cells (topBones (dataAssign m 1 0) 1)) →
          a ∉ concat (map cells (topBones m d))) ∧
  bonesAllocated (dataAssign m 1 0).
Proof.
  intros m.
  assert (Hok : bonesAllocated m).
  { intros d a Ha. unfold topBones in Ha.
    destruct (decide (d = 0)) as [->|H0]; [|destruct (decide (d = 1)) as [->|H1]].
    - vm_compute in Ha. vm_compute.
      repeat (apply elem_of_cons in Ha as [->|Ha]; [lia|]).
      by apply elem_of_nil in Ha.
    - vm_compute in Ha. vm_compute.
      repeat (apply elem_of_cons in Ha as [->|Ha]; [lia|]).
      by apply elem_of_nil in Ha.
    - assert (Hd : datas m !! d = None).
      { subst m. unfold dataCopy.
        destruct (pushClones_spec 1 (topBones demoData 0)
                    {| datas := <[1 := []]> (datas demoData);
                       boneBrk := boneBrk demoData |}) as (_ & _ & Hfr).
        rewrite Hfr by done. cbn. rewrite lookup_insert_ne by done.
        by rewrite lookup_singleton_ne. }
      rewrite Hd in Ha. by apply elem_of_nil in Ha. }
  split; [done|]. split; [exact Hok|].
  exact (dataAssign_replaces m 1 0 ltac:(done) Hok).
Defined.

(** X22: The copy constructor gives the new object a forest of the shape of
    the source that shares no bone object with any forest that existed
    before; the source and every other Data object keep their bones. *)
Theorem dataCopy_independent (m : DataHeap) (this rhs : addr) :
  datas m !! this = None → bonesAllocated m →
  let m' := dataCopy m this rhs in
  map shape (topBones m' this) = map shape (topBones m rhs) ∧
  (∀ d, d ≠ this → topBones m' d = topBones m d) ∧
  (∀ a d, a ∈ concat (map cells (topBones m' this)) →
          a ∉ concat (map cells (topBones m d))) ∧
  bonesAllocated m'.
Proof.
  intros Hnew Hok. unfold dataCopy.
  set (m1 := mkDataHeap _ _).
  destruct (pushClones_spec this (topBones m rhs) m1)
    as ((clones & Ht & Sc & Cc) & Lm & Hd).
  assert (Hthis : topBones (pushClones m1 this (topBones m rhs)) this = clones).
  { rewrite Ht. unfold topBones at 1. cbn. by rewrite lookup_insert_eq. }
  assert (Hother : ∀ d, d ≠ this →
            topBones (pushClones m1 this (topBones m rhs)) d = topBones m d).
  { intros d Hd'. unfold topBones. rewrite Hd by done. cbn.
    by rewrite lookup_insert_ne. }
  cbn in Cc, Lm. cbn. split_and!.
  - by rewrite Hthis.
  - exact Hother.
  - intros a d Ha Hold. rewrite Hthis in Ha. apply Cc in Ha.
    apply Hok in Hold. lia.
  - intros d a Ha. destruct (decide (d = this)) as [->|Hd'].
    + rewrite Hthis in Ha. apply Cc in Ha. lia.
    + rewrite Hother in Ha by done. apply Hok in Ha. lia.
Qed.

Lemma dataCopy_independent_witness :
  datas demoData !! 1 = None ∧ bonesAllocated demoData ∧
  map shape (topBones (dataCopy demoData 1 0) 1) =
    map shape (topBones demoData 0) ∧
  (∀ d, d ≠ 1 → topBones (dataCopy demoData 1 0) d = topBones demoData d) ∧
  (∀ a d, a ∈ concat (map cells (topBones (dataCopy demoData 1 0) 1)) →
          a ∉ concat (map cells (topBones demoData d))) ∧
  bonesAllocated (dataCopy demoData 1 0).
Proof.
  assert (Hok : bonesAllocated demoData).
  { intros d a Ha. unfold topBones, demoData in Ha. cbn in Ha.
    destruct (decide (d = 0)) as [->|H0].
    - vm_compute in Ha. vm_compute.
      repeat (apply elem_of_cons in Ha as [->|Ha]; [lia|]).
      by apply elem_of_nil in Ha.
    - rewrite lookup_singleton_ne in Ha by done. by apply elem_of_nil in Ha. }
  split; [done|]. split; [exact Hok|].
  exact (dataCopy_independent demoData 1 0 eq_refl Hok).
Defined.
